(** * NamedPipe: the agent's buffered, overlapped named-pipe endpoint

    A shallow embedding of [src/agent/NamedPipe.cc] (winpty agent) and the
    properties of its queues, its two I/O workers and its per-tick service
    step.

    Conventions of the embedding.
    - A C++ [int] is a [Z] kept in the 32-bit signed range by [to_int];
      a [size_t] is a [Z] reduced by [to_size_t]; a [DWORD] is a [Z].
    - [std::string] queues and [char] buffers are [list byte].
    - A [HANDLE] is a [Z]; [NULL] is [0].
    - Every method takes the object state and returns the new one.  The
      workers hold a back pointer to their pipe and mutate its queues, so
      a worker method takes and returns both the worker and the pipe.
    - Calls into the operating system are recorded in a trace of
      [SysCall]s; the results the operating system hands back to the
      overlapped calls are read from a script of [Reply]s.
    - [ASSERT] aborts the agent: outcome [Fatal].
    - The two blocking paths, [connectToClient] and [writeImmediately],
      touch neither the queues nor the workers and are left out. *)

From Stdlib Require Import ZArith List Bool Lia.
From Stdlib.Strings Require Import Byte.
Import ListNotations.
Open Scope Z_scope.

(** ** Machine integers *)

Definition INT_MAX : Z := 2147483647.
Definition INT_MIN : Z := -2147483648.

(** Conversion to [int]: reduction modulo 2^32 into the signed range. *)
Definition to_int (z : Z) : Z := (z + 2147483648) mod 4294967296 - 2147483648.

Definition in_int (z : Z) : Prop := INT_MIN <= z <= INT_MAX.

(** What the sources leave to the headers and to the build: the size of a
    worker's transfer buffer ([kIoSize], declared in NamedPipe.h) and the
    width of [size_t] (the agent is built for 32-bit and 64-bit Windows). *)
Class Platform : Type := {
  kIoSize : Z;
  size_bits : Z
}.

(** [kIoSize] is a positive [int]; [size_t] is at least as wide as [int]. *)
Class PlatformOk (pf : Platform) : Prop := {
  kIoSize_pos : 1 <= kIoSize;
  kIoSize_int : kIoSize <= INT_MAX;
  size_bits_32 : 32 <= size_bits
}.

(** Conversion to [size_t]. *)
Definition to_size_t {pf : Platform} (z : Z) : Z := z mod 2 ^ size_bits.

(** ** Outcomes of a call *)

Inductive Outcome (A : Type) : Type :=
| Ret (a : A)      (* the call returns *)
| Fatal            (* an ASSERT failed: the agent process is aborted *)
| Undefined        (* the C++ has no defined behaviour (copy out of bounds) *)
| Starved.         (* the reply script ended before the call could return *)

Arguments Ret {A} a.
Arguments Fatal {A}.
Arguments Undefined {A}.
Arguments Starved {A}.

Definition bind {A B : Type} (m : Outcome A) (k : A -> Outcome B) : Outcome B :=
  match m with
  | Ret a => k a
  | Fatal => Fatal
  | Undefined => Undefined
  | Starved => Starved
  end.

Notation "x <- m ;; k" := (bind m (fun x => k))
  (at level 61, m at next level, right associativity).
Notation "' pat <- m ;; k" := (bind m (fun x => match x with pat => k end))
  (at level 61, pat pattern, m at next level, right associativity).

(** Modelled from the spec: the [ASSERT] macro of WinptyAssert.h, which
    is not among the sources.  The spec makes a violated assertion
    fatal: the hosting process is aborted, nothing is returned. *)
Definition ASSERT (cond : bool) : Outcome unit :=
  if cond then Ret tt else Fatal.

(** ** Byte strings and buffers *)

Definition bytes : Type := list byte.

Module Str.

(** [s.size()], a [size_t]. *)
Definition size (s : bytes) : Z := Z.of_nat (length s).

(** [s.empty()]. *)
Definition empty (s : bytes) : bool :=
  match s with
  | [] => true
  | _ :: _ => false
  end.

(** [s.substr(0, count)]: the first [min(count, size())] characters. *)
Definition substr0 (s : bytes) (count : Z) : bytes :=
  firstn (Z.to_nat (Z.min count (size s))) s.

(** [s.erase(0, count)]: drops the first [min(count, size())] characters. *)
Definition erase0 (s : bytes) (count : Z) : bytes :=
  skipn (Z.to_nat (Z.min count (size s))) s.

(** [s.append(buf, n)] for a character array [buf]: defined when the
    array holds [n] characters. *)
Definition append (s : bytes) (buf : bytes) (n : Z) : Outcome bytes :=
  if (0 <=? n) && (n <=? size buf)
  then Ret (s ++ firstn (Z.to_nat n) buf)
  else Undefined.

End Str.

(** [memcpy(dst, src, n)] on character arrays: defined when both hold [n]
    characters; the first [n] characters of [dst] are replaced. *)
Definition memcpy (dst src : bytes) (n : Z) : Outcome bytes :=
  if (0 <=? n) && (n <=? Str.size src) && (n <=? Str.size dst)
  then Ret (firstn (Z.to_nat n) src ++ skipn (Z.to_nat n) dst)
  else Undefined.

(** [std::copy(p, p + n, dst.begin())] where [p] points at the first
    character of [src]; used with [n <= src.size()] and [n = dst.size()]. *)
Definition std_copy (src : bytes) (n : Z) (dst : bytes) : bytes :=
  firstn (Z.to_nat n) src ++ skipn (Z.to_nat n) dst.

(** ** Handles, system calls and transport replies *)

Definition HANDLE : Type := Z.
Definition NULL : HANDLE := 0.
Definition INVALID_HANDLE_VALUE : HANDLE := -1.

(** The calls the endpoint makes on an open pipe, in the order made. *)
Inductive SysCall : Type :=
| GetOverlappedResult (hFile hEvent : HANDLE) (bWait : bool)
| ReadFile (hFile hEvent : HANDLE) (nNumberOfBytesToRead : Z)
| WriteFile (hFile hEvent : HANDLE) (data : bytes)
| ResetEvent (hEvent : HANDLE)
| CancelIo (hFile : HANDLE)
| CloseHandle (h : HANDLE).

(** What the transport answers to [ReadFile], [WriteFile] and to a
    non-blocking [GetOverlappedResult].
    - [Done actual data]: the call succeeded and transferred [actual]
      bytes; for a receive, [data] is what the transport stored at the
      start of the worker's buffer.
    - [NotYet]: the call failed with ERROR_IO_PENDING (on issue) or
      ERROR_IO_INCOMPLETE (on poll).
    - [Failed]: the call failed with any other error. *)
Inductive Reply : Type :=
| Done (actual : Z) (data : bytes)
| NotYet
| Failed.

(** ** Object state *)

(** [NamedPipe::IoWorker].  [m_over] is opaque transport state whose only
    field set by the agent is [hEvent = m_event]; it is not kept. *)
Record IoWorker : Type := mkIoWorker {
  m_pending : bool;
  m_currentIoSize : Z;
  m_event : HANDLE;
  m_buffer : bytes          (* char m_buffer[kIoSize] *)
}.

(** The two subclasses of [IoWorker]. *)
Inductive WorkerKind : Type := InputWorker | OutputWorker.

Record NamedPipe : Type := mkNamedPipe {
  m_readBufferSize : Z;
  m_handle : HANDLE;
  m_inputWorker : option IoWorker;    (* [None] is the NULL pointer *)
  m_outputWorker : option IoWorker;
  m_inQueue : bytes;
  m_outQueue : bytes
}.

Definition set_pending (b : bool) (w : IoWorker) : IoWorker :=
  mkIoWorker b (m_currentIoSize w) (m_event w) (m_buffer w).
Definition set_currentIoSize (n : Z) (w : IoWorker) : IoWorker :=
  mkIoWorker (m_pending w) n (m_event w) (m_buffer w).
Definition set_buffer (b : bytes) (w : IoWorker) : IoWorker :=
  mkIoWorker (m_pending w) (m_currentIoSize w) (m_event w) b.

Definition set_readBufferSize (n : Z) (p : NamedPipe) : NamedPipe :=
  mkNamedPipe n (m_handle p) (m_inputWorker p) (m_outputWorker p)
              (m_inQueue p) (m_outQueue p).
Definition set_handle (h : HANDLE) (p : NamedPipe) : NamedPipe :=
  mkNamedPipe (m_readBufferSize p) h (m_inputWorker p) (m_outputWorker p)
              (m_inQueue p) (m_outQueue p).
Definition set_inputWorker (w : option IoWorker) (p : NamedPipe) : NamedPipe :=
  mkNamedPipe (m_readBufferSize p) (m_handle p) w (m_outputWorker p)
              (m_inQueue p) (m_outQueue p).
Definition set_outputWorker (w : option IoWorker) (p : NamedPipe) : NamedPipe :=
  mkNamedPipe (m_readBufferSize p) (m_handle p) (m_inputWorker p) w
              (m_inQueue p) (m_outQueue p).
Definition set_inQueue (q : bytes) (p : NamedPipe) : NamedPipe :=
  mkNamedPipe (m_readBufferSize p) (m_handle p) (m_inputWorker p)
              (m_outputWorker p) q (m_outQueue p).
Definition set_outQueue (q : bytes) (p : NamedPipe) : NamedPipe :=
  mkNamedPipe (m_readBufferSize p) (m_handle p) (m_inputWorker p)
              (m_outputWorker p) (m_inQueue p) q.

(** The worker of a given kind, and its replacement. *)
Definition worker_of (k : WorkerKind) (p : NamedPipe) : option IoWorker :=
  match k with
  | InputWorker => m_inputWorker p
  | OutputWorker => m_outputWorker p
  end.

Definition set_worker (k : WorkerKind) (w : option IoWorker) (p : NamedPipe)
  : NamedPipe :=
  match k with
  | InputWorker => set_inputWorker w p
  | OutputWorker => set_outputWorker w p
  end.

Section Endpoint.

Context {pf : Platform}.

(** ** Construction and the queue accessors *)

(** [NamedPipe::NamedPipe()]. *)
Definition NamedPipe_new : NamedPipe :=
  mkNamedPipe (64 * 1024) NULL None None [] [].

(** [NamedPipe::isClosed()]. *)
Definition isClosed (p : NamedPipe) : bool := m_handle p =? NULL.

(** [NamedPipe::readBufferSize()] and [setReadBufferSize(size)]. *)
Definition readBufferSize (p : NamedPipe) : Z := m_readBufferSize p.
Definition setReadBufferSize (size : Z) (p : NamedPipe) : NamedPipe :=
  set_readBufferSize size p.

(** [NamedPipe::OutputWorker::getPendingIoSize()]. *)
Definition getPendingIoSize (w : IoWorker) : Z :=
  if m_pending w then m_currentIoSize w else 0.

(** [NamedPipe::IoWorker::getWaitEvent()]. *)
Definition getWaitEvent (w : IoWorker) : HANDLE :=
  if m_pending w then m_event w else NULL.

(** [NamedPipe::bytesToSend()]. *)
Definition bytesToSend (p : NamedPipe) : Z :=
  let ret := to_int (Str.size (m_outQueue p)) in
  match m_outputWorker p with
  | Some w => to_int (ret + getPendingIoSize w)
  | None => ret
  end.

(** [NamedPipe::write(data, size)]: [data] stands for the [size] bytes
    found at the pointer. *)
Definition write (data : bytes) (p : NamedPipe) : NamedPipe :=
  set_outQueue (m_outQueue p ++ data) p.

(** [NamedPipe::bytesAvailable()]. *)
Definition bytesAvailable (p : NamedPipe) : Z := to_int (Str.size (m_inQueue p)).

(** [NamedPipe::peek(data, size)]: returns the count, the caller's buffer
    after the copy, and the pipe. *)
Definition peek (data : bytes) (size : Z) (p : NamedPipe)
  : Outcome (Z * bytes * NamedPipe) :=
  let ret := Z.min size (to_int (Str.size (m_inQueue p))) in
  data' <- memcpy data (m_inQueue p) (to_size_t ret) ;;
  Ret (ret, data', p).

(** [NamedPipe::read(size)]. *)
Definition read (size : Z) (p : NamedPipe) : bytes * NamedPipe :=
  let retSize := Z.min size (to_int (Str.size (m_inQueue p))) in
  let ret := Str.substr0 (m_inQueue p) (to_size_t retSize) in
  (ret, set_inQueue (Str.erase0 (m_inQueue p) (to_size_t retSize)) p).

(** [NamedPipe::readAsVector(size)]. *)
Definition readAsVector (size : Z) (p : NamedPipe) : bytes * NamedPipe :=
  let retSize := Z.min (to_size_t size) (Str.size (m_inQueue p)) in
  let ret := repeat x00 (Z.to_nat retSize) in
  if 0 <? retSize
  then (std_copy (m_inQueue p) retSize ret,
        set_inQueue (Str.erase0 (m_inQueue p) retSize) p)
  else (ret, p).

(** [NamedPipe::readAll()]. *)
Definition readAll (p : NamedPipe) : bytes * NamedPipe :=
  (m_inQueue p, set_inQueue [] p).

(** ** The I/O workers *)

(** [IoWorker::IoWorker(namedPipe)]; [event] is what [CreateEventW]
    returned.  The buffer is not initialised by the constructor; it is
    taken to hold zeros. *)
Definition IoWorker_new (event : HANDLE) : Outcome IoWorker :=
  _ <- ASSERT (negb (event =? NULL)) ;;
  Ret (mkIoWorker false (-1) event (repeat x00 (Z.to_nat kIoSize))).

(** [IoWorker::~IoWorker()]. *)
Definition IoWorker_delete (w : option IoWorker) : list SysCall :=
  match w with
  | Some w => [CloseHandle (m_event w)]
  | None => []
  end.

(** [IoWorker::waitForCanceledIo()]: the blocking [GetOverlappedResult]
    answers only once the canceled operation is over, and its result is
    not looked at. *)
Definition waitForCanceledIo (hFile : HANDLE) (w : IoWorker) (tr : list SysCall)
  : IoWorker * list SysCall :=
  if m_pending w
  then (set_pending false w, tr ++ [GetOverlappedResult hFile (m_event w) true])
  else (w, tr).

(** [InputWorker::completeIo(size)]. *)
Definition InputWorker_completeIo (size : Z) (w : IoWorker) (p : NamedPipe)
  : Outcome NamedPipe :=
  q <- Str.append (m_inQueue p) (m_buffer w) (to_size_t size) ;;
  Ret (set_inQueue q p).

(** [InputWorker::shouldIssueIo(size, isRead)]: [Some (size, isRead)] when
    the method returns true, [None] when it returns false. *)
Definition InputWorker_shouldIssueIo (w : IoWorker) (p : NamedPipe)
  : Outcome (option (Z * bool) * IoWorker * NamedPipe) :=
  if isClosed p then Ret (None, w, p)
  else if to_int (Str.size (m_inQueue p)) <? readBufferSize p
       then Ret (Some (kIoSize, true), w, p)
       else Ret (None, w, p).

(** [OutputWorker::completeIo(size)]. *)
Definition OutputWorker_completeIo (size : Z) (w : IoWorker) (p : NamedPipe)
  : Outcome NamedPipe :=
  _ <- ASSERT (size =? m_currentIoSize w) ;;
  Ret p.

(** [OutputWorker::shouldIssueIo(size, isRead)]. *)
Definition OutputWorker_shouldIssueIo (w : IoWorker) (p : NamedPipe)
  : Outcome (option (Z * bool) * IoWorker * NamedPipe) :=
  if negb (Str.empty (m_outQueue p)) then
    let writeSize := Z.min (to_int (Str.size (m_outQueue p))) (to_int kIoSize) in
    buffer <- memcpy (m_buffer w) (m_outQueue p) (to_size_t writeSize) ;;
    Ret (Some (writeSize, false),
         set_buffer buffer w,
         set_outQueue (Str.erase0 (m_outQueue p) (to_size_t writeSize)) p)
  else Ret (None, w, p).

(** The virtual methods, dispatched on the subclass. *)
Definition completeIo (k : WorkerKind) : Z -> IoWorker -> NamedPipe -> Outcome NamedPipe :=
  match k with
  | InputWorker => InputWorker_completeIo
  | OutputWorker => OutputWorker_completeIo
  end.

Definition shouldIssueIo (k : WorkerKind)
  : IoWorker -> NamedPipe -> Outcome (option (Z * bool) * IoWorker * NamedPipe) :=
  match k with
  | InputWorker => InputWorker_shouldIssueIo
  | OutputWorker => OutputWorker_shouldIssueIo
  end.

(** A completed receive has stored [data] at the start of the buffer. *)
Definition deposit (data : bytes) (buffer : bytes) : bytes :=
  firstn (length buffer) (data ++ skipn (length data) buffer).

Definition transfer (isRead : bool) (data : bytes) (w : IoWorker) : IoWorker :=
  if isRead then set_buffer (deposit data (m_buffer w)) w else w.

(** The operations of an [InputWorker] are receives, those of an
    [OutputWorker] sends. *)
Definition kind_isRead (k : WorkerKind) : bool :=
  match k with
  | InputWorker => true
  | OutputWorker => false
  end.

(** The result of [IoWorker::service()]: the value returned, the worker,
    the pipe, what is left of the reply script, and the trace. *)
Definition Serviced : Type :=
  (Z * IoWorker * NamedPipe * list Reply * list SysCall)%type.

(** The [while (shouldIssueIo(&nextSize, &isRead))] loop of
    [IoWorker::service()].  Every operation issued takes one reply. *)
Fixpoint issueLoop (k : WorkerKind) (script : list Reply) (progress : Z)
    (w : IoWorker) (p : NamedPipe) (tr : list SysCall) {struct script}
  : Outcome Serviced :=
  '(next, w, p) <- shouldIssueIo k w p ;;
  match next with
  | None => Ret (progress, w, p, script, tr)
  | Some (nextSize, isRead) =>
    let w := set_currentIoSize nextSize w in
    let call :=
      if isRead
      then ReadFile (m_handle p) (m_event w) nextSize
      else WriteFile (m_handle p) (m_event w)
                     (firstn (Z.to_nat nextSize) (m_buffer w)) in
    match script with
    | [] => Starved
    | NotYet :: script =>
      Ret (progress, set_pending true w, p, script, tr ++ [call])
    | Failed :: script =>
      Ret (-1, w, p, script, tr ++ [call])
    | Done actual data :: script =>
      let w := transfer isRead data w in
      p <- completeIo k (to_int actual) w p ;;
      issueLoop k script (to_int (progress + actual))
                (set_currentIoSize (-1) w) p
                (tr ++ [call; ResetEvent (m_event w)])
    end
  end.

(** [IoWorker::service()]. *)
Definition IoWorker_service (k : WorkerKind) (w : IoWorker) (p : NamedPipe)
    (script : list Reply) (tr : list SysCall) : Outcome Serviced :=
  let progress := 0 in
  if m_pending w then
    let poll := GetOverlappedResult (m_handle p) (m_event w) false in
    match script with
    | [] => Starved
    | NotYet :: script => Ret (progress, w, p, script, tr ++ [poll])
    | Failed :: script => Ret (-1, w, p, script, tr ++ [poll])
    | Done actual data :: script =>
      let w := set_pending false (transfer (kind_isRead k) data w) in
      p <- completeIo k (to_int actual) w p ;;
      issueLoop k script (to_int (progress + actual))
                (set_currentIoSize (-1) w) p
                (tr ++ [poll; ResetEvent (m_event w)])
    end
  else issueLoop k script progress w p tr.

(** ** Connecting, closing and the service tick *)

(** [NamedPipe::closePipe()]. *)
Definition closePipe (p : NamedPipe) (tr : list SysCall)
  : NamedPipe * list SysCall :=
  if m_handle p =? NULL then (p, tr)
  else
    let tr := tr ++ [CancelIo (m_handle p)] in
    let '(inputWorker, tr) :=
      match m_inputWorker p with
      | Some w => let '(w, tr) := waitForCanceledIo (m_handle p) w tr in (Some w, tr)
      | None => (None, tr)
      end in
    let '(outputWorker, tr) :=
      match m_outputWorker p with
      | Some w => let '(w, tr) := waitForCanceledIo (m_handle p) w tr in (Some w, tr)
      | None => (None, tr)
      end in
    let tr := tr ++ IoWorker_delete inputWorker in
    let tr := tr ++ IoWorker_delete outputWorker in
    let tr := tr ++ [CloseHandle (m_handle p)] in
    (set_outputWorker None (set_inputWorker None (set_handle NULL p)), tr).

(** [NamedPipe::connectToServer(name)]; [handle] is what [CreateFileW]
    returned, [evIn] and [evOut] what the two [CreateEventW] calls of the
    worker constructors returned.  [m_name] is only kept for the debug
    trace and is left out. *)
Definition connectToServer (handle evIn evOut : HANDLE) (p : NamedPipe)
  : Outcome (bool * NamedPipe) :=
  _ <- ASSERT (isClosed p) ;;
  if handle =? INVALID_HANDLE_VALUE then Ret (false, p)
  else
    inputWorker <- IoWorker_new evIn ;;
    outputWorker <- IoWorker_new evOut ;;
    Ret (true, set_outputWorker (Some outputWorker)
                 (set_inputWorker (Some inputWorker) (set_handle handle p))).

(** [NamedPipe::adoptHandle(handle, write, name)]; [ev] is what the
    [CreateEventW] call of the worker constructor returned. *)
Definition adoptHandle (handle : HANDLE) (write : bool) (ev : HANDLE)
    (p : NamedPipe) : Outcome NamedPipe :=
  _ <- ASSERT (isClosed p) ;;
  let p := set_handle handle p in
  if write
  then w <- IoWorker_new ev ;; Ret (set_outputWorker (Some w) p)
  else w <- IoWorker_new ev ;; Ret (set_inputWorker (Some w) p).

(** The two [if (m_xWorker != NULL) { ... }] blocks of [serviceIo]: the
    worker's [service()] and then its [getWaitEvent()]. *)
Definition serviceWorker (k : WorkerKind) (p : NamedPipe)
    (script : list Reply) (tr : list SysCall)
  : Outcome (Z * HANDLE * NamedPipe * list Reply * list SysCall) :=
  match worker_of k p with
  | Some w =>
    '(n, w, p, script, tr) <- IoWorker_service k w p script tr ;;
    Ret (n, getWaitEvent w, set_worker k (Some w) p, script, tr)
  | None => Ret (0, NULL, p, script, tr)
  end.

Definition push_back (waitHandles : list HANDLE) (h : HANDLE) : list HANDLE :=
  waitHandles ++ [h].

(** The result of [NamedPipe::serviceIo]: the value returned, the
    caller's handle vector, the pipe, the rest of the script, the trace. *)
Definition Tick : Type :=
  (bool * list HANDLE * NamedPipe * list Reply * list SysCall)%type.

(** [NamedPipe::serviceIo(waitHandles)]. *)
Definition serviceIo (waitHandles : list HANDLE) (p : NamedPipe)
    (script : list Reply) (tr : list SysCall) : Outcome Tick :=
  if m_handle p =? NULL then Ret (false, waitHandles, p, script, tr)
  else
    '(readBytes, readHandle, p, script, tr) <-
       serviceWorker InputWorker p script tr ;;
    '(writeBytes, writeHandle, p, script, tr) <-
       serviceWorker OutputWorker p script tr ;;
    if (readBytes =? -1) || (writeBytes =? -1) then
      let '(p, tr) := closePipe p tr in
      Ret (true, waitHandles, p, script, tr)
    else
      let waitHandles :=
        if negb (readHandle =? NULL)
        then push_back waitHandles readHandle else waitHandles in
      let waitHandles :=
        if negb (writeHandle =? NULL)
        then push_back waitHandles writeHandle else waitHandles in
      Ret ((0 <? readBytes) || (0 <? writeBytes), waitHandles, p, script, tr).

End Endpoint.

(** ** Runs of an endpoint *)

Section Runs.

Context {pf : Platform}.

(** A sequence of [write] calls, first to last. *)
Definition writes (datas : list bytes) (p : NamedPipe) : NamedPipe :=
  fold_left (fun p data => write data p) datas p.

(** The sum of the byte counts of a sequence of writes. *)
Definition total_size (datas : list bytes) : Z :=
  fold_right (fun data n => Str.size data + n) 0 datas.

(** The calls a client of the class can make. *)
Inductive Op : Type :=
| op_setReadBufferSize (size : Z)
| op_connectToServer (handle evIn evOut : HANDLE)
| op_adoptHandle (handle : HANDLE) (write : bool) (ev : HANDLE)
| op_write (data : bytes)
| op_peek (data : bytes) (size : Z)
| op_read (size : Z)
| op_readAsVector (size : Z)
| op_readAll
| op_serviceIo (waitHandles : list HANDLE) (script : list Reply) (tr : list SysCall)
| op_closePipe (tr : list SysCall).

(** The pipe after a call, when the call returns. *)
Definition perform (o : Op) (p : NamedPipe) : Outcome NamedPipe :=
  match o with
  | op_setReadBufferSize size => Ret (setReadBufferSize size p)
  | op_connectToServer handle evIn evOut =>
    '(_, p) <- connectToServer handle evIn evOut p ;; Ret p
  | op_adoptHandle handle write ev => adoptHandle handle write ev p
  | op_write data => Ret (write data p)
  | op_peek data size => '(_, _, p) <- peek data size p ;; Ret p
  | op_read size => Ret (snd (read size p))
  | op_readAsVector size => Ret (snd (readAsVector size p))
  | op_readAll => Ret (snd (readAll p))
  | op_serviceIo waitHandles script tr =>
    '(_, _, p, _, _) <- serviceIo waitHandles p script tr ;; Ret p
  | op_closePipe tr => Ret (fst (closePipe p tr))
  end.

(** [Run allowed p p']: [p'] is reached from [p] by calls that return and
    that are all [allowed]. *)
Inductive Run (allowed : Op -> Prop) (p : NamedPipe) : NamedPipe -> Prop :=
| Run_refl : Run allowed p p
| Run_step (o : Op) (p' p'' : NamedPipe) :
    Run allowed p p' -> allowed o -> perform o p' = Ret p'' ->
    Run allowed p p''.

(** The transport never transfers more than the buffer it was given, and
    every operation of a worker is issued on its [kIoSize] buffer. *)
Definition reply_ok (r : Reply) : Prop :=
  match r with
  | Done actual _ => 0 <= actual <= kIoSize
  | NotYet | Failed => True
  end.

(** Set-up calls: choosing the read limit and connecting, on handles that
    the operating system can return for an open pipe. *)
Definition is_config (o : Op) : Prop :=
  match o with
  | op_setReadBufferSize _ => True
  | op_connectToServer handle _ _ => handle <> NULL
  | op_adoptHandle handle _ _ => handle <> NULL
  | _ => False
  end.

(** An endpoint that was constructed and set up, and not used yet. *)
Definition Configured (p : NamedPipe) : Prop := Run is_config NamedPipe_new p.

(** Traffic: writes, reads and service ticks (over a transport that keeps
    to [reply_ok]). *)
Definition is_traffic (o : Op) : Prop :=
  match o with
  | op_write _ | op_peek _ _ | op_read _ | op_readAsVector _ | op_readAll => True
  | op_serviceIo _ script _ => Forall reply_ok script
  | _ => False
  end.

(** Any call at all. *)
Definition any_op (o : Op) : Prop := True.

(** A worker as its constructor leaves it, whatever it did since: the
    event exists and the buffer has its [kIoSize] characters. *)
Definition worker_wf (w : IoWorker) : Prop :=
  m_event w <> NULL /\ Str.size (m_buffer w) = kIoSize.

(** An endpoint that has not been used has empty queues and idle
    workers. *)
Definition unused (p : NamedPipe) : Prop :=
  m_inQueue p = [] /\ m_outQueue p = [] /\
  forall k w, worker_of k p = Some w -> worker_wf w /\ m_pending w = false.

(** The blocking polls [closePipe] makes for a worker: one when the
    worker has an operation outstanding, none otherwise. *)
Definition drain_calls (hFile : HANDLE) (w : option IoWorker) : list SysCall :=
  match w with
  | Some w => if m_pending w then [GetOverlappedResult hFile (m_event w) true] else []
  | None => []
  end.

(** The pipe [closePipe] leaves: no handle, no workers, queues and read
    limit as they were. *)
Definition torn_down (p : NamedPipe) : NamedPipe :=
  mkNamedPipe (m_readBufferSize p) NULL None None (m_inQueue p) (m_outQueue p).

(** What a worker's [service()] leaves alone in its pipe: the handle, the
    worker pointers, the read limit, and the queue of the other
    direction. *)
Definition pipe_frame (k : WorkerKind) (p p' : NamedPipe) : Prop :=
  m_handle p' = m_handle p
  /\ m_inputWorker p' = m_inputWorker p
  /\ m_outputWorker p' = m_outputWorker p
  /\ m_readBufferSize p' = m_readBufferSize p
  /\ match k with
     | InputWorker => m_outQueue p' = m_outQueue p
     | OutputWorker => m_inQueue p' = m_inQueue p
     end.

(** ...and in itself: the event and the extent of the buffer. *)
Definition worker_frame (w w' : IoWorker) : Prop :=
  m_event w' = m_event w /\ Str.size (m_buffer w') = Str.size (m_buffer w).

(** Every worker of the pipe is as its constructor left it. *)
Definition workers_wf (p : NamedPipe) : Prop :=
  forall k w, worker_of k p = Some w -> worker_wf w.

(** The handles among [hs] that are not [NULL], in order. *)
Definition nonnull (hs : list HANDLE) : list HANDLE :=
  filter (fun h => negb (h =? NULL)) hs.

(** ** The transfer worker as the design describes it

    The state machine of a transfer worker, written from the design's
    words and over unbounded integers: phases, a policy made of
    [shouldIssue] and [onComplete], and the [advance] step.  The
    properties relate [IoWorker::service()] to it. *)

Inductive Phase : Type :=
| Idle          (* nothing issued *)
| Pending       (* one operation outstanding *)
| FailedPhase.  (* a transport error was observed *)

(** The worker as the design sees it: its phase, the size of the
    outstanding operation (kept at 0 unless [Pending]), its private
    buffer, and the endpoint it serves. *)
Record Machine : Type := mkMachine {
  phase : Phase;
  outstanding : Z;
  buffer : bytes;
  endpoint : NamedPipe
}.

(** Reader policy: a fixed-size receive is granted iff the endpoint is
    not closed and the input queue is shorter than the read limit;
    [onComplete(n)] appends [n] bytes to the input queue.
    Writer policy: a send is granted iff the output queue is not empty;
    up to a fixed chunk is copied from the front of the output queue to
    the buffer and removed from the queue; [onComplete(n)] asserts that
    [n] is the issued size. *)
Definition policy_shouldIssue (k : WorkerKind) (buf : bytes) (ep : NamedPipe)
  : option (Z * bool * bytes * NamedPipe) :=
  match k with
  | InputWorker =>
    if negb (isClosed ep) && (Str.size (m_inQueue ep) <? m_readBufferSize ep)
    then Some (kIoSize, true, buf, ep)
    else None
  | OutputWorker =>
    match m_outQueue ep with
    | [] => None
    | _ :: _ =>
      let n := Z.min (Str.size (m_outQueue ep)) kIoSize in
      Some (n, false,
            firstn (Z.to_nat n) (m_outQueue ep) ++ skipn (Z.to_nat n) buf,
            set_outQueue (skipn (Z.to_nat n) (m_outQueue ep)) ep)
    end
  end.

Definition policy_onComplete (k : WorkerKind) (issued n : Z) (buf : bytes)
    (ep : NamedPipe) : Outcome NamedPipe :=
  match k with
  | InputWorker => Ret (set_inQueue (m_inQueue ep ++ firstn (Z.to_nat n) buf) ep)
  | OutputWorker => if n =? issued then Ret ep else Fatal
  end.

(** The buffer once the transport has completed an operation on it. *)
Definition completed_buffer (isRead : bool) (data : bytes) (buf : bytes) : bytes :=
  if isRead then deposit data buf else buf.

(** Step 2 of [advance]: while idle, ask the policy and issue.
    [IdleSteps k acc buf ep script n m script']: starting idle with
    [acc] bytes of progress, the step returns [n] in state [m]. *)
Inductive IdleSteps (k : WorkerKind)
  : Z -> bytes -> NamedPipe -> list Reply -> Z -> Machine -> list Reply -> Prop :=
| idle_nothing acc buf ep script :
    policy_shouldIssue k buf ep = None ->
    IdleSteps k acc buf ep script acc (mkMachine Idle 0 buf ep) script
| idle_synchronous acc buf ep actual data script size isRead buf1 ep1 ep2 n m script' :
    policy_shouldIssue k buf ep = Some (size, isRead, buf1, ep1) ->
    policy_onComplete k size actual (completed_buffer isRead data buf1) ep1 = Ret ep2 ->
    IdleSteps k (acc + actual) (completed_buffer isRead data buf1) ep2 script n m script' ->
    IdleSteps k acc buf ep (Done actual data :: script) n m script'
| idle_pending acc buf ep script size isRead buf1 ep1 :
    policy_shouldIssue k buf ep = Some (size, isRead, buf1, ep1) ->
    IdleSteps k acc buf ep (NotYet :: script) acc (mkMachine Pending size buf1 ep1) script
| idle_error acc buf ep script size isRead buf1 ep1 :
    policy_shouldIssue k buf ep = Some (size, isRead, buf1, ep1) ->
    IdleSteps k acc buf ep (Failed :: script) (-1) (mkMachine FailedPhase 0 buf1 ep1) script.

(** [advance]: step 1 polls the outstanding operation, step 2 is
    [IdleSteps]. *)
Inductive Advance (k : WorkerKind)
  : Machine -> list Reply -> Z -> Machine -> list Reply -> Prop :=
| advance_incomplete size buf ep script :
    Advance k (mkMachine Pending size buf ep) (NotYet :: script)
            0 (mkMachine Pending size buf ep) script
| advance_error size buf ep script :
    Advance k (mkMachine Pending size buf ep) (Failed :: script)
            (-1) (mkMachine FailedPhase 0 buf ep) script
| advance_complete size buf ep actual data script ep1 n m script' :
    policy_onComplete k size actual (completed_buffer (kind_isRead k) data buf) ep = Ret ep1 ->
    IdleSteps k actual (completed_buffer (kind_isRead k) data buf) ep1 script n m script' ->
    Advance k (mkMachine Pending size buf ep) (Done actual data :: script) n m script'
| advance_idle buf ep script n m script' :
    IdleSteps k 0 buf ep script n m script' ->
    Advance k (mkMachine Idle 0 buf ep) script n m script'.

(** The machine state of a worker of the code, before a service call... *)
Definition machine_of (w : IoWorker) (p : NamedPipe) : Machine :=
  if m_pending w
  then mkMachine Pending (m_currentIoSize w) (m_buffer w) p
  else mkMachine Idle 0 (m_buffer w) p.

(** ...and after a service call that returned [n]. *)
Definition machine_after (n : Z) (w : IoWorker) (p : NamedPipe) : Machine :=
  if n =? -1 then mkMachine FailedPhase 0 (m_buffer w) p else machine_of w p.

(** The sizes within which the [int] arithmetic of a service call is
    exact: the buffer has its [kIoSize] characters, and the queue the
    worker works on, with the read limit for a Reader, leaves room for
    one more transfer. *)
Definition in_range (k : WorkerKind) (w : IoWorker) (p : NamedPipe) : Prop :=
  Str.size (m_buffer w) = kIoSize
  /\ match k with
     | InputWorker =>
       m_readBufferSize p + kIoSize - 1 <= INT_MAX
       /\ Str.size (m_inQueue p) <= INT_MAX
       /\ (m_pending w = true -> Str.size (m_inQueue p) + kIoSize <= INT_MAX)
     | OutputWorker =>
       Str.size (m_outQueue p) + kIoSize <= INT_MAX
     end.

(** What the loop of [service()] needs of its state for the [int]
    arithmetic to be exact: the worker is idle on a [kIoSize] buffer and
    the progress counted so far leaves room for what can still move. *)
Definition loop_range (k : WorkerKind) (progress : Z) (w : IoWorker)
    (p : NamedPipe) : Prop :=
  m_pending w = false
  /\ Str.size (m_buffer w) = kIoSize
  /\ match k with
     | InputWorker =>
       m_readBufferSize p + kIoSize - 1 <= INT_MAX
       /\ 0 <= progress <= Str.size (m_inQueue p)
       /\ Str.size (m_inQueue p) <= INT_MAX
     | OutputWorker =>
       0 <= progress /\ progress + Str.size (m_outQueue p) <= INT_MAX
     end.

(** The bytes the design counts as still to send: queued, plus handed to
    an operation that is outstanding. *)
Definition to_send (m : Machine) : Z :=
  Str.size (m_outQueue (endpoint m)) + outstanding m.

(** The Reader's side of an endpoint with read limit [L]: the input
    queue is within one transfer of the limit, and a receive is only
    outstanding while the queue is below the limit. *)
Definition reader_inv (L : Z) (p : NamedPipe) : Prop :=
  m_readBufferSize p = L
  /\ Str.size (m_inQueue p) <= Z.max 0 (L - 1 + kIoSize)
  /\ forall w, m_inputWorker p = Some w ->
       Str.size (m_buffer w) = kIoSize
       /\ (m_pending w = true -> Str.size (m_inQueue p) < L).

(** The Writer's side of an endpoint: its buffer has [kIoSize]
    characters and an outstanding send is of at most [kIoSize] bytes. *)
Definition writer_inv (p : NamedPipe) : Prop :=
  forall w, m_outputWorker p = Some w ->
    Str.size (m_buffer w) = kIoSize
    /\ (m_pending w = true -> 0 <= m_currentIoSize w <= kIoSize).

(** An endpoint on which the [int] arithmetic of a service tick is
    exact: the Reader's side is within its bounds, the read limit and
    the output queue leave room for one more transfer, and the Writer's
    outstanding operation, if any, is of at most [kIoSize] bytes. *)
Definition tick_ready (p : NamedPipe) : Prop :=
  reader_inv (m_readBufferSize p) p
  /\ m_readBufferSize p + kIoSize - 1 <= INT_MAX
  /\ Str.size (m_outQueue p) + kIoSize <= INT_MAX
  /\ writer_inv p.

(** The wait handle a worker pointer stands for ([NULL] for no worker),
    and the handles a tick hands to the event loop. *)
Definition worker_handle (w : option IoWorker) : HANDLE :=
  match w with
  | Some w => getWaitEvent w
  | None => NULL
  end.

Definition wait_handles (p : NamedPipe) : list HANDLE :=
  nonnull [worker_handle (m_inputWorker p); worker_handle (m_outputWorker p)].

(** A script whose completions report the full size of what the Writer
    has issued: for an output queue of [len] bytes the Writer sends
    [min(len, kIoSize)] bytes, then goes on with the rest. *)
Fixpoint full_sizes (len : Z) (script : list Reply) : Prop :=
  match script with
  | Done actual _ :: script =>
    len <= 0
    \/ (to_int actual = Z.min len kIoSize
        /\ full_sizes (len - Z.min len kIoSize) script)
  | _ => True
  end.

Definition reports_full_sizes (w : IoWorker) (p : NamedPipe)
    (script : list Reply) : Prop :=
  if m_pending w then
    match script with
    | Done actual _ :: script =>
      to_int actual = m_currentIoSize w
      /\ full_sizes (Str.size (m_outQueue p)) script
    | _ => True
    end
  else full_sizes (Str.size (m_outQueue p)) script.

(** A reply that completes an operation. *)
Definition is_Done (r : Reply) : Prop :=
  match r with
  | Done _ _ => True
  | NotYet | Failed => False
  end.

End Runs.

(** ** Sample endpoints

    A 64-bit build with 64 KiB transfer buffers, and a few endpoints on
    it, obtained by running the calls, that the examples at the end of
    the file use. *)

(** What a call returned ([default] if it did not return). *)
Definition result {A : Type} (default : A) (m : Outcome A) : A :=
  match m with
  | Ret a => a
  | _ => default
  end.

Definition returns {A : Type} (m : Outcome A) : bool :=
  match m with
  | Ret _ => true
  | _ => false
  end.

Module Sample.

#[export] Instance win64 : Platform := {| kIoSize := 65536; size_bits := 64 |}.

(** The endpoint after [connectToServer] got pipe handle 100 and the
    events 11 and 12. *)
Definition connect : Op := op_connectToServer 100 11 12.
Definition connected : NamedPipe :=
  result NamedPipe_new (perform connect NamedPipe_new).

(** Its workers. *)
Definition worker (k : WorkerKind) (p : NamedPipe) : IoWorker :=
  match worker_of k p with
  | Some w => w
  | None => mkIoWorker false 0 0 []
  end.

(** A closed endpoint with three bytes of input left to read. *)
Definition leftover : NamedPipe :=
  mkNamedPipe 65536 NULL None None [x61; x62; x63] [].

(** Three bytes written on [connected]. *)
Definition written : NamedPipe := write [x61; x62; x63] connected.

(** A tick on [written] in which the receive and the send both go
    pending, and one more byte written after it. *)
Definition both_pending : Op := op_serviceIo [] [NotYet; NotYet] [].
Definition pending_both : NamedPipe :=
  result written (perform both_pending written).
Definition sending : NamedPipe := write [x64] pending_both.

(** A tick on [connected] in which the receive goes pending. *)
Definition receive_pending : Op := op_serviceIo [] [NotYet] [].
Definition receiving : NamedPipe :=
  result connected (perform receive_pending connected).

(** Replies to the Reader of [connected]: a receive of two bytes
    completes at once and the next one goes pending. *)
Definition two_bytes : list Reply := [Done 2 [x61; x62]; NotYet].

(** A tick on [sending]: the receive completes with two bytes and the
    next one goes pending; the send of three bytes completes and the
    byte left in the queue is sent at once. *)
Definition busy : list Reply :=
  [Done 2 [x61; x62]; NotYet; Done 3 []; Done 1 []].
Definition ticked : Tick :=
  result (false, [], sending, [], []) (serviceIo [] sending busy []).
Definition tick_flag (t : Tick) : bool := fst (fst (fst (fst t))).
Definition tick_handles (t : Tick) : list HANDLE := snd (fst (fst (fst t))).
Definition tick_pipe (t : Tick) : NamedPipe := snd (fst (fst t)).
Definition tick_script (t : Tick) : list Reply := snd (fst t).
Definition tick_trace (t : Tick) : list SysCall := snd t.

(** The Reader of [connected] serviced over [two_bytes]. *)
Definition serviced : Serviced :=
  result (0, worker InputWorker connected, connected, [], [])
         (IoWorker_service InputWorker (worker InputWorker connected)
                           connected two_bytes []).
Definition serviced_value (s : Serviced) : Z := fst (fst (fst (fst s))).
Definition serviced_worker (s : Serviced) : IoWorker := snd (fst (fst (fst s))).
Definition serviced_pipe (s : Serviced) : NamedPipe := snd (fst (fst s)).
Definition serviced_script (s : Serviced) : list Reply := snd (fst s).
Definition serviced_trace (s : Serviced) : list SysCall := snd s.

(** A transport that completes a first receive with 65535 bytes at
    once, and a second one with 65536 bytes; and the endpoint after one
    tick on [connected] over it. *)
Definition flood : list Reply :=
  [Done 65535 (repeat x61 (Z.to_nat 65535));
   Done 65536 (repeat x62 (Z.to_nat 65536))].
Definition flooding : Op := op_serviceIo [] flood [].
Definition flooded : NamedPipe := result connected (perform flooding connected).

End Sample.

(** ** The rest of the class

    The text overload of [write], the two blocking paths, and the
    vocabulary of the properties that follow the claims. *)

Section Rest.

Context {pf : Platform}.

(** [strlen(text)] on the characters found at [text]: the number of
    characters before the first NUL; [None] when the array holds no NUL
    (the C++ then reads past it). *)
Fixpoint strlen (text : bytes) : option Z :=
  match text with
  | [] => None
  | c :: text =>
    if Byte.eqb c x00 then Some 0
    else match strlen text with
         | Some n => Some (n + 1)
         | None => None
         end
  end.

(** [NamedPipe::write(text)]: [write(text, strlen(text))], the length
    passing through the [int] parameter of the other overload and back
    to the [size_t] of [append]. *)
Definition write_text (text : bytes) (p : NamedPipe) : Outcome NamedPipe :=
  match strlen text with
  | None => Undefined
  | Some n =>
    let size := to_int (to_size_t n) in
    q <- Str.append (m_outQueue p) text (to_size_t size) ;;
    Ret (set_outQueue q p)
  end.


(** The calls of the blocking paths: those of the overlapped paths, and
    three more. *)
Inductive BlockingCall : Type :=
| Overlapped (c : SysCall)
| CreateEventW (result : HANDLE)
| ConnectNamedPipe (hNamedPipe hEvent : HANDLE)
| WaitForSingleObject (hHandle : HANDLE) (dwMilliseconds : Z).

(** What a call of a blocking path answers: success with the bytes
    transferred, or failure with the code that [GetLastError()] then
    returns. *)
Inductive Answer : Type :=
| Succeeded (actual : Z)
| FailedWith (lastError : Z).

Definition ERROR_PIPE_CONNECTED : Z := 535.
Definition ERROR_IO_INCOMPLETE : Z := 996.
Definition ERROR_IO_PENDING : Z := 997.

Definition succeeded (a : Answer) : bool :=
  match a with
  | Succeeded _ => true
  | FailedWith _ => false
  end.

(** [GetLastError()] after the call, looked at only when it failed. *)
Definition last_error (a : Answer) : Z :=
  match a with
  | Succeeded _ => 0
  | FailedWith e => e
  end.

(** The [DWORD actual] the call filled in; 0, the value the variable
    was initialised with, when it failed. *)
Definition transferred (a : Answer) : Z :=
  match a with
  | Succeeded n => n
  | FailedWith _ => 0
  end.

(** Conversion to [DWORD]. *)
Definition to_DWORD (z : Z) : Z := z mod 4294967296.

(** The result of a blocking path: the pipe, the answers left, the
    trace. *)
Definition Blocked : Type :=
  (NamedPipe * list Answer * list BlockingCall)%type.

(** [NamedPipe::connectToClient()]; [ev] is what [CreateEventW]
    returned. *)
Definition connectToClient (ev : HANDLE) (p : NamedPipe)
    (answers : list Answer) (tr : list BlockingCall) : Outcome Blocked :=
  _ <- ASSERT (negb (isClosed p)) ;;
  let tr := tr ++ [CreateEventW ev] in
  _ <- ASSERT (negb (ev =? NULL)) ;;
  let tr := tr ++ [ConnectNamedPipe (m_handle p) ev] in
  match answers with
  | [] => Starved
  | a :: answers =>
    '(success, lastError, answers, tr) <-
      (if negb (succeeded a) && (last_error a =? ERROR_IO_PENDING) then
         let tr := tr ++ [WaitForSingleObject ev 30000;
                          Overlapped (GetOverlappedResult (m_handle p) ev false)] in
         match answers with
         | [] => Starved
         | b :: answers => Ret (succeeded b, last_error b, answers, tr)
         end
       else Ret (succeeded a, last_error a, answers, tr)) ;;
    let success :=
      if negb success && (lastError =? ERROR_PIPE_CONNECTED) then true
      else success in
    _ <- ASSERT success ;;
    Ret (p, answers, tr ++ [Overlapped (CloseHandle ev)])
  end.

(** Modelled from the spec: [IoWorker::ioPending()], declared in
    NamedPipe.h, which is not among the sources.  The spec makes it the
    test for an outstanding operation of the worker. *)
Definition ioPending (w : IoWorker) : bool := m_pending w.

(** [NamedPipe::writeImmediately(data, size)]; [data] stands for the
    [size] bytes found at the pointer, [ev] is what [CreateEventW]
    returned. *)
Definition writeImmediately (data : bytes) (ev : HANDLE) (p : NamedPipe)
    (answers : list Answer) (tr : list BlockingCall) : Outcome Blocked :=
  let size := to_int (Str.size data) in
  w <- match m_outputWorker p with
       | Some w => Ret w
       | None => Fatal
       end ;;
  _ <- ASSERT (negb (ioPending w)) ;;
  let tr := tr ++ [CreateEventW ev] in
  _ <- ASSERT (negb (ev =? NULL)) ;;
  let tr := tr ++ [Overlapped (WriteFile (m_handle p) ev data)] in
  match answers with
  | [] => Starved
  | a :: answers =>
    '(success, actual, answers, tr) <-
      (if negb (succeeded a) && (last_error a =? ERROR_IO_PENDING) then
         let tr := tr ++ [WaitForSingleObject ev 30000;
                          Overlapped (GetOverlappedResult (m_handle p) ev false)] in
         match answers with
         | [] => Starved
         | b :: answers => Ret (succeeded b, transferred b, answers, tr)
         end
       else Ret (succeeded a, transferred a, answers, tr)) ;;
    _ <- ASSERT (success && (actual =? to_DWORD size)) ;;
    Ret (p, answers, tr ++ [Overlapped (CloseHandle ev)])
  end.

(** The bytes handed to [WriteFile] along a trace, in order. *)
Definition handed (tr : list SysCall) : bytes :=
  flat_map (fun c => match c with
                     | WriteFile _ _ data => data
                     | _ => []
                     end) tr.

(** The bytes the transport delivered with the replies it completed, in
    order. *)
Definition delivered (replies : list Reply) : bytes :=
  flat_map (fun r => match r with
                     | Done _ data => data
                     | NotYet | Failed => []
                     end) replies.


(** The replies of a transport that completes every send at once and in
    full, for an output queue of [len] bytes: one per chunk. *)
Fixpoint full_completions (fuel : nat) (len : Z) : list Reply :=
  match fuel with
  | O => []
  | S fuel =>
    if len <=? 0 then []
    else Done (Z.min len kIoSize) []
           :: full_completions fuel (len - Z.min len kIoSize)
  end.

(** The size of the Writer's outstanding operation, as [bytesToSend()]
    counts it. *)
Definition in_flight (p : NamedPipe) : Z :=
  match m_outputWorker p with
  | Some w => getPendingIoSize w
  | None => 0
  end.

(** Calls on handles that the operating system can return for an open
    pipe. *)
Definition valid_op (o : Op) : Prop :=
  match o with
  | op_connectToServer handle _ _ => handle <> NULL
  | op_adoptHandle handle _ _ => handle <> NULL
  | _ => True
  end.

(** What [service()] of a worker of kind [k] may ask of the operating
    system, on the pipe handle [hFile] and with the worker's event
    [hEvent]: receives of [kIoSize] bytes for a Reader, sends of 1 to
    [kIoSize] bytes for a Writer, non-blocking polls and resets of its
    own event; nothing is canceled or closed. *)
Definition call_ok (k : WorkerKind) (hFile hEvent : HANDLE) (c : SysCall) : Prop :=
  match c with
  | ReadFile h e n => k = InputWorker /\ h = hFile /\ e = hEvent /\ n = kIoSize
  | WriteFile h e data =>
    k = OutputWorker /\ h = hFile /\ e = hEvent /\ 1 <= Str.size data <= kIoSize
  | GetOverlappedResult h e bWait => h = hFile /\ e = hEvent /\ bWait = false
  | ResetEvent e => e = hEvent
  | CancelIo _ | CloseHandle _ => False
  end.

End Rest.

(** ** More sample endpoints *)

Module Scenes.

Import Sample.



(** [connected] with the read limit at zero: the Reader has nothing to
    ask for. *)
Definition throttled : NamedPipe := setReadBufferSize 0 connected.

(** The characters of "hi", their NUL, and what lies behind it. *)
Definition greeting : bytes := [x68; x69; x00; x7a].

(** The calls of a blocking write of one byte that went pending. *)
Definition waited_write : list BlockingCall :=
  [CreateEventW 13;
   Overlapped (WriteFile (m_handle connected) 13 [x61]);
   WaitForSingleObject 13 30000;
   Overlapped (GetOverlappedResult (m_handle connected) 13 false);
   Overlapped (CloseHandle 13)].

End Scenes.

(** * Properties *)

Section Properties.

Context {pf : Platform} {ok : PlatformOk pf}.

(** ** Integer conversions *)

Lemma to_int_id (z : Z) : in_int z -> to_int z = z.
Proof.
  unfold in_int, INT_MIN, INT_MAX, to_int. intros H.
  rewrite Z.mod_small by lia. lia.
Qed.

Lemma size_t_covers_int : 4294967296 <= 2 ^ size_bits.
Proof.
  change 4294967296 with (2 ^ 32).
  apply Z.pow_le_mono_r; [lia | apply size_bits_32].
Qed.

Lemma to_size_t_id (z : Z) : 0 <= z <= INT_MAX -> to_size_t z = z.
Proof.
  unfold INT_MAX, to_size_t. intros H. pose proof size_t_covers_int.
  apply Z.mod_small. lia.
Qed.

Lemma to_size_t_negative (z : Z) :
  INT_MIN <= z < 0 -> to_size_t z = z + 2 ^ size_bits.
Proof.
  unfold INT_MIN, to_size_t. intros H. pose proof size_t_covers_int.
  symmetry. apply Z.mod_unique with (q := -1); lia.
Qed.

Lemma size_nonneg (s : bytes) : 0 <= Str.size s.
Proof. unfold Str.size. lia. Qed.

Lemma size_app (s t : bytes) : Str.size (s ++ t) = Str.size s + Str.size t.
Proof. unfold Str.size. rewrite length_app. lia. Qed.

Lemma size_firstn (n : Z) (s : bytes) :
  0 <= n <= Str.size s -> Str.size (firstn (Z.to_nat n) s) = n.
Proof. unfold Str.size. intros H. rewrite length_firstn. lia. Qed.

Lemma size_skipn (n : Z) (s : bytes) :
  0 <= n <= Str.size s -> Str.size (skipn (Z.to_nat n) s) = Str.size s - n.
Proof. unfold Str.size. intros H. rewrite length_skipn. lia. Qed.

Lemma firstn_size (s : bytes) : firstn (Z.to_nat (Str.size s)) s = s.
Proof. unfold Str.size. rewrite Nat2Z.id. apply firstn_all. Qed.

Lemma skipn_size (s : bytes) : skipn (Z.to_nat (Str.size s)) s = [].
Proof. unfold Str.size. rewrite Nat2Z.id. apply skipn_all. Qed.

Lemma size_zero_nil (s : bytes) : Str.size s <= 0 -> s = [].
Proof.
  destruct s; [reflexivity | ].
  unfold Str.size; simpl length. lia.
Qed.

Lemma set_inQueue_same (p : NamedPipe) : set_inQueue (m_inQueue p) p = p.
Proof. destruct p; reflexivity. Qed.

(** ** The input-queue accessors *)

(** [read] with a negative size takes the whole queue: the size is
    converted to [size_t] on its way into [substr] and [erase]. *)
Lemma read_negative (n : Z) (p : NamedPipe) :
  INT_MIN <= n < 0 -> Str.size (m_inQueue p) <= INT_MAX ->
  read n p = (m_inQueue p, set_inQueue [] p).
Proof.
  intros Hn Hq. unfold read.
  pose proof (size_nonneg (m_inQueue p)) as H0.
  rewrite to_int_id by (unfold in_int, INT_MIN; lia).
  rewrite Z.min_l by lia.
  rewrite to_size_t_negative by exact Hn.
  pose proof size_t_covers_int as Hc.
  unfold Str.substr0, Str.erase0.
  rewrite Z.min_r by (unfold INT_MIN, INT_MAX in *; lia).
  rewrite firstn_size, skipn_size. reflexivity.
Qed.

Lemma read_nonnegative (n : Z) (p : NamedPipe) :
  0 <= n <= INT_MAX -> Str.size (m_inQueue p) <= INT_MAX ->
  read n p =
  (firstn (Z.to_nat (Z.min n (Str.size (m_inQueue p)))) (m_inQueue p),
   set_inQueue (skipn (Z.to_nat (Z.min n (Str.size (m_inQueue p)))) (m_inQueue p)) p).
Proof.
  intros Hn Hq. unfold read.
  pose proof (size_nonneg (m_inQueue p)) as H0.
  rewrite to_int_id by (unfold in_int, INT_MIN; lia).
  rewrite to_size_t_id by lia.
  unfold Str.substr0, Str.erase0.
  rewrite (Z.min_l (Z.min _ _)) by lia. reflexivity.
Qed.

(** C10.  For every size [n] (an [int]) and every input queue,
    [readAsVector(n)] returns the same bytes as [read(n)] and leaves the
    pipe in the same state; this covers [n = 0], a negative [n] and the
    empty queue.  The queue length is taken to fit an [int], as [read]
    itself takes it. *)
Theorem readAsVector_eq_read (n : Z) (p : NamedPipe) :
  in_int n -> Str.size (m_inQueue p) <= INT_MAX ->
  readAsVector n p = read n p.
Proof.
  intros Hn Hq.
  pose proof (size_nonneg (m_inQueue p)) as H0.
  destruct (Z.lt_ge_cases n 0) as [Hneg | Hpos].
  - rewrite read_negative by (unfold in_int in Hn; lia).
    unfold readAsVector.
    rewrite to_size_t_negative by (unfold in_int in Hn; lia).
    pose proof size_t_covers_int as Hc.
    rewrite Z.min_r by (unfold in_int, INT_MIN, INT_MAX in *; lia).
    destruct (0 <? Str.size (m_inQueue p)) eqn:Hlt.
    + unfold std_copy, Str.erase0. rewrite Z.min_id.
      rewrite firstn_size, skipn_size.
      rewrite skipn_all2 by (rewrite repeat_length; lia).
      rewrite app_nil_r. reflexivity.
    + apply Z.ltb_ge in Hlt.
      assert (Hnil : m_inQueue p = []) by (apply size_zero_nil; exact Hlt).
      assert (Hp : set_inQueue [] p = p)
        by (rewrite <- Hnil; apply set_inQueue_same).
      rewrite Hp, Hnil. reflexivity.
  - rewrite read_nonnegative by (unfold in_int in Hn; lia).
    unfold readAsVector.
    rewrite to_size_t_id by (unfold in_int in Hn; lia).
    set (r := Z.min n (Str.size (m_inQueue p))).
    assert (Hr : 0 <= r <= Str.size (m_inQueue p)) by (unfold r; lia).
    destruct (0 <? r) eqn:Hlt.
    + unfold std_copy, Str.erase0.
      rewrite (Z.min_l r) by lia.
      rewrite skipn_all2 by (rewrite repeat_length; lia).
      rewrite app_nil_r. reflexivity.
    + apply Z.ltb_ge in Hlt. replace r with 0 by lia. simpl.
      rewrite set_inQueue_same. reflexivity.
Qed.

(** C7, amended to sizes [n >= 0].  [read(n)] returns the first
    [min(n, bytesAvailable())] bytes of the input queue, removes exactly
    those bytes from its front, and so lowers [bytesAvailable()] by
    exactly that amount; [peek(data, n)], on a caller's buffer that can
    hold them, copies the same prefix and returns the pipe unchanged. *)
Theorem read_peek_prefix (n : Z) (p : NamedPipe) (data : bytes) :
  0 <= n <= INT_MAX -> Str.size (m_inQueue p) <= INT_MAX ->
  Z.min n (bytesAvailable p) <= Str.size data ->
  let k := Z.min n (bytesAvailable p) in
  let '(ret, p') := read n p in
  ret = firstn (Z.to_nat k) (m_inQueue p)
  /\ Str.size ret = k
  /\ m_inQueue p = ret ++ m_inQueue p'
  /\ bytesAvailable p' = bytesAvailable p - k
  /\ peek data n p = Ret (k, ret ++ skipn (Z.to_nat k) data, p).
Proof.
  intros Hn Hq Hd k. pose proof (size_nonneg (m_inQueue p)) as H0.
  assert (Hav : bytesAvailable p = Str.size (m_inQueue p))
    by (apply to_int_id; unfold in_int, INT_MIN; lia).
  assert (Hk : 0 <= k <= Str.size (m_inQueue p)) by (unfold k; lia).
  rewrite read_nonnegative by assumption.
  rewrite <- Hav. fold k.
  split; [reflexivity | ].
  split; [apply size_firstn; exact Hk | ].
  split; [simpl; symmetry; apply firstn_skipn | ].
  split.
  - rewrite Hav. unfold bytesAvailable; simpl m_inQueue.
    rewrite size_skipn by exact Hk.
    apply to_int_id. unfold in_int, INT_MIN; lia.
  - unfold peek. fold (bytesAvailable p). fold k.
    rewrite to_size_t_id by lia.
    unfold memcpy.
    replace ((0 <=? k) && (k <=? Str.size (m_inQueue p)) && (k <=? Str.size data))
      with true by (symmetry; rewrite !andb_true_iff; unfold k; lia).
    reflexivity.
Qed.

(** ** Constructed and configured endpoints *)

Lemma ASSERT_ret (c : bool) (A : Type) (k : unit -> Outcome A) (a : A) :
  bind (ASSERT c) k = Ret a -> c = true /\ k tt = Ret a.
Proof. destruct c; simpl; intros H; [auto | discriminate]. Qed.

Lemma IoWorker_new_ret (ev : HANDLE) (w : IoWorker) :
  IoWorker_new ev = Ret w ->
  w = mkIoWorker false (-1) ev (repeat x00 (Z.to_nat kIoSize)) /\ ev <> NULL.
Proof.
  unfold IoWorker_new. intros H. apply ASSERT_ret in H as [Hev H].
  injection H as <-. split; [reflexivity | ].
  apply negb_true_iff, Z.eqb_neq in Hev. exact Hev.
Qed.

Lemma IoWorker_new_wf (ev : HANDLE) (w : IoWorker) :
  IoWorker_new ev = Ret w ->
  worker_wf w /\ m_pending w = false /\ m_currentIoSize w = -1.
Proof.
  intros H. apply IoWorker_new_ret in H as [-> Hev].
  unfold worker_wf, Str.size; simpl. rewrite repeat_length.
  pose proof kIoSize_pos. repeat split; [exact Hev | lia].
Qed.

Lemma Configured_unused (p : NamedPipe) : Configured p -> unused p.
Proof.
  unfold Configured. induction 1 as [ | o p' p'' Hrun IH Hallowed Hperf].
  - repeat split; try reflexivity; destruct k; discriminate.
  - destruct IH as (Hin & Hout & Hw).
    destruct o; simpl in Hallowed; try contradiction; simpl in Hperf.
    + injection Hperf as <-.
      split; [exact Hin | split; [exact Hout | ]].
      intros k w H. apply (Hw k w). destruct k; exact H.
    + unfold connectToServer in Hperf.
      destruct (isClosed p'); simpl in Hperf; [ | discriminate].
      destruct (handle =? INVALID_HANDLE_VALUE).
      * injection Hperf as <-. split; [exact Hin | split; [exact Hout | exact Hw]].
      * destruct (IoWorker_new evIn) as [wi | | | ] eqn:Hi; try discriminate.
        destruct (IoWorker_new evOut) as [wo | | | ] eqn:Ho; try discriminate.
        injection Hperf as <-.
        apply IoWorker_new_wf in Hi as (Hi1 & Hi2 & _).
        apply IoWorker_new_wf in Ho as (Ho1 & Ho2 & _).
        split; [exact Hin | split; [exact Hout | ]].
        intros k w H. destruct k; simpl in H; injection H as <-; auto.
    + unfold adoptHandle in Hperf.
      destruct (isClosed p'); simpl in Hperf; [ | discriminate].
      destruct write0;
        destruct (IoWorker_new ev) as [w0 | | | ] eqn:Hn; try discriminate;
        injection Hperf as <-;
        apply IoWorker_new_wf in Hn as (Hn1 & Hn2 & _);
        (split; [exact Hin | split; [exact Hout | ]]);
        intros k w H; destruct k; simpl in H;
        try (injection H as <-; auto);
        try (apply (Hw InputWorker w); exact H);
        try (apply (Hw OutputWorker w); exact H).
Qed.

(** ** Bytes to send *)

Lemma writes_outQueue (datas : list bytes) (p : NamedPipe) :
  m_outQueue (writes datas p) = m_outQueue p ++ concat datas
  /\ m_outputWorker (writes datas p) = m_outputWorker p.
Proof.
  unfold writes. revert p. induction datas as [ | d ds IH]; intros p; simpl.
  - rewrite app_nil_r. auto.
  - destruct (IH (write d p)) as [Hq Hw].
    rewrite Hq, Hw. simpl. rewrite <- app_assoc. auto.
Qed.

Lemma size_concat (datas : list bytes) :
  Str.size (concat datas) = total_size datas.
Proof.
  induction datas as [ | d ds IH]; simpl; [reflexivity | ].
  rewrite size_app, IH. reflexivity.
Qed.

(** C1.  [bytesToSend()] is the length of the output queue plus the size
    of the Writer's outstanding operation when it has one pending, and
    plus nothing when there is no Writer or nothing is pending; so after
    any sequence of writes on an endpoint that was never serviced it is
    the sum of the byte counts written.  The counts are taken to fit the
    [int] that [bytesToSend()] returns. *)
Theorem bytesToSend_queue_plus_pending (p p0 : NamedPipe) (datas : list bytes) :
  in_int (Str.size (m_outQueue p)) ->
  in_int (Str.size (m_outQueue p) +
          match m_outputWorker p with
          | Some w => if m_pending w then m_currentIoSize w else 0
          | None => 0
          end) ->
  Configured p0 ->
  total_size datas <= INT_MAX ->
  bytesToSend p =
    Str.size (m_outQueue p) +
    match m_outputWorker p with
    | Some w => if m_pending w then m_currentIoSize w else 0
    | None => 0
    end
  /\ bytesToSend (writes datas p0) = total_size datas.
Proof.
  intros Hq Hsum Hcfg Htot. split.
  - unfold bytesToSend, getPendingIoSize.
    rewrite (to_int_id _ Hq).
    destruct (m_outputWorker p) as [w | ]; [ | lia].
    apply to_int_id. exact Hsum.
  - apply Configured_unused in Hcfg as (_ & Hout & Hw).
    destruct (writes_outQueue datas p0) as [Hq' Hw'].
    unfold bytesToSend, getPendingIoSize. rewrite Hq', Hw', Hout. simpl app.
    rewrite size_concat.
    assert (Hin : in_int (total_size datas)).
    { pose proof (size_nonneg (concat datas)) as H0. rewrite size_concat in H0.
      unfold in_int, INT_MIN. lia. }
    rewrite (to_int_id _ Hin).
    destruct (m_outputWorker p0) as [w | ] eqn:Hw0; [ | reflexivity].
    destruct (Hw OutputWorker w Hw0) as [_ Hidle]. rewrite Hidle.
    rewrite Z.add_0_r. apply to_int_id. exact Hin.
Qed.

(** ** Closing *)

Lemma closePipe_open (p : NamedPipe) (tr : list SysCall) :
  isClosed p = false ->
  closePipe p tr =
  (torn_down p,
   tr ++ [CancelIo (m_handle p)]
      ++ drain_calls (m_handle p) (m_inputWorker p)
      ++ drain_calls (m_handle p) (m_outputWorker p)
      ++ IoWorker_delete (m_inputWorker p)
      ++ IoWorker_delete (m_outputWorker p)
      ++ [CloseHandle (m_handle p)]).
Proof.
  unfold isClosed, closePipe. intros ->.
  destruct (m_inputWorker p) as [wi | ], (m_outputWorker p) as [wo | ];
    unfold waitForCanceledIo; simpl;
    try destruct (m_pending wi); try destruct (m_pending wo); simpl;
    rewrite <- ?app_assoc; reflexivity.
Qed.

Lemma closePipe_closed (p : NamedPipe) (tr : list SysCall) :
  isClosed p = true -> closePipe p tr = (p, tr).
Proof. unfold isClosed, closePipe. intros ->. reflexivity. Qed.

(** C6.  [closePipe] on a closed endpoint changes nothing and calls
    nothing.  On an open endpoint it cancels the outstanding operations,
    waits for each pending worker's operation to end, destroys both
    workers (closing their events) and closes the pipe handle, in this
    order; afterwards the endpoint is closed, and closing it again
    changes nothing and calls nothing. *)
Theorem closePipe_idempotent (p : NamedPipe) (tr tr2 : list SysCall) :
  (isClosed p = true -> closePipe p tr = (p, tr))
  /\ (isClosed p = false ->
      closePipe p tr =
      (torn_down p,
       tr ++ [CancelIo (m_handle p)]
          ++ drain_calls (m_handle p) (m_inputWorker p)
          ++ drain_calls (m_handle p) (m_outputWorker p)
          ++ IoWorker_delete (m_inputWorker p)
          ++ IoWorker_delete (m_outputWorker p)
          ++ [CloseHandle (m_handle p)]))
  /\ isClosed (fst (closePipe p tr)) = true
  /\ closePipe (fst (closePipe p tr)) tr2 = (fst (closePipe p tr), tr2).
Proof.
  split; [apply closePipe_closed | ].
  split; [apply closePipe_open | ].
  assert (Hc : isClosed (fst (closePipe p tr)) = true).
  { destruct (isClosed p) eqn:Hc.
    - rewrite (closePipe_closed p tr Hc). exact Hc.
    - rewrite (closePipe_open p tr Hc). reflexivity. }
  split; [exact Hc | apply closePipe_closed; exact Hc].
Qed.

(** ** What a worker's service leaves alone *)

Lemma memcpy_ret (dst src : bytes) (n : Z) (b : bytes) :
  memcpy dst src n = Ret b ->
  0 <= n <= Str.size src /\ n <= Str.size dst
  /\ b = firstn (Z.to_nat n) src ++ skipn (Z.to_nat n) dst
  /\ Str.size b = Str.size dst.
Proof.
  unfold memcpy.
  destruct ((0 <=? n) && (n <=? Str.size src) && (n <=? Str.size dst)) eqn:Hc;
    [ | discriminate].
  apply andb_true_iff in Hc as [Hc H3]. apply andb_true_iff in Hc as [H1 H2].
  apply Z.leb_le in H1, H2, H3. intros H. injection H as <-.
  repeat split; try assumption.
  rewrite size_app, size_firstn, size_skipn by lia. lia.
Qed.

Lemma deposit_size (data buffer : bytes) :
  Str.size (deposit data buffer) = Str.size buffer.
Proof.
  unfold deposit, Str.size. rewrite length_firstn, length_app, length_skipn. lia.
Qed.

Lemma transfer_frame (isRead : bool) (data : bytes) (w : IoWorker) :
  worker_frame w (transfer isRead data w)
  /\ m_pending (transfer isRead data w) = m_pending w
  /\ m_currentIoSize (transfer isRead data w) = m_currentIoSize w.
Proof.
  unfold worker_frame, transfer. destruct isRead; simpl; auto using deposit_size.
Qed.

Lemma pipe_frame_refl (k : WorkerKind) (p : NamedPipe) : pipe_frame k p p.
Proof. unfold pipe_frame. destruct k; auto. Qed.

Lemma pipe_frame_trans (k : WorkerKind) (p1 p2 p3 : NamedPipe) :
  pipe_frame k p1 p2 -> pipe_frame k p2 p3 -> pipe_frame k p1 p3.
Proof. unfold pipe_frame. destruct k; intuition congruence. Qed.

Lemma worker_frame_refl (w : IoWorker) : worker_frame w w.
Proof. unfold worker_frame. auto. Qed.

Lemma shouldIssueIo_frame (k : WorkerKind) (w w' : IoWorker) (p p' : NamedPipe)
    (next : option (Z * bool)) :
  shouldIssueIo k w p = Ret (next, w', p') ->
  pipe_frame k p p' /\ worker_frame w w'
  /\ m_pending w' = m_pending w /\ m_currentIoSize w' = m_currentIoSize w.
Proof.
  destruct k; simpl.
  - unfold InputWorker_shouldIssueIo. intros H.
    assert (w' = w /\ p' = p) as [-> ->].
    { destruct (isClosed p); [ | destruct (_ <? _)]; injection H; auto. }
    auto using pipe_frame_refl, worker_frame_refl.
  - unfold OutputWorker_shouldIssueIo.
    destruct (negb (Str.empty (m_outQueue p))).
    + destruct (memcpy _ _ _) as [b | | | ] eqn:Hm; simpl; try discriminate.
      intros H. injection H as _ <- <-.
      apply memcpy_ret in Hm as (_ & _ & _ & Hsz).
      unfold pipe_frame, worker_frame; simpl. auto 10.
    + intros H. injection H as _ <- <-.
      auto using pipe_frame_refl, worker_frame_refl.
Qed.

Lemma completeIo_frame (k : WorkerKind) (size : Z) (w : IoWorker)
    (p p' : NamedPipe) :
  completeIo k size w p = Ret p' -> pipe_frame k p p'.
Proof.
  destruct k; simpl.
  - unfold InputWorker_completeIo.
    destruct (Str.append _ _ _); simpl; try discriminate.
    intros H. injection H as <-. unfold pipe_frame; simpl; auto.
  - unfold OutputWorker_completeIo. intros H.
    apply ASSERT_ret in H as [_ H]. injection H as <-.
    apply pipe_frame_refl.
Qed.

(** One turn of the loop, for any script. *)
Lemma issueLoop_eq (k : WorkerKind) (script : list Reply) (progress : Z)
    (w : IoWorker) (p : NamedPipe) (tr : list SysCall) :
  issueLoop k script progress w p tr =
  ('(next, w, p) <- shouldIssueIo k w p ;;
   match next with
   | None => Ret (progress, w, p, script, tr)
   | Some (nextSize, isRead) =>
     let w := set_currentIoSize nextSize w in
     let call :=
       if isRead
       then ReadFile (m_handle p) (m_event w) nextSize
       else WriteFile (m_handle p) (m_event w)
                      (firstn (Z.to_nat nextSize) (m_buffer w)) in
     match script with
     | [] => Starved
     | NotYet :: script =>
       Ret (progress, set_pending true w, p, script, tr ++ [call])
     | Failed :: script =>
       Ret (-1, w, p, script, tr ++ [call])
     | Done actual data :: script =>
       let w := transfer isRead data w in
       p <- completeIo k (to_int actual) w p ;;
       issueLoop k script (to_int (progress + actual))
                 (set_currentIoSize (-1) w) p
                 (tr ++ [call; ResetEvent (m_event w)])
     end
   end).
Proof. destruct script; reflexivity. Qed.

Lemma issueLoop_frame (k : WorkerKind) (script : list Reply) :
  forall progress w p tr n w' p' script' tr',
  issueLoop k script progress w p tr = Ret (n, w', p', script', tr') ->
  pipe_frame k p p' /\ worker_frame w w'.
Proof.
  induction script as [ | r script IH]; intros progress w p tr n w' p' script' tr';
    rewrite issueLoop_eq;
    destruct (shouldIssueIo k w p) as [[[next w1] p1] | | | ] eqn:Hs;
    simpl; try discriminate;
    apply shouldIssueIo_frame in Hs as (Hp & Hw & _);
    (destruct next as [[nextSize isRead] | ];
     [ | intros H; injection H as _ <- <- _ _; auto]).
  - discriminate.
  - destruct r as [actual data | | ].
    + destruct (transfer_frame isRead data (set_currentIoSize nextSize w1))
        as (Ht & _ & _).
      destruct (completeIo k _ _ p1) as [p2 | | | ] eqn:Hc; simpl; try discriminate.
      apply completeIo_frame in Hc. intros H. apply IH in H as [Hp' Hw'].
      split; [eauto using pipe_frame_trans | ].
      unfold worker_frame in *; simpl in *. intuition congruence.
    + intros H. injection H as _ <- <- _ _. auto.
    + intros H. injection H as _ <- <- _ _. auto.
Qed.

Lemma IoWorker_service_frame (k : WorkerKind) (w : IoWorker) (p : NamedPipe)
    (script : list Reply) (tr : list SysCall) n w' p' script' tr' :
  IoWorker_service k w p script tr = Ret (n, w', p', script', tr') ->
  pipe_frame k p p' /\ worker_frame w w'.
Proof.
  unfold IoWorker_service. destruct (m_pending w).
  - destruct script as [ | [actual data | | ] script]; try discriminate.
    + destruct (transfer_frame (kind_isRead k) data w) as (Ht & _ & _).
      destruct (completeIo k _ _ p) as [p2 | | | ] eqn:Hc; simpl; try discriminate.
      apply completeIo_frame in Hc. intros H.
      apply issueLoop_frame in H as [Hp' Hw'].
      split; [eauto using pipe_frame_trans | ].
      unfold worker_frame in *; simpl in *. intuition congruence.
    + intros H. injection H as _ <- <- _ _.
      auto using pipe_frame_refl, worker_frame_refl.
    + intros H. injection H as _ <- <- _ _.
      auto using pipe_frame_refl, worker_frame_refl.
  - apply issueLoop_frame.
Qed.

(** ** The service tick, case by case *)

Lemma serviceWorker_ret (k : WorkerKind) (p : NamedPipe) (script : list Reply)
    (tr : list SysCall) n h p' script' tr' :
  serviceWorker k p script tr = Ret (n, h, p', script', tr') ->
  (worker_of k p = None /\ n = 0 /\ h = NULL /\ p' = p
   /\ script' = script /\ tr' = tr)
  \/ (exists w w' p1,
        worker_of k p = Some w
        /\ IoWorker_service k w p script tr = Ret (n, w', p1, script', tr')
        /\ h = getWaitEvent w'
        /\ p' = set_worker k (Some w') p1).
Proof.
  unfold serviceWorker. destruct (worker_of k p) as [w | ].
  - destruct (IoWorker_service k w p script tr)
      as [[[[[n0 w'] p1] s1] t1] | | | ] eqn:Hs; simpl; try discriminate.
    intros H. injection H as <- <- <- <- <-.
    right. exists w, w', p1. auto.
  - intros H. injection H as <- <- <- <- <-. left. auto 10.
Qed.

Lemma serviceIo_closed (waitHandles : list HANDLE) (p : NamedPipe)
    (script : list Reply) (tr : list SysCall) :
  isClosed p = true ->
  serviceIo waitHandles p script tr = Ret (false, waitHandles, p, script, tr).
Proof. unfold isClosed, serviceIo. intros ->. reflexivity. Qed.

Lemma serviceIo_open (waitHandles : list HANDLE) (p : NamedPipe)
    (script : list Reply) (tr : list SysCall) b waitHandles' p' script' tr' :
  isClosed p = false ->
  serviceIo waitHandles p script tr = Ret (b, waitHandles', p', script', tr') ->
  exists readBytes readHandle p1 script1 tr1 writeBytes writeHandle p2 tr2,
    serviceWorker InputWorker p script tr
      = Ret (readBytes, readHandle, p1, script1, tr1)
    /\ serviceWorker OutputWorker p1 script1 tr1
      = Ret (writeBytes, writeHandle, p2, script', tr2)
    /\ (((readBytes = -1 \/ writeBytes = -1)
         /\ b = true /\ waitHandles' = waitHandles
         /\ (p', tr') = closePipe p2 tr2)
        \/ (readBytes <> -1 /\ writeBytes <> -1
            /\ b = (0 <? readBytes) || (0 <? writeBytes)
            /\ waitHandles' = waitHandles ++ nonnull [readHandle; writeHandle]
            /\ p' = p2 /\ tr' = tr2)).
Proof.
  unfold isClosed, serviceIo. intros ->.
  destruct (serviceWorker InputWorker p script tr)
    as [[[[[rb rh] p1] s1] t1] | | | ] eqn:Hi; simpl; try discriminate.
  destruct (serviceWorker OutputWorker p1 s1 t1)
    as [[[[[wb wh] p2] s2] t2] | | | ] eqn:Ho; simpl; try discriminate.
  destruct ((rb =? -1) || (wb =? -1)) eqn:Hfail.
  - destruct (closePipe p2 t2) as [p3 t3] eqn:Hc.
    intros H. injection H as <- <- <- <- <-.
    exists rb, rh, p1, s1, t1, wb, wh, p2, t2.
    split; [reflexivity | split; [exact Ho | left]].
    apply orb_true_iff in Hfail. rewrite !Z.eqb_eq in Hfail. auto.
  - intros H. injection H as <- <- <- <- <-.
    exists rb, rh, p1, s1, t1, wb, wh, p2, t2.
    split; [reflexivity | split; [exact Ho | right]].
    apply orb_false_iff in Hfail. rewrite !Z.eqb_neq in Hfail.
    destruct Hfail as [Hr Hw].
    repeat split; try assumption.
    unfold nonnull, push_back; simpl.
    destruct (negb (rh =? NULL)), (negb (wh =? NULL)); simpl;
      rewrite <- ?app_assoc, ?app_nil_r; reflexivity.
Qed.

(** ** Workers stay well formed *)

Lemma workers_wf_same (p p' : NamedPipe) :
  m_inputWorker p' = m_inputWorker p -> m_outputWorker p' = m_outputWorker p ->
  workers_wf p -> workers_wf p'.
Proof.
  unfold workers_wf. intros Hi Ho H k w Hk.
  apply (H k). destruct k; simpl in *; congruence.
Qed.

Lemma worker_wf_frame (w w' : IoWorker) :
  worker_frame w w' -> worker_wf w -> worker_wf w'.
Proof. unfold worker_frame, worker_wf. intuition congruence. Qed.

Lemma serviceWorker_wf (k : WorkerKind) (p : NamedPipe) (script : list Reply)
    (tr : list SysCall) n h p' script' tr' :
  serviceWorker k p script tr = Ret (n, h, p', script', tr') ->
  workers_wf p -> workers_wf p' /\ m_handle p' = m_handle p.
Proof.
  intros H Hwf. apply serviceWorker_ret in H
    as [(_ & _ & _ & -> & _) | (w & w' & p1 & Hk & Hs & _ & ->)]; [auto | ].
  apply IoWorker_service_frame in Hs as [(Hh & Hi & Ho & _) Hw].
  split; [ | destruct k; exact Hh].
  intros k' w0 H0.
  destruct k, k'; simpl in *.
  - injection H0 as <-. eapply worker_wf_frame; [exact Hw | apply (Hwf InputWorker); exact Hk].
  - apply (Hwf OutputWorker). simpl. congruence.
  - apply (Hwf InputWorker). simpl. congruence.
  - injection H0 as <-. eapply worker_wf_frame; [exact Hw | apply (Hwf OutputWorker); exact Hk].
Qed.

Lemma closePipe_wf (p : NamedPipe) (tr : list SysCall) :
  workers_wf p -> workers_wf (fst (closePipe p tr)).
Proof.
  intros Hwf. destruct (isClosed p) eqn:Hc.
  - rewrite closePipe_closed by exact Hc. exact Hwf.
  - rewrite closePipe_open by exact Hc. intros k w H. destruct k; discriminate.
Qed.

Lemma serviceIo_wf (waitHandles : list HANDLE) (p : NamedPipe)
    (script : list Reply) (tr : list SysCall) b waitHandles' p' script' tr' :
  serviceIo waitHandles p script tr = Ret (b, waitHandles', p', script', tr') ->
  workers_wf p -> workers_wf p'.
Proof.
  intros H Hwf. destruct (isClosed p) eqn:Hc.
  - rewrite serviceIo_closed in H by exact Hc. injection H as _ _ <- _ _. exact Hwf.
  - apply serviceIo_open in H
      as (rb & rh & p1 & s1 & t1 & wb & wh & p2 & t2 & Hi & Ho & Hcase);
      [ | exact Hc].
    apply serviceWorker_wf in Hi as [Hwf1 _]; [ | exact Hwf].
    apply serviceWorker_wf in Ho as [Hwf2 _]; [ | exact Hwf1].
    destruct Hcase as [(_ & _ & _ & Hcl) | (_ & _ & _ & _ & -> & _)];
      [ | exact Hwf2].
    replace p' with (fst (closePipe p2 t2)) by (rewrite <- Hcl; reflexivity).
    apply closePipe_wf. exact Hwf2.
Qed.

Lemma perform_wf (o : Op) (p p' : NamedPipe) :
  perform o p = Ret p' -> workers_wf p -> workers_wf p'.
Proof.
  destruct o; simpl; intros H Hwf.
  - injection H as <-. eapply workers_wf_same; [ | | exact Hwf]; reflexivity.
  - unfold connectToServer in H.
    destruct (isClosed p); simpl in H; [ | discriminate].
    destruct (handle =? INVALID_HANDLE_VALUE).
    + injection H as <-. exact Hwf.
    + destruct (IoWorker_new evIn) as [wi | | | ] eqn:Hi; try discriminate.
      destruct (IoWorker_new evOut) as [wo | | | ] eqn:Ho; try discriminate.
      injection H as <-.
      apply IoWorker_new_wf in Hi as (Hi & _). apply IoWorker_new_wf in Ho as (Ho & _).
      intros k w H. destruct k; simpl in H; injection H as <-; assumption.
  - unfold adoptHandle in H.
    destruct (isClosed p); simpl in H; [ | discriminate].
    destruct (IoWorker_new ev) as [w0 | | | ] eqn:Hn;
      [ | destruct write0; discriminate ..].
    apply IoWorker_new_wf in Hn as (Hn & _).
    destruct write0; injection H as <-; intros k w H; destruct k; simpl in H;
      try (injection H as <-; assumption);
      [apply (Hwf InputWorker) | apply (Hwf OutputWorker)]; exact H.
  - injection H as <-. eapply workers_wf_same; [ | | exact Hwf]; reflexivity.
  - destruct (peek data size p) as [[[r d] p0] | | | ] eqn:Hp; try discriminate.
    simpl in H. injection H as <-. unfold peek in Hp.
    destruct (memcpy _ _ _); simpl in Hp; try discriminate.
    injection Hp as _ _ <-. exact Hwf.
  - injection H as <-. eapply workers_wf_same; [ | | exact Hwf]; reflexivity.
  - injection H as <-. unfold readAsVector.
    destruct (0 <? _); [ | exact Hwf].
    eapply workers_wf_same; [ | | exact Hwf]; reflexivity.
  - injection H as <-. eapply workers_wf_same; [ | | exact Hwf]; reflexivity.
  - destruct (serviceIo waitHandles p script tr)
      as [[[[[b whs] p0] s0] t0] | | | ] eqn:Hs; try discriminate.
    simpl in H. injection H as <-. eapply serviceIo_wf; eassumption.
  - injection H as <-. apply closePipe_wf. exact Hwf.
Qed.

Lemma Run_wf (allowed : Op -> Prop) (p p' : NamedPipe) :
  Run allowed p p' -> workers_wf p -> workers_wf p'.
Proof.
  induction 1 as [ | o p' p'' Hrun IH Hallowed Hperf]; intros Hwf; [exact Hwf | ].
  eapply perform_wf; [exact Hperf | apply IH; exact Hwf].
Qed.

Lemma NamedPipe_new_wf : workers_wf NamedPipe_new.
Proof. intros k w H. destruct k; discriminate. Qed.

(** ** Wait handles *)

(** C9.  In every state an endpoint can reach from its construction, by
    any calls whatever, a worker's [getWaitEvent()] is not [NULL] if and
    only if the worker has an operation pending; an idle worker returns
    [NULL]. *)
Theorem getWaitEvent_iff_pending (p : NamedPipe) (k : WorkerKind) (w : IoWorker) :
  Run any_op NamedPipe_new p -> worker_of k p = Some w ->
  (getWaitEvent w <> NULL <-> m_pending w = true)
  /\ (m_pending w = false -> getWaitEvent w = NULL).
Proof.
  intros Hrun Hk.
  apply Run_wf in Hrun; [ | apply NamedPipe_new_wf].
  destruct (Hrun k w Hk) as [Hev _].
  unfold getWaitEvent. destruct (m_pending w).
  - split; [tauto | discriminate].
  - split; [ | reflexivity]. split; [congruence | discriminate].
Qed.

(** ** The Writer's policy *)

Lemma OutputWorker_shouldIssueIo_eq (w : IoWorker) (p : NamedPipe) :
  Str.size (m_outQueue p) <= INT_MAX -> Str.size (m_buffer w) = kIoSize ->
  let n := Z.min (Str.size (m_outQueue p)) kIoSize in
  OutputWorker_shouldIssueIo w p =
  if Str.empty (m_outQueue p) then Ret (None, w, p)
  else Ret (Some (n, false),
            set_buffer (firstn (Z.to_nat n) (m_outQueue p)
                          ++ skipn (Z.to_nat n) (m_buffer w)) w,
            set_outQueue (skipn (Z.to_nat n) (m_outQueue p)) p).
Proof.
  intros Hq Hb n. unfold OutputWorker_shouldIssueIo.
  pose proof (size_nonneg (m_outQueue p)) as H0.
  pose proof kIoSize_pos as Hk1. pose proof kIoSize_int as Hk2.
  destruct (Str.empty (m_outQueue p)); simpl; [reflexivity | ].
  rewrite !to_int_id by (unfold in_int, INT_MIN, INT_MAX in *; lia).
  fold n. assert (Hn : 0 <= n <= Str.size (m_outQueue p) /\ n <= kIoSize)
    by (unfold n; lia).
  rewrite to_size_t_id by lia.
  unfold memcpy, Str.erase0.
  replace ((0 <=? n) && (n <=? Str.size (m_outQueue p)) && (n <=? Str.size (m_buffer w)))
    with true by (symmetry; rewrite !andb_true_iff, Hb; lia).
  rewrite (Z.min_l n) by lia. reflexivity.
Qed.

(** C5.  The Writer's policy grants a send exactly when the output queue
    is not empty.  The send is of [n = min(queue length, kIoSize)] bytes:
    the first [n] bytes of the queue are copied to the start of the
    worker's buffer and removed from the queue, so the queue shrinks by
    the issued size.  This happens when the operation is issued: when
    the transport answers that the send is pending, [service()] returns
    with the operation outstanding, those bytes handed to [WriteFile]
    and already gone from the queue. *)
Theorem OutputWorker_issues_front_chunk (w : IoWorker) (p : NamedPipe)
    (script : list Reply) (progress : Z) (tr : list SysCall) :
  Str.size (m_outQueue p) <= INT_MAX -> Str.size (m_buffer w) = kIoSize ->
  let n := Z.min (Str.size (m_outQueue p)) kIoSize in
  let chunk := firstn (Z.to_nat n) (m_outQueue p) in
  let w' := set_buffer (chunk ++ skipn (Z.to_nat n) (m_buffer w)) w in
  let p' := set_outQueue (skipn (Z.to_nat n) (m_outQueue p)) p in
  (m_outQueue p = [] -> OutputWorker_shouldIssueIo w p = Ret (None, w, p))
  /\ (m_outQueue p <> [] ->
      OutputWorker_shouldIssueIo w p = Ret (Some (n, false), w', p')
      /\ 0 < n)
  /\ Str.size chunk = n
  /\ firstn (Z.to_nat n) (m_buffer w') = chunk
  /\ m_outQueue p = chunk ++ m_outQueue p'
  /\ Str.size (m_outQueue p') = Str.size (m_outQueue p) - n
  /\ (m_outQueue p <> [] ->
      issueLoop OutputWorker (NotYet :: script) progress w p tr =
      Ret (progress, set_pending true (set_currentIoSize n w'), p', script,
           tr ++ [WriteFile (m_handle p) (m_event w) chunk])).
Proof.
  intros Hq Hb n chunk w' p'.
  pose proof (OutputWorker_shouldIssueIo_eq w p Hq Hb) as Heq.
  cbv zeta in Heq. fold n in Heq. fold chunk in Heq. fold w' in Heq. fold p' in Heq.
  pose proof (size_nonneg (m_outQueue p)) as H0.
  pose proof kIoSize_pos as Hk1.
  assert (Hn : 0 <= n <= Str.size (m_outQueue p)) by (unfold n; lia).
  assert (Hchunk : Str.size chunk = n) by (apply size_firstn; exact Hn).
  assert (Hfront : firstn (Z.to_nat n) (m_buffer w') = chunk).
  { unfold w'; simpl.
    rewrite firstn_app, firstn_all2
      by (fold (Str.size chunk) in *; unfold Str.size in Hchunk; lia).
    replace (Z.to_nat n - length chunk)%nat with 0%nat
      by (unfold Str.size in Hchunk; lia).
    simpl. apply app_nil_r. }
  split; [intros Hnil; rewrite Heq, Hnil; reflexivity | ].
  split.
  { intros Hne. destruct (m_outQueue p) as [ | b q] eqn:Hqe; [congruence | ].
    split; [exact Heq | ].
    unfold n, Str.size; simpl length. lia. }
  split; [exact Hchunk | ].
  split; [exact Hfront | ].
  split; [symmetry; apply firstn_skipn | ].
  split; [apply size_skipn; exact Hn | ].
  intros Hne. simpl issueLoop.
  rewrite Heq. destruct (m_outQueue p) as [ | b q] eqn:Hqe; [congruence | ].
  simpl. unfold w' in Hfront. simpl in Hfront. rewrite Hfront. reflexivity.
Qed.

(** ** The code against the design's state machine *)

Lemma set_buffer_same (w : IoWorker) : set_buffer (m_buffer w) w = w.
Proof. destruct w; reflexivity. Qed.

Lemma shouldIssueIo_refines (k : WorkerKind) (progress : Z) (w : IoWorker)
    (p : NamedPipe) :
  loop_range k progress w p ->
  shouldIssueIo k w p =
  match policy_shouldIssue k (m_buffer w) p with
  | None => Ret (None, w, p)
  | Some (size, isRead, buf1, ep1) => Ret (Some (size, isRead), set_buffer buf1 w, ep1)
  end.
Proof.
  intros (_ & Hb & Hk). destruct k; simpl.
  - destruct Hk as (_ & Hprog & Hq).
    unfold InputWorker_shouldIssueIo, readBufferSize.
    rewrite to_int_id by (unfold in_int, INT_MIN; lia).
    destruct (isClosed p); simpl; [reflexivity | ].
    destruct (_ <? _); [rewrite set_buffer_same | ]; reflexivity.
  - pose proof (size_nonneg (m_outQueue p)) as H0.
    rewrite OutputWorker_shouldIssueIo_eq by (assumption || lia).
    destruct (m_outQueue p); reflexivity.
Qed.

Lemma completeIo_refines (k : WorkerKind) (actual : Z) (w : IoWorker)
    (p : NamedPipe) :
  0 <= actual <= kIoSize -> Str.size (m_buffer w) = kIoSize ->
  completeIo k (to_int actual) w p =
  policy_onComplete k (m_currentIoSize w) actual (m_buffer w) p.
Proof.
  intros Ha Hb. pose proof kIoSize_int as Hk.
  rewrite to_int_id by (unfold in_int, INT_MIN; lia).
  destruct k; simpl.
  - unfold InputWorker_completeIo, Str.append.
    rewrite to_size_t_id by lia.
    replace ((0 <=? actual) && (actual <=? Str.size (m_buffer w)))
      with true by (symmetry; rewrite andb_true_iff, Hb; lia).
    reflexivity.
  - unfold OutputWorker_completeIo.
    destruct (actual =? m_currentIoSize w); reflexivity.
Qed.

Lemma policy_shouldIssue_sound (k : WorkerKind) (buf : bytes) (ep : NamedPipe)
    size isRead buf1 ep1 :
  policy_shouldIssue k buf ep = Some (size, isRead, buf1, ep1) ->
  Str.size buf = kIoSize ->
  isRead = kind_isRead k
  /\ Str.size buf1 = kIoSize
  /\ 0 < size <= kIoSize
  /\ pipe_frame k ep ep1
  /\ match k with
     | InputWorker =>
       ep1 = ep /\ buf1 = buf /\ size = kIoSize /\ isClosed ep = false
       /\ Str.size (m_inQueue ep) < m_readBufferSize ep
     | OutputWorker =>
       size = Z.min (Str.size (m_outQueue ep)) kIoSize
       /\ m_outQueue ep = firstn (Z.to_nat size) buf1 ++ m_outQueue ep1
       /\ Str.size (m_outQueue ep1) = Str.size (m_outQueue ep) - size
     end.
Proof.
  pose proof kIoSize_pos as Hk. intros H Hb. destruct k; simpl in H.
  - destruct (negb (isClosed ep) && _) eqn:Hc; [ | discriminate].
    injection H as <- <- <- <-.
    apply andb_true_iff in Hc as [Hc Hlt].
    apply negb_true_iff in Hc. apply Z.ltb_lt in Hlt.
    repeat split; auto; try lia; apply pipe_frame_refl.
  - destruct (m_outQueue ep) as [ | b q] eqn:Hq; [discriminate | ].
    rewrite <- Hq in H. injection H as <- <- <- <-.
    pose proof (size_nonneg (m_outQueue ep)) as H0.
    assert (Hpos : 0 < Str.size (m_outQueue ep))
      by (rewrite Hq; unfold Str.size; simpl length; lia).
    set (n := Z.min (Str.size (m_outQueue ep)) kIoSize) in *.
    assert (Hn : 0 < n <= Str.size (m_outQueue ep) /\ n <= kIoSize) by (unfold n; lia).
    rewrite <- Hq.
    split; [reflexivity | ].
    split; [rewrite size_app, size_firstn, size_skipn by lia; lia | ].
    split; [lia | ].
    split; [unfold pipe_frame; simpl; auto | ].
    split; [reflexivity | ].
    simpl m_outQueue. split; [ | apply size_skipn; lia].
    rewrite firstn_app, firstn_all2 by (rewrite length_firstn; lia).
    rewrite length_firstn.
    replace (Z.to_nat n - Nat.min (Z.to_nat n) (length (m_outQueue ep)))%nat
      with 0%nat by (unfold Str.size in Hn; lia).
    simpl. rewrite app_nil_r. symmetry. apply firstn_skipn.
Qed.

Lemma completed_buffer_size (isRead : bool) (data buf : bytes) :
  Str.size (completed_buffer isRead data buf) = Str.size buf.
Proof. destruct isRead; simpl; [apply deposit_size | reflexivity]. Qed.

Lemma policy_onComplete_sound (k : WorkerKind) (issued actual : Z)
    (buf : bytes) (ep ep' : NamedPipe) :
  policy_onComplete k issued actual buf ep = Ret ep' ->
  0 <= actual <= Str.size buf ->
  pipe_frame k ep ep'
  /\ match k with
     | InputWorker =>
       m_inQueue ep' = m_inQueue ep ++ firstn (Z.to_nat actual) buf
       /\ Str.size (m_inQueue ep') = Str.size (m_inQueue ep) + actual
     | OutputWorker => ep' = ep /\ actual = issued
     end.
Proof.
  destruct k; simpl; intros H Ha.
  - injection H as <-. simpl.
    split; [unfold pipe_frame; simpl; auto | ].
    split; [reflexivity | ].
    rewrite size_app, size_firstn by lia. reflexivity.
  - destruct (actual =? issued) eqn:He; [ | discriminate].
    injection H as <-. apply Z.eqb_eq in He.
    split; [apply pipe_frame_refl | auto].
Qed.

Lemma issueLoop_refines (k : WorkerKind) (script : list Reply) :
  forall progress w p tr n w' p' script' tr',
  Forall reply_ok script ->
  loop_range k progress w p ->
  issueLoop k script progress w p tr = Ret (n, w', p', script', tr') ->
  IdleSteps k progress (m_buffer w) p script n (machine_after n w' p') script'.
Proof.
  pose proof kIoSize_pos as Hk1. pose proof kIoSize_int as Hk2.
  induction script as [ | r script IH];
    intros progress w p tr n w' p' script' tr' Hok Hrange;
    rewrite issueLoop_eq, (shouldIssueIo_refines k progress w p Hrange);
    pose proof Hrange as (Hidle & Hb & Hkind);
    assert (Hprog : 0 <= progress) by (destruct k; lia);
    (destruct (policy_shouldIssue k (m_buffer w) p)
      as [[[[size isRead] buf1] ep1] | ] eqn:Hpol; simpl;
     [ | intros H; injection H as <- <- <- <- <-;
         unfold machine_after, machine_of;
         replace (progress =? -1) with false by (symmetry; apply Z.eqb_neq; lia);
         rewrite Hidle; apply idle_nothing; exact Hpol]).
  - discriminate.
  - apply policy_shouldIssue_sound in Hpol as Hsound; [ | exact Hb].
    destruct Hsound as (HisRead & Hb1 & Hsize & Hframe & Hkind1).
    inversion Hok as [ | r0 s0 Hr Hok']; subst r0 s0.
    destruct r as [actual data | | ].
    + simpl in Hr.
      rewrite completeIo_refines
        by (try exact Hr; destruct isRead; simpl; rewrite ?deposit_size; exact Hb1).
      replace (m_currentIoSize (transfer isRead data (set_currentIoSize size (set_buffer buf1 w))))
        with size by (destruct isRead; reflexivity).
      replace (m_buffer (transfer isRead data (set_currentIoSize size (set_buffer buf1 w))))
        with (completed_buffer isRead data buf1) by (destruct isRead; reflexivity).
      destruct (policy_onComplete k size actual (completed_buffer isRead data buf1) ep1)
        as [ep2 | | | ] eqn:Hcomp; simpl; try discriminate.
      apply policy_onComplete_sound in Hcomp as Hsound;
        [ | rewrite completed_buffer_size, Hb1; exact Hr].
      destruct Hsound as (Hframe2 & Hkind2).
      assert (Hsum : to_int (progress + actual) = progress + actual).
      { apply to_int_id. unfold in_int, INT_MIN.
        destruct k; [ | pose proof (size_nonneg (m_outQueue p))]; lia. }
      rewrite Hsum. intros H.
      apply IH in H; [ | exact Hok' | ].
      * eapply idle_synchronous; [exact Hpol | exact Hcomp | ].
        replace (m_buffer (set_currentIoSize (-1)
                   (transfer isRead data (set_currentIoSize size (set_buffer buf1 w)))))
          with (completed_buffer isRead data buf1) in H
          by (destruct isRead; reflexivity).
        exact H.
      * unfold loop_range.
        split; [destruct isRead; simpl; exact Hidle | ].
        split; [destruct isRead; simpl; rewrite ?deposit_size; exact Hb1 | ].
        destruct k.
        -- destruct Hkind1 as (-> & _ & _ & _ & Hlt).
           destruct Hkind2 as (_ & Hgrow).
           destruct Hframe2 as (_ & _ & _ & HL & _). rewrite HL, Hgrow. lia.
        -- destruct Hkind1 as (Hn & _ & Hshrink).
           destruct Hkind2 as (-> & ->). lia.
    + intros H. injection H as <- <- <- <- <-.
      unfold machine_after, machine_of; simpl.
      replace (progress =? -1) with false by (symmetry; apply Z.eqb_neq; lia).
      eapply idle_pending. exact Hpol.
    + intros H. injection H as <- <- <- <- <-.
      unfold machine_after; simpl.
      eapply idle_error. exact Hpol.
Qed.

Lemma IoWorker_service_refines (k : WorkerKind) (w : IoWorker) (p : NamedPipe)
    (script : list Reply) (tr : list SysCall) n w' p' script' tr' :
  Forall reply_ok script ->
  in_range k w p ->
  IoWorker_service k w p script tr = Ret (n, w', p', script', tr') ->
  Advance k (machine_of w p) script n (machine_after n w' p') script'.
Proof.
  pose proof kIoSize_pos as Hk1. pose proof kIoSize_int as Hk2.
  intros Hok (Hb & Hkind). unfold IoWorker_service, machine_of.
  destruct (m_pending w) eqn:Hpend.
  - destruct script as [ | [actual data | | ] script]; try discriminate.
    + inversion Hok as [ | r0 s0 Hr Hok']; subst r0 s0. simpl in Hr.
      rewrite completeIo_refines
        by (try exact Hr; destruct k; simpl; rewrite ?deposit_size; exact Hb).
      replace (m_currentIoSize (set_pending false (transfer (kind_isRead k) data w)))
        with (m_currentIoSize w) by (destruct k; reflexivity).
      replace (m_buffer (set_pending false (transfer (kind_isRead k) data w)))
        with (completed_buffer (kind_isRead k) data (m_buffer w))
        by (destruct k; reflexivity).
      destruct (policy_onComplete k _ _ _ p) as [ep1 | | | ] eqn:Hcomp;
        simpl; try discriminate.
      apply policy_onComplete_sound in Hcomp as Hsound;
        [ | rewrite completed_buffer_size, Hb; exact Hr].
      destruct Hsound as (Hframe & Hkind2).
      rewrite to_int_id by (unfold in_int, INT_MIN; lia).
      intros H. apply issueLoop_refines in H; [ | exact Hok' | ].
      * eapply advance_complete; [exact Hcomp | ].
        replace (m_buffer (set_currentIoSize (-1)
                   (set_pending false (transfer (kind_isRead k) data w))))
          with (completed_buffer (kind_isRead k) data (m_buffer w)) in H
          by (destruct k; reflexivity).
        exact H.
      * unfold loop_range.
        split; [reflexivity | ].
        split; [destruct k; simpl; rewrite ?deposit_size; exact Hb | ].
        destruct k.
        -- destruct Hkind as (HL & Hq & Hroom). destruct Hkind2 as (_ & Hgrow).
           destruct Hframe as (_ & _ & _ & HL' & _).
           pose proof (size_nonneg (m_inQueue p)).
           rewrite HL', Hgrow. specialize (Hroom eq_refl). lia.
        -- destruct Hkind2 as (-> & _). lia.
    + intros H. injection H as <- <- <- <- <-.
      unfold machine_after, machine_of. simpl. rewrite Hpend.
      apply advance_incomplete.
    + intros H. injection H as <- <- <- <- <-.
      unfold machine_after. simpl. apply advance_error.
  - intros H. apply issueLoop_refines in H; [ | exact Hok | ].
    + apply advance_idle. exact H.
    + unfold loop_range.
      split; [exact Hpend | split; [exact Hb | ]].
      destruct k.
      * pose proof (size_nonneg (m_inQueue p)). lia.
      * pose proof (size_nonneg (m_outQueue p)). lia.
Qed.

Lemma issueLoop_complete (k : WorkerKind) acc buf ep script n m script' :
  IdleSteps k acc buf ep script n m script' ->
  forall w tr,
  m_buffer w = buf ->
  Forall reply_ok script ->
  loop_range k acc w ep ->
  exists w' tr',
    issueLoop k script acc w ep tr = Ret (n, w', endpoint m, script', tr')
    /\ machine_after n w' (endpoint m) = m.
Proof.
  pose proof kIoSize_pos as Hk1. pose proof kIoSize_int as Hk2.
  induction 1 as [acc buf ep script Hpol
                 | acc buf ep actual data script size isRead buf1 ep1 ep2 n m script'
                     Hpol Hcomp Hrest IH
                 | acc buf ep script size isRead buf1 ep1 Hpol
                 | acc buf ep script size isRead buf1 ep1 Hpol];
    intros w tr Hbuf Hok Hrange;
    pose proof Hrange as (Hidle & Hb & Hkind);
    assert (Hacc : 0 <= acc) by (destruct k; lia);
    rewrite issueLoop_eq, (shouldIssueIo_refines k acc w ep Hrange), Hbuf, Hpol;
    simpl.
  - exists w, tr. split; [reflexivity | ].
    unfold machine_after, machine_of.
    replace (acc =? -1) with false by (symmetry; apply Z.eqb_neq; lia).
    rewrite Hidle, Hbuf. reflexivity.
  - rewrite Hbuf in Hb.
    apply policy_shouldIssue_sound in Hpol as Hsound; [ | exact Hb].
    destruct Hsound as (HisRead & Hb1 & Hsize & Hframe & Hkind1).
    inversion Hok as [ | r0 s0 Hr Hok']; subst r0 s0. simpl in Hr.
    rewrite completeIo_refines
      by (try exact Hr; destruct isRead; simpl; rewrite ?deposit_size; exact Hb1).
    replace (m_currentIoSize (transfer isRead data (set_currentIoSize size (set_buffer buf1 w))))
      with size by (destruct isRead; reflexivity).
    replace (m_buffer (transfer isRead data (set_currentIoSize size (set_buffer buf1 w))))
      with (completed_buffer isRead data buf1) by (destruct isRead; reflexivity).
    rewrite Hcomp. simpl.
    apply policy_onComplete_sound in Hcomp as Hsound;
      [ | rewrite completed_buffer_size, Hb1; exact Hr].
    destruct Hsound as (Hframe2 & Hkind2).
    assert (Hsum : to_int (acc + actual) = acc + actual).
    { apply to_int_id. unfold in_int, INT_MIN.
      destruct k; [ | pose proof (size_nonneg (m_outQueue ep))]; lia. }
    rewrite Hsum. apply IH; [destruct isRead; reflexivity | exact Hok' | ].
    unfold loop_range.
    split; [destruct isRead; simpl; exact Hidle | ].
    split; [destruct isRead; simpl; rewrite ?deposit_size; exact Hb1 | ].
    destruct k.
    + destruct Hkind1 as (-> & _ & _ & _ & Hlt).
      destruct Hkind2 as (_ & Hgrow).
      destruct Hframe2 as (_ & _ & _ & HL & _). rewrite HL, Hgrow. lia.
    + destruct Hkind1 as (Hn & _ & Hshrink).
      destruct Hkind2 as (-> & ->). lia.
  - eexists _, _. split; [reflexivity | ].
    unfold machine_after, machine_of; simpl.
    replace (acc =? -1) with false by (symmetry; apply Z.eqb_neq; lia).
    reflexivity.
  - eexists _, _. split; [reflexivity | ].
    unfold machine_after; simpl. reflexivity.
Qed.

Lemma IoWorker_service_complete (k : WorkerKind) (w : IoWorker) (p : NamedPipe)
    (script : list Reply) (tr : list SysCall) n m script' :
  Forall reply_ok script ->
  in_range k w p ->
  Advance k (machine_of w p) script n m script' ->
  exists w' tr',
    IoWorker_service k w p script tr = Ret (n, w', endpoint m, script', tr')
    /\ machine_after n w' (endpoint m) = m.
Proof.
  pose proof kIoSize_pos as Hk1. pose proof kIoSize_int as Hk2.
  intros Hok (Hb & Hkind) Hadv. unfold IoWorker_service.
  unfold machine_of in Hadv. destruct (m_pending w) eqn:Hpend.
  - inversion Hadv as [size buf ep s | size buf ep s
                      | size buf ep actual data s ep1 n0 m0 s' Hcomp Hrest | ];
      subst.
    + exists w, (tr ++ [GetOverlappedResult (m_handle p) (m_event w) false]).
      split; [reflexivity | ].
      unfold machine_after, machine_of. simpl. rewrite Hpend. reflexivity.
    + exists w, (tr ++ [GetOverlappedResult (m_handle p) (m_event w) false]).
      split; reflexivity.
    + inversion Hok as [ | r0 s0 Hr Hok']; subst r0 s0. simpl in Hr.
      rewrite completeIo_refines
        by (try exact Hr; destruct k; simpl; rewrite ?deposit_size; exact Hb).
      replace (m_currentIoSize (set_pending false (transfer (kind_isRead k) data w)))
        with (m_currentIoSize w) by (destruct k; reflexivity).
      replace (m_buffer (set_pending false (transfer (kind_isRead k) data w)))
        with (completed_buffer (kind_isRead k) data (m_buffer w))
        by (destruct k; reflexivity).
      rewrite Hcomp. simpl.
      apply policy_onComplete_sound in Hcomp as Hsound;
        [ | rewrite completed_buffer_size, Hb; exact Hr].
      destruct Hsound as (Hframe & Hkind2).
      rewrite to_int_id by (unfold in_int, INT_MIN; lia).
      eapply issueLoop_complete; [exact Hrest | | exact Hok' | ].
      * destruct k; reflexivity.
      * unfold loop_range.
        split; [reflexivity | ].
        split; [destruct k; simpl; rewrite ?deposit_size; exact Hb | ].
        destruct k.
        -- destruct Hkind as (HL & Hq & Hroom). destruct Hkind2 as (_ & Hgrow).
           destruct Hframe as (_ & _ & _ & HL' & _).
           pose proof (size_nonneg (m_inQueue p)).
           rewrite HL', Hgrow. specialize (Hroom eq_refl). lia.
        -- destruct Hkind2 as (-> & _). lia.
  - inversion Hadv as [ | | | buf ep s n0 m0 s' Hrest]; subst.
    eapply issueLoop_complete; [exact Hrest | reflexivity | exact Hok | ].
    unfold loop_range.
    split; [exact Hpend | split; [exact Hb | ]].
    destruct k.
    + pose proof (size_nonneg (m_inQueue p)). lia.
    + pose proof (size_nonneg (m_outQueue p)). lia.
Qed.

(** ** Properties of the design's state machine *)

Lemma IdleSteps_common (k : WorkerKind) acc buf ep script n m script' :
  IdleSteps k acc buf ep script n m script' ->
  Forall reply_ok script -> Str.size buf = kIoSize -> 0 <= acc ->
  Forall reply_ok script'
  /\ pipe_frame k ep (endpoint m)
  /\ Str.size (buffer m) = kIoSize
  /\ (n = -1 <-> phase m = FailedPhase)
  /\ (n <> -1 -> acc <= n)
  /\ (phase m = Pending -> 0 < outstanding m <= kIoSize)
  /\ (phase m <> Pending -> outstanding m = 0)
  /\ (phase m = Idle -> policy_shouldIssue k (buffer m) (endpoint m) = None).
Proof.
  induction 1 as [acc buf ep script Hpol
                 | acc buf ep actual data script size isRead buf1 ep1 ep2 n m script'
                     Hpol Hcomp Hrest IH
                 | acc buf ep script size isRead buf1 ep1 Hpol
                 | acc buf ep script size isRead buf1 ep1 Hpol];
    intros Hok Hb Hacc; simpl.
  - repeat split; intros; try assumption; try apply pipe_frame_refl;
      try congruence; try lia; try (exfalso; lia).
  - apply policy_shouldIssue_sound in Hpol as (_ & Hb1 & _ & Hframe & _); [ | exact Hb].
    inversion Hok as [ | r0 s0 Hr Hok']; subst r0 s0. simpl in Hr.
    apply policy_onComplete_sound in Hcomp as (Hframe2 & _);
      [ | rewrite completed_buffer_size, Hb1; exact Hr].
    destruct IH as (H1 & H2 & H3 & H4 & H5 & H6);
      [exact Hok' | rewrite completed_buffer_size; exact Hb1 | lia | ].
    split; [exact H1 | ].
    split; [eauto using pipe_frame_trans | ].
    split; [exact H3 | ].
    split; [exact H4 | ].
    split; [intros Hn; specialize (H5 Hn); lia | exact H6].
  - apply policy_shouldIssue_sound in Hpol as (_ & Hb1 & Hsize & Hframe & _); [ | exact Hb].
    inversion Hok as [ | r0 s0 Hr Hok']; subst r0 s0.
    split; [exact Hok' | split; [exact Hframe | ]].
    repeat split; intros; try assumption; try congruence; try lia;
      try (exfalso; lia).
  - apply policy_shouldIssue_sound in Hpol as (_ & Hb1 & Hsize & Hframe & _); [ | exact Hb].
    inversion Hok as [ | r0 s0 Hr Hok']; subst r0 s0.
    split; [exact Hok' | split; [exact Hframe | ]].
    repeat split; intros; try assumption; try congruence; try lia;
      try (exfalso; lia).
Qed.

(** The Reader: what is received goes to the end of the input queue, the
    value returned counts it, and the queue stays within one transfer of
    the read limit. *)
Lemma IdleSteps_Reader acc buf ep script n m script' :
  IdleSteps InputWorker acc buf ep script n m script' ->
  Forall reply_ok script -> Str.size buf = kIoSize ->
  (exists received,
     m_inQueue (endpoint m) = m_inQueue ep ++ received
     /\ (n <> -1 -> n = acc + Str.size received))
  /\ Str.size (m_inQueue (endpoint m))
     <= Z.max (Str.size (m_inQueue ep)) (m_readBufferSize ep - 1 + kIoSize)
  /\ (phase m = Pending ->
      Str.size (m_inQueue (endpoint m)) < m_readBufferSize ep
      /\ isClosed ep = false).
Proof.
  induction 1 as [acc buf ep script Hpol
                 | acc buf ep actual data script size isRead buf1 ep1 ep2 n m script'
                     Hpol Hcomp Hrest IH
                 | acc buf ep script size isRead buf1 ep1 Hpol
                 | acc buf ep script size isRead buf1 ep1 Hpol];
    intros Hok Hb; simpl.
  - split; [exists []; rewrite app_nil_r; split; [reflexivity | unfold Str.size; simpl; lia] | ].
    split; [lia | discriminate].
  - apply policy_shouldIssue_sound in Hpol
      as (_ & Hb1 & _ & _ & -> & -> & -> & Hopen & Hlt); [ | exact Hb].
    inversion Hok as [ | r0 s0 Hr Hok']; subst r0 s0. simpl in Hr.
    apply policy_onComplete_sound in Hcomp as ((_ & _ & _ & HL & _) & Hin & Hgrow);
      [ | rewrite completed_buffer_size, Hb; exact Hr].
    destruct IH as ((received & Hq & Hn) & Hbound & Hpend);
      [exact Hok' | rewrite completed_buffer_size; exact Hb | ].
    rewrite HL in Hbound, Hpend. rewrite Hgrow in Hbound.
    split.
    + exists (firstn (Z.to_nat actual) (completed_buffer isRead data buf) ++ received).
      rewrite Hq, Hin, <- app_assoc. split; [reflexivity | ].
      intros Hne. rewrite (Hn Hne), size_app.
      rewrite Hin, size_app in Hgrow. lia.
    + split; [lia | ].
      intros Hp. destruct (Hpend Hp) as [H1 H2]. split; [exact H1 | exact Hopen].
  - apply policy_shouldIssue_sound in Hpol
      as (_ & _ & _ & _ & -> & _ & _ & Hopen & Hlt); [ | exact Hb].
    split; [exists []; rewrite app_nil_r; split; [reflexivity | unfold Str.size; simpl; lia] | ].
    split; [lia | auto].
  - apply policy_shouldIssue_sound in Hpol
      as (_ & _ & _ & _ & -> & _ & _ & Hopen & Hlt); [ | exact Hb].
    split; [exists []; rewrite app_nil_r; split; [reflexivity | congruence] | ].
    split; [lia | discriminate].
Qed.

(** The Writer: the value returned is the drop in the bytes to send. *)
Lemma IdleSteps_Writer acc buf ep script n m script' :
  IdleSteps OutputWorker acc buf ep script n m script' ->
  Forall reply_ok script -> Str.size buf = kIoSize ->
  (n <> -1 -> n = acc + (Str.size (m_outQueue ep) - to_send m))
  /\ Str.size (m_outQueue (endpoint m)) <= Str.size (m_outQueue ep).
Proof.
  unfold to_send.
  induction 1 as [acc buf ep script Hpol
                 | acc buf ep actual data script size isRead buf1 ep1 ep2 n m script'
                     Hpol Hcomp Hrest IH
                 | acc buf ep script size isRead buf1 ep1 Hpol
                 | acc buf ep script size isRead buf1 ep1 Hpol];
    intros Hok Hb; simpl.
  - split; lia.
  - apply policy_shouldIssue_sound in Hpol
      as (_ & Hb1 & Hsize & _ & _ & _ & Hshrink); [ | exact Hb].
    inversion Hok as [ | r0 s0 Hr Hok']; subst r0 s0. simpl in Hr.
    apply policy_onComplete_sound in Hcomp as (_ & -> & ->);
      [ | rewrite completed_buffer_size, Hb1; exact Hr].
    destruct IH as (Hn & Hle);
      [exact Hok' | rewrite completed_buffer_size; exact Hb1 | ].
    split; [intros Hne; specialize (Hn Hne); lia | lia].
  - apply policy_shouldIssue_sound in Hpol
      as (_ & _ & Hsize & _ & _ & _ & Hshrink); [ | exact Hb].
    split; lia.
  - apply policy_shouldIssue_sound in Hpol
      as (_ & _ & Hsize & _ & _ & _ & Hshrink); [ | exact Hb].
    split; [congruence | lia].
Qed.

Lemma Advance_common (k : WorkerKind) m0 script n m script' :
  Advance k m0 script n m script' ->
  Forall reply_ok script -> Str.size (buffer m0) = kIoSize ->
  Forall reply_ok script'
  /\ pipe_frame k (endpoint m0) (endpoint m)
  /\ Str.size (buffer m) = kIoSize
  /\ (n = -1 <-> phase m = FailedPhase)
  /\ (n <> -1 -> 0 <= n)
  /\ (phase m = Pending ->
      0 < outstanding m <= kIoSize \/ m = m0)
  /\ (phase m <> Pending -> outstanding m = 0)
  /\ (phase m = Idle -> policy_shouldIssue k (buffer m) (endpoint m) = None).
Proof.
  pose proof kIoSize_pos as Hk1.
  destruct 1 as [size buf ep script | size buf ep script
                | size buf ep actual data script ep1 n m script' Hcomp Hrest
                | buf ep script n m script' Hrest];
    simpl; intros Hok Hb.
  - inversion Hok as [ | r0 s0 Hr Hok']; subst r0 s0.
    split; [exact Hok' | split; [apply pipe_frame_refl | ]].
    repeat split; intros; try assumption; try congruence; try lia; auto.
  - inversion Hok as [ | r0 s0 Hr Hok']; subst r0 s0.
    split; [exact Hok' | split; [apply pipe_frame_refl | ]].
    repeat split; intros; try assumption; try congruence; try lia; auto.
  - inversion Hok as [ | r0 s0 Hr Hok']; subst r0 s0. simpl in Hr.
    apply policy_onComplete_sound in Hcomp as (Hframe & _);
      [ | rewrite completed_buffer_size, Hb; exact Hr].
    apply IdleSteps_common in Hrest
      as (H1 & H2 & H3 & H4 & H5 & H6 & H7 & H8);
      [ | exact Hok' | rewrite completed_buffer_size; exact Hb | lia].
    split; [exact H1 | ].
    split; [eauto using pipe_frame_trans | ].
    split; [exact H3 | ].
    split; [exact H4 | ].
    split; [intros Hn; specialize (H5 Hn); lia | ].
    split; [auto | auto].
  - apply IdleSteps_common in Hrest
      as (H1 & H2 & H3 & H4 & H5 & H6 & H7 & H8);
      [ | exact Hok | exact Hb | lia].
    split; [exact H1 | split; [exact H2 | split; [exact H3 | ]]].
    split; [exact H4 | split; [exact H5 | auto]].
Qed.

Lemma Advance_Reader m0 script n m script' :
  Advance InputWorker m0 script n m script' ->
  Forall reply_ok script -> Str.size (buffer m0) = kIoSize ->
  (phase m0 = Pending ->
   Str.size (m_inQueue (endpoint m0)) < m_readBufferSize (endpoint m0)) ->
  (exists received,
     m_inQueue (endpoint m) = m_inQueue (endpoint m0) ++ received
     /\ (n <> -1 -> n = Str.size received))
  /\ Str.size (m_inQueue (endpoint m))
     <= Z.max (Str.size (m_inQueue (endpoint m0)))
              (m_readBufferSize (endpoint m0) - 1 + kIoSize)
  /\ (phase m = Pending ->
      Str.size (m_inQueue (endpoint m)) < m_readBufferSize (endpoint m0)).
Proof.
  destruct 1 as [size buf ep script | size buf ep script
                | size buf ep actual data script ep1 n m script' Hcomp Hrest
                | buf ep script n m script' Hrest];
    simpl; intros Hok Hb Hpend.
  - split; [exists []; rewrite app_nil_r; split; [reflexivity | unfold Str.size; simpl; lia] | ].
    split; [lia | auto].
  - split; [exists []; rewrite app_nil_r; split; [reflexivity | congruence] | ].
    split; [lia | discriminate].
  - inversion Hok as [ | r0 s0 Hr Hok']; subst r0 s0. simpl in Hr.
    apply policy_onComplete_sound in Hcomp as ((_ & _ & _ & HL & _) & Hin & Hgrow);
      [ | rewrite completed_buffer_size, Hb; exact Hr].
    apply IdleSteps_Reader in Hrest as ((received & Hq & Hn) & Hbound & Hp);
      [ | exact Hok' | rewrite completed_buffer_size; exact Hb].
    specialize (Hpend eq_refl). rewrite HL in Hbound, Hp. rewrite Hgrow in Hbound.
    split.
    + exists (firstn (Z.to_nat actual) (completed_buffer true data buf) ++ received).
      rewrite Hq, Hin, <- app_assoc. split; [reflexivity | ].
      intros Hne. rewrite (Hn Hne), size_app.
      rewrite Hin, size_app in Hgrow. simpl kind_isRead in Hgrow. lia.
    + split; [lia | ]. intros H. apply Hp. exact H.
  - apply IdleSteps_Reader in Hrest as ((received & Hq & Hn) & Hbound & Hp);
      [ | exact Hok | exact Hb].
    split; [exists received; split; [exact Hq | intros Hne; rewrite (Hn Hne); lia] | ].
    split; [exact Hbound | ]. intros H. apply Hp. exact H.
Qed.

Lemma Advance_Writer m0 script n m script' :
  Advance OutputWorker m0 script n m script' ->
  Forall reply_ok script -> Str.size (buffer m0) = kIoSize ->
  (n <> -1 -> n = to_send m0 - to_send m)
  /\ Str.size (m_outQueue (endpoint m)) <= Str.size (m_outQueue (endpoint m0)).
Proof.
  destruct 1 as [size buf ep script | size buf ep script
                | size buf ep actual data script ep1 n m script' Hcomp Hrest
                | buf ep script n m script' Hrest];
    unfold to_send at 1; simpl; intros Hok Hb.
  - unfold to_send; simpl. split; lia.
  - split; [congruence | lia].
  - inversion Hok as [ | r0 s0 Hr Hok']; subst r0 s0. simpl in Hr.
    apply policy_onComplete_sound in Hcomp as (_ & -> & ->);
      [ | rewrite completed_buffer_size, Hb; exact Hr].
    apply IdleSteps_Writer in Hrest as (Hn & Hle);
      [ | exact Hok' | rewrite completed_buffer_size; exact Hb].
    split; [intros Hne; specialize (Hn Hne); lia | exact Hle].
  - apply IdleSteps_Writer in Hrest as (Hn & Hle); [ | exact Hok | exact Hb].
    split; [intros Hne; specialize (Hn Hne); lia | exact Hle].
Qed.

(** ** The machine state of a worker *)

Lemma endpoint_machine_of w p : endpoint (machine_of w p) = p.
Proof. unfold machine_of. destruct (m_pending w); reflexivity. Qed.

Lemma buffer_machine_of w p : buffer (machine_of w p) = m_buffer w.
Proof. unfold machine_of. destruct (m_pending w); reflexivity. Qed.

Lemma phase_machine_of w p :
  phase (machine_of w p) = if m_pending w then Pending else Idle.
Proof. unfold machine_of. destruct (m_pending w); reflexivity. Qed.

Lemma outstanding_machine_of w p :
  outstanding (machine_of w p) = getPendingIoSize w.
Proof. unfold machine_of, getPendingIoSize. destruct (m_pending w); reflexivity. Qed.

Lemma endpoint_machine_after n w p : endpoint (machine_after n w p) = p.
Proof.
  unfold machine_after. destruct (n =? -1); [reflexivity | apply endpoint_machine_of].
Qed.

Lemma buffer_machine_after n w p : buffer (machine_after n w p) = m_buffer w.
Proof.
  unfold machine_after. destruct (n =? -1); [reflexivity | apply buffer_machine_of].
Qed.

Lemma machine_after_progress n w p :
  n <> -1 -> machine_after n w p = machine_of w p.
Proof.
  intros Hn. unfold machine_after.
  replace (n =? -1) with false by (symmetry; apply Z.eqb_neq; exact Hn).
  reflexivity.
Qed.

(** ** The Reader across a tick *)

Lemma serviceWorker_Reader (L : Z) (p : NamedPipe) (script : list Reply)
    (tr : list SysCall) n h p' script' tr' :
  L + kIoSize - 1 <= INT_MAX ->
  reader_inv L p ->
  Forall reply_ok script ->
  serviceWorker InputWorker p script tr = Ret (n, h, p', script', tr') ->
  Forall reply_ok script'
  /\ m_readBufferSize p' = L
  /\ Str.size (m_inQueue p') <= Z.max 0 (L - 1 + kIoSize)
  /\ (n <> -1 -> reader_inv L p')
  /\ (exists received,
        m_inQueue p' = m_inQueue p ++ received
        /\ (n <> -1 -> n = Str.size received))
  /\ (n <> -1 -> 0 <= n)
  /\ m_handle p' = m_handle p
  /\ m_outQueue p' = m_outQueue p
  /\ m_outputWorker p' = m_outputWorker p.
Proof.
  intros HL (HLp & Hq & Hw) Hok H.
  pose proof (size_nonneg (m_inQueue p)) as H0.
  apply serviceWorker_ret in H
    as [(Hnone & -> & _ & -> & -> & _) | (w & w' & p1 & Hk & Hs & _ & ->)].
  - split; [exact Hok | split; [exact HLp | split; [exact Hq | ]]].
    split; [intros _; exact (conj HLp (conj Hq Hw)) | ].
    split; [exists []; rewrite app_nil_r; split; [reflexivity | reflexivity] | ].
    split; [lia | auto].
  - simpl in Hk. destruct (Hw w Hk) as [Hb Hpend].
    assert (Hrange : in_range InputWorker w p).
    { split; [exact Hb | ]. rewrite HLp.
      split; [exact HL | split; [unfold INT_MAX in *; lia | ]].
      intros Hp. specialize (Hpend Hp). lia. }
    pose proof (IoWorker_service_refines _ _ _ _ _ _ _ _ _ _ Hok Hrange Hs) as Hadv.
    pose proof (Advance_common _ _ _ _ _ _ Hadv Hok) as Hc.
    pose proof (Advance_Reader _ _ _ _ _ Hadv Hok) as Hr.
    rewrite buffer_machine_of in Hc, Hr.
    rewrite endpoint_machine_of, endpoint_machine_after in Hc, Hr.
    rewrite phase_machine_of in Hr.
    destruct (Hc Hb)
      as (Hok' & (Hh & Hi & Ho & HL' & Hout) & Hb' & _ & Hn0 & _).
    destruct (Hr Hb) as (Hrecv & Hbound & Hp').
    { destruct (m_pending w); [intros _; rewrite HLp; auto | discriminate]. }
    rewrite buffer_machine_after in Hb'. rewrite HLp in Hbound, Hp'.
    simpl.
    split; [exact Hok' | ].
    split; [congruence | ].
    split; [lia | ].
    split.
    { intros Hn. split; [simpl; congruence | ].
      split; [simpl; lia | ].
      simpl. intros w0 Hw0. injection Hw0 as <-.
      split; [exact Hb' | ].
      intros Hp. apply Hp'.
      rewrite machine_after_progress, phase_machine_of, Hp by exact Hn.
      reflexivity. }
    split; [exact Hrecv | ].
    split; [exact Hn0 | auto].
Qed.

Lemma serviceWorker_Writer_frame (p : NamedPipe) (script : list Reply)
    (tr : list SysCall) n h p' script' tr' :
  serviceWorker OutputWorker p script tr = Ret (n, h, p', script', tr') ->
  m_handle p' = m_handle p
  /\ m_inputWorker p' = m_inputWorker p
  /\ m_readBufferSize p' = m_readBufferSize p
  /\ m_inQueue p' = m_inQueue p.
Proof.
  intros H. apply serviceWorker_ret in H
    as [(_ & _ & _ & -> & _) | (w & w' & p1 & Hk & Hs & _ & ->)]; [auto | ].
  apply IoWorker_service_frame in Hs as [(Hh & Hi & Ho & HL & Hq) _].
  simpl. auto.
Qed.

Lemma reader_inv_same (L : Z) (p p' : NamedPipe) :
  m_readBufferSize p' = m_readBufferSize p ->
  m_inputWorker p' = m_inputWorker p ->
  Str.size (m_inQueue p') <= Str.size (m_inQueue p) ->
  reader_inv L p -> reader_inv L p'.
Proof.
  intros HL Hi Hq (H1 & H2 & H3).
  split; [congruence | split; [lia | ]].
  intros w Hw. rewrite Hi in Hw. destruct (H3 w Hw) as [Hb Hp].
  split; [exact Hb | intros Hpend; specialize (Hp Hpend); lia].
Qed.

Lemma serviceIo_reader_inv (L : Z) (waitHandles : list HANDLE) (p : NamedPipe)
    (script : list Reply) (tr : list SysCall) b waitHandles' p' script' tr' :
  L + kIoSize - 1 <= INT_MAX ->
  reader_inv L p ->
  Forall reply_ok script ->
  serviceIo waitHandles p script tr = Ret (b, waitHandles', p', script', tr') ->
  reader_inv L p'.
Proof.
  intros HL Hinv Hok H. destruct (isClosed p) eqn:Hc.
  - rewrite serviceIo_closed in H by exact Hc. injection H as _ _ <- _ _. exact Hinv.
  - apply serviceIo_open in H
      as (rb & rh & p1 & s1 & t1 & wb & wh & p2 & t2 & Hi & Ho & Hcase);
      [ | exact Hc].
    apply (serviceWorker_Reader L) in Hi
      as (Hok1 & HL1 & Hq1 & Hinv1 & _ & _ & Hh1 & _); try assumption.
    apply serviceWorker_Writer_frame in Ho as (Hh2 & Hi2 & HL2 & Hq2).
    destruct Hcase as [(_ & _ & _ & Hcl) | (Hrb & _ & _ & _ & -> & _)].
    + assert (Hopen : isClosed p2 = false)
        by (unfold isClosed in *; congruence).
      rewrite closePipe_open in Hcl by exact Hopen.
      injection Hcl as -> _.
      split; [simpl; congruence | ].
      split; [simpl; rewrite Hq2; exact Hq1 | ].
      simpl. discriminate.
    + apply (reader_inv_same L p1); try assumption; [rewrite Hq2; lia | auto].
Qed.

Lemma size_erase0_le (q : bytes) (count : Z) :
  Str.size (Str.erase0 q count) <= Str.size q.
Proof. unfold Str.erase0, Str.size. rewrite length_skipn. lia. Qed.

Lemma perform_reader_inv (L : Z) (o : Op) (p p' : NamedPipe) :
  L + kIoSize - 1 <= INT_MAX ->
  is_traffic o -> perform o p = Ret p' ->
  reader_inv L p -> reader_inv L p'.
Proof.
  intros HL Hallowed H Hinv.
  destruct o; simpl in Hallowed; try contradiction; simpl in H.
  - injection H as <-. apply (reader_inv_same L p); auto; simpl; lia.
  - destruct (peek data size p) as [[[r d] p0] | | | ] eqn:Hp; try discriminate.
    simpl in H. injection H as <-. unfold peek in Hp.
    destruct (memcpy _ _ _); simpl in Hp; try discriminate.
    injection Hp as _ _ <-. exact Hinv.
  - injection H as <-. apply (reader_inv_same L p); auto.
    simpl. apply size_erase0_le.
  - injection H as <-. unfold readAsVector.
    destruct (0 <? _); [ | exact Hinv].
    apply (reader_inv_same L p); auto. simpl. apply size_erase0_le.
  - injection H as <-. apply (reader_inv_same L p); auto.
    simpl. apply size_nonneg.
  - destruct (serviceIo waitHandles p script tr)
      as [[[[[b whs] p0] s0] t0] | | | ] eqn:Hs; try discriminate.
    simpl in H. injection H as <-.
    eapply serviceIo_reader_inv; eassumption.
Qed.

Lemma Run_reader_inv (L : Z) (p p' : NamedPipe) :
  L + kIoSize - 1 <= INT_MAX ->
  Run is_traffic p p' -> reader_inv L p -> reader_inv L p'.
Proof.
  intros HL. induction 1 as [ | o p' p'' Hrun IH Hallowed Hperf]; intros Hinv;
    [exact Hinv | ].
  eapply perform_reader_inv; [exact HL | exact Hallowed | exact Hperf | ].
  apply IH. exact Hinv.
Qed.

Lemma Configured_reader_inv (p : NamedPipe) :
  Configured p -> reader_inv (m_readBufferSize p) p.
Proof.
  intros H. apply Configured_unused in H as (Hin & _ & Hw).
  split; [reflexivity | ].
  split; [rewrite Hin; unfold Str.size; simpl; lia | ].
  intros w Hi. destruct (Hw InputWorker w Hi) as [[_ Hb] Hidle].
  split; [exact Hb | rewrite Hidle; discriminate].
Qed.

(** ** Backpressure *)

Lemma InputWorker_shouldIssueIo_eq (w : IoWorker) (p : NamedPipe) :
  InputWorker_shouldIssueIo w p =
  Ret (if negb (isClosed p) && (bytesAvailable p <? readBufferSize p)
       then Some (kIoSize, true) else None, w, p).
Proof.
  unfold InputWorker_shouldIssueIo, bytesAvailable.
  destruct (isClosed p); simpl; [reflexivity | ].
  destruct (_ <? _); reflexivity.
Qed.

(** C2, amended.  On a configured endpoint, whatever the interleaving of
    writes, reads and service ticks (over a transport that transfers at
    most the [kIoSize] bytes asked for), the read limit stays as
    configured and [bytesAvailable()] never exceeds
    [readBufferSize() - 1 + kIoSize]: the Reader issues a receive, of
    [kIoSize] bytes, exactly when the endpoint is not closed and the
    input queue is strictly shorter than the limit, and a completed
    receive appends its bytes to the input queue. *)
Theorem input_queue_within_one_transfer_of_limit (p0 p : NamedPipe)
    (w : IoWorker) (actual : Z) :
  Configured p0 ->
  readBufferSize p0 + kIoSize - 1 <= INT_MAX ->
  Run is_traffic p0 p ->
  0 <= actual <= kIoSize ->
  Str.size (m_buffer w) = kIoSize ->
  readBufferSize p = readBufferSize p0
  /\ bytesAvailable p <= Z.max 0 (readBufferSize p0 - 1 + kIoSize)
  /\ InputWorker_shouldIssueIo w p =
     Ret (if negb (isClosed p) && (bytesAvailable p <? readBufferSize p)
          then Some (kIoSize, true) else None, w, p)
  /\ InputWorker_completeIo (to_int actual) w p =
     Ret (set_inQueue (m_inQueue p ++ firstn (Z.to_nat actual) (m_buffer w)) p).
Proof.
  unfold readBufferSize. intros Hcfg HL Hrun Ha Hb.
  apply Configured_reader_inv in Hcfg.
  apply (Run_reader_inv _ _ _ HL Hrun) in Hcfg as (HLp & Hq & _).
  pose proof (size_nonneg (m_inQueue p)) as H0.
  split; [exact HLp | ].
  split.
  { unfold bytesAvailable.
    rewrite to_int_id by (unfold in_int, INT_MIN, INT_MAX in *; lia). exact Hq. }
  split; [apply InputWorker_shouldIssueIo_eq | ].
  apply (completeIo_refines InputWorker actual w p Ha Hb).
Qed.

(** ** The Writer across a tick *)

Lemma bytesToSend_exact (p : NamedPipe) :
  Str.size (m_outQueue p) + kIoSize <= INT_MAX ->
  (forall w, m_outputWorker p = Some w -> 0 <= getPendingIoSize w <= kIoSize) ->
  bytesToSend p =
  Str.size (m_outQueue p) +
  match m_outputWorker p with
  | Some w => getPendingIoSize w
  | None => 0
  end.
Proof.
  intros Hq Hw. pose proof (size_nonneg (m_outQueue p)) as H0.
  pose proof kIoSize_pos as Hk.
  unfold bytesToSend.
  rewrite (to_int_id (Str.size _)) by (unfold in_int, INT_MIN; lia).
  destruct (m_outputWorker p) as [w | ]; [ | lia].
  specialize (Hw w eq_refl).
  apply to_int_id. unfold in_int, INT_MIN. lia.
Qed.

Lemma serviceWorker_handle (k : WorkerKind) (p : NamedPipe) (script : list Reply)
    (tr : list SysCall) n h p' script' tr' :
  serviceWorker k p script tr = Ret (n, h, p', script', tr') ->
  h = worker_handle (worker_of k p').
Proof.
  intros H. apply serviceWorker_ret in H
    as [(Hnone & _ & -> & -> & _) | (w & w' & p1 & _ & _ & -> & ->)].
  - rewrite Hnone. reflexivity.
  - destruct k; reflexivity.
Qed.

Lemma serviceWorker_Writer (p : NamedPipe) (script : list Reply)
    (tr : list SysCall) n h p' script' tr' :
  Str.size (m_outQueue p) + kIoSize <= INT_MAX ->
  (forall w, m_outputWorker p = Some w ->
     Str.size (m_buffer w) = kIoSize
     /\ (m_pending w = true -> 0 <= m_currentIoSize w <= kIoSize)) ->
  Forall reply_ok script ->
  serviceWorker OutputWorker p script tr = Ret (n, h, p', script', tr') ->
  (n <> -1 -> 0 <= n /\ n = bytesToSend p - bytesToSend p').
Proof.
  intros Hq Hw Hok H Hn. pose proof kIoSize_pos as Hk.
  assert (Hpend : forall w, m_outputWorker p = Some w ->
                  0 <= getPendingIoSize w <= kIoSize).
  { intros w Hw0. destruct (Hw w Hw0) as [_ Hp]. unfold getPendingIoSize.
    destruct (m_pending w); [auto | lia]. }
  rewrite (bytesToSend_exact p Hq Hpend).
  apply serviceWorker_ret in H
    as [(Hnone & -> & _ & -> & _) | (w & w' & p1 & Hk0 & Hs & _ & ->)].
  - rewrite (bytesToSend_exact p Hq Hpend). lia.
  - simpl in Hk0. destruct (Hw w Hk0) as [Hb Hcur].
    assert (Hrange : in_range OutputWorker w p) by (split; assumption).
    pose proof (IoWorker_service_refines _ _ _ _ _ _ _ _ _ _ Hok Hrange Hs) as Hadv.
    pose proof (Advance_common _ _ _ _ _ _ Hadv Hok) as Hc.
    pose proof (Advance_Writer _ _ _ _ _ Hadv Hok) as Hwr.
    rewrite buffer_machine_of in Hc, Hwr.
    destruct (Hc Hb) as (_ & _ & _ & _ & Hn0 & Hout & Hidle & _).
    destruct (Hwr Hb) as (Hdrop & Hle).
    rewrite machine_after_progress in Hout, Hidle, Hdrop, Hle by exact Hn.
    unfold to_send in Hdrop.
    rewrite !endpoint_machine_of, !outstanding_machine_of in Hdrop.
    rewrite !endpoint_machine_of in Hle.
    rewrite outstanding_machine_of, phase_machine_of in Hout, Hidle.
    assert (Hpend' : 0 <= getPendingIoSize w' <= kIoSize).
    { destruct (m_pending w') eqn:Hp'.
      - destruct (Hout eq_refl) as [Hr | Hsame]; [lia | ].
        apply (f_equal outstanding) in Hsame.
        rewrite !outstanding_machine_of in Hsame. rewrite Hsame.
        apply Hpend. exact Hk0.
      - rewrite Hidle by discriminate. lia. }
    rewrite bytesToSend_exact; simpl; rewrite ?Hk0.
    + split; [auto | ]. rewrite (Hdrop Hn). lia.
    + lia.
    + intros w0 Hw0. injection Hw0 as <-. exact Hpend'.
Qed.

(** ** The service tick *)

Lemma bytesAvailable_exact (L : Z) (p : NamedPipe) :
  L + kIoSize - 1 <= INT_MAX ->
  Str.size (m_inQueue p) <= Z.max 0 (L - 1 + kIoSize) ->
  bytesAvailable p = Str.size (m_inQueue p).
Proof.
  intros HL Hq. pose proof (size_nonneg (m_inQueue p)).
  apply to_int_id. unfold in_int, INT_MIN, INT_MAX in *. lia.
Qed.

Lemma bytesToSend_same (p p' : NamedPipe) :
  m_outQueue p' = m_outQueue p -> m_outputWorker p' = m_outputWorker p ->
  bytesToSend p' = bytesToSend p.
Proof. unfold bytesToSend. intros -> ->. reflexivity. Qed.

(** C3.  [serviceIo] on a closed endpoint returns false and changes
    nothing.  On an open endpoint it services the Reader, then the
    Writer, and returns true exactly when one of them moved bytes or
    reported a failure; in terms of what a caller can see, exactly when
    the endpoint was closed by the tick, or the input queue grew, or the
    bytes to send dropped.  On a failure the endpoint is torn down
    before the call returns (cancel, drain of the pending workers,
    workers destroyed, handle closed), the endpoint is closed, and
    every later [serviceIo] returns false.  What is appended to the
    caller's handle vector is the wait handle of each worker that the
    tick leaves with an operation pending: none after a teardown. *)
Theorem serviceIo_reports_activity (waitHandles : list HANDLE) (p : NamedPipe)
    (script : list Reply) (tr : list SysCall)
    b waitHandles' p' script' tr' :
  tick_ready p ->
  Forall reply_ok script ->
  serviceIo waitHandles p script tr = Ret (b, waitHandles', p', script', tr') ->
  (isClosed p = true ->
   b = false /\ waitHandles' = waitHandles /\ p' = p /\ tr' = tr)
  /\ (isClosed p = false ->
      exists readBytes readHandle p1 script1 tr1 writeBytes writeHandle p2 tr2,
        serviceWorker InputWorker p script tr
          = Ret (readBytes, readHandle, p1, script1, tr1)
        /\ serviceWorker OutputWorker p1 script1 tr1
          = Ret (writeBytes, writeHandle, p2, script', tr2)
        /\ (b = true <->
            0 < readBytes \/ 0 < writeBytes \/ readBytes = -1 \/ writeBytes = -1)
        /\ (readBytes <> -1 ->
            readBytes = bytesAvailable p2 - bytesAvailable p)
        /\ (writeBytes <> -1 ->
            writeBytes = bytesToSend p - bytesToSend p2)
        /\ (readBytes = -1 \/ writeBytes = -1 ->
            waitHandles' = waitHandles
            /\ p' = torn_down p2
            /\ tr' = tr2 ++ [CancelIo (m_handle p)]
                     ++ drain_calls (m_handle p) (m_inputWorker p2)
                     ++ drain_calls (m_handle p) (m_outputWorker p2)
                     ++ IoWorker_delete (m_inputWorker p2)
                     ++ IoWorker_delete (m_outputWorker p2)
                     ++ [CloseHandle (m_handle p)])
        /\ (readBytes <> -1 /\ writeBytes <> -1 ->
            p' = p2 /\ tr' = tr2 /\ isClosed p' = false))
  /\ (b = true <->
      isClosed p = false
      /\ (isClosed p' = true
          \/ bytesAvailable p < bytesAvailable p'
          \/ bytesToSend p' < bytesToSend p))
  /\ (isClosed p' = true ->
      forall waitHandles2 script2 tr2,
        serviceIo waitHandles2 p' script2 tr2
        = Ret (false, waitHandles2, p', script2, tr2))
  /\ (isClosed p = false -> waitHandles' = waitHandles ++ wait_handles p').
Proof.
  intros (Hreader & HL & Hout & Hwriter) Hok H.
  assert (Hlater : isClosed p' = true ->
            forall waitHandles2 script2 tr2,
            serviceIo waitHandles2 p' script2 tr2
            = Ret (false, waitHandles2, p', script2, tr2))
    by (intros Hc' ? ? ?; apply serviceIo_closed; exact Hc').
  destruct (isClosed p) eqn:Hc.
  - rewrite serviceIo_closed in H by exact Hc. injection H as <- <- <- <- <-.
    split; [auto | ].
    split; [discriminate | ].
    split; [split; [discriminate | intros [Hf _]; discriminate] | ].
    split; [exact Hlater | congruence].
  - apply serviceIo_open in H
      as (rb & rh & p1 & s1 & t1 & wb & wh & p2 & t2 & Hi & Ho & Hcase);
      [ | exact Hc].
    pose proof Hreader as (_ & Hq0 & _).
    pose proof (serviceWorker_handle _ _ _ _ _ _ _ _ _ Hi) as Hrh.
    pose proof (serviceWorker_handle _ _ _ _ _ _ _ _ _ Ho) as Hwh.
    pose proof (serviceWorker_Reader _ _ _ _ _ _ _ _ _ HL Hreader Hok Hi)
      as (Hok1 & HL1 & Hq1 & _ & (received & Hrecv & Hrb) & Hrb0 & Hh1 & Hout1 & Hw1).
    pose proof (serviceWorker_Writer_frame _ _ _ _ _ _ _ _ Ho)
      as (Hh2 & Hi2 & HL2 & Hq2).
    assert (Hwb : wb <> -1 -> 0 <= wb /\ wb = bytesToSend p1 - bytesToSend p2).
    { apply (serviceWorker_Writer p1 s1 t1 wb wh p2 script' t2);
        try assumption; rewrite ?Hout1, ?Hw1; assumption. }
    rewrite (bytesToSend_same p p1 Hout1 Hw1) in Hwb.
    assert (Hav0 : bytesAvailable p = Str.size (m_inQueue p))
      by (eapply bytesAvailable_exact; eassumption).
    assert (Hav2 : bytesAvailable p2 = Str.size (m_inQueue p) + Str.size received).
    { rewrite <- size_app, <- Hrecv, <- Hq2.
      apply (bytesAvailable_exact (m_readBufferSize p)); [exact HL | ].
      rewrite Hq2. exact Hq1. }
    pose proof (size_nonneg received) as Hrecv0.
    assert (Hopen2 : isClosed p2 = false) by (unfold isClosed in *; congruence).
    assert (Hrb' : rb <> -1 -> rb = bytesAvailable p2 - bytesAvailable p)
      by (intros Hn; rewrite (Hrb Hn); lia).
    assert (Hhandles : wait_handles p2 = nonnull [rh; wh]).
    { unfold wait_handles. rewrite Hwh. simpl worker_of.
      rewrite Hi2, Hrh. reflexivity. }
    destruct Hcase as [(Hfail & -> & -> & Hcl) | (Hr & Hw & -> & -> & -> & ->)].
    + rewrite closePipe_open in Hcl by exact Hopen2.
      injection Hcl as -> ->. rewrite Hh2, Hh1.
      split; [discriminate | ].
      split.
      { intros _. exists rb, rh, p1, s1, t1, wb, wh, p2, t2.
        split; [exact Hi | split; [exact Ho | ]].
        split; [tauto | ].
        split; [exact Hrb' | ].
        split; [apply Hwb | ].
        split; [auto | tauto]. }
      split; [split; [auto | reflexivity] | ].
      split; [exact Hlater | ].
      intros _. unfold wait_handles. simpl. rewrite app_nil_r. reflexivity.
    + split; [discriminate | ].
      assert (Hb : (0 <? rb) || (0 <? wb) = true <-> 0 < rb \/ 0 < wb)
        by (rewrite orb_true_iff, !Z.ltb_lt; reflexivity).
      split.
      { intros _. exists rb, rh, p1, s1, t1, wb, wh, p2, t2.
        split; [exact Hi | split; [exact Ho | ]].
        split; [rewrite Hb; tauto | ].
        split; [exact Hrb' | ].
        split; [apply Hwb | ].
        split; [tauto | auto]. }
      split.
      { rewrite Hb, Hopen2. specialize (Hrb' Hr). destruct (Hwb Hw) as [_ Hwb'].
        split.
        - intros [H | H]; (split; [reflexivity | right]); [left | right]; lia.
        - intros (_ & [H | [H | H]]); [discriminate | left | right]; lia. }
      split; [exact Hlater | ].
      intros _. rewrite Hhandles. reflexivity.
Qed.

(** ** The Writer's completion assertion *)

Lemma OutputWorker_completeIo_eq (size : Z) (w : IoWorker) (p : NamedPipe) :
  OutputWorker_completeIo size w p =
  if size =? m_currentIoSize w then Ret p else Fatal.
Proof.
  unfold OutputWorker_completeIo. destruct (size =? m_currentIoSize w); reflexivity.
Qed.

Lemma issueLoop_full_sizes (script : list Reply) :
  forall progress w p tr,
  Str.size (m_outQueue p) <= INT_MAX -> Str.size (m_buffer w) = kIoSize ->
  full_sizes (Str.size (m_outQueue p)) script ->
  issueLoop OutputWorker script progress w p tr <> Fatal.
Proof.
  pose proof kIoSize_pos as Hk1.
  induction script as [ | r script IH]; intros progress w p tr Hq Hb Hfull;
    rewrite issueLoop_eq; simpl shouldIssueIo;
    rewrite (OutputWorker_shouldIssueIo_eq w p Hq Hb);
    (destruct (m_outQueue p) as [ | c q] eqn:Hqe; simpl; [discriminate | ]);
    rewrite <- Hqe in *.
  - discriminate.
  - pose proof (size_nonneg (m_outQueue p)) as H0.
    assert (Hpos : 0 < Str.size (m_outQueue p))
      by (rewrite Hqe; unfold Str.size; simpl length; lia).
    destruct r as [actual data | | ]; try discriminate.
    simpl in Hfull. destruct Hfull as [Hle | [Hact Hfull]]; [lia | ].
    unfold OutputWorker_completeIo. simpl m_currentIoSize.
    rewrite Hact, Z.eqb_refl. simpl.
    set (n := Z.min (Str.size (m_outQueue p)) kIoSize) in *.
    assert (Hn : 0 <= n <= Str.size (m_outQueue p) /\ n <= kIoSize) by (unfold n; lia).
    apply IH; simpl.
    + rewrite size_skipn by lia. lia.
    + rewrite size_app, size_firstn, size_skipn by lia. lia.
    + rewrite size_skipn by lia. exact Hfull.
Qed.

(** C8.  The Writer's [completeIo] returns when the completed byte
    count is the size of the operation issued and aborts the agent
    otherwise.  So a service call of the Writer does not abort when
    every completion the transport reports is of the full size issued;
    and it does abort, rather than return -1, when a completion is
    not: be it the one of the outstanding operation, or the one of an
    operation that completes at once. *)
Theorem OutputWorker_completion_size_asserted (w : IoWorker) (p : NamedPipe)
    (script : list Reply) (tr : list SysCall)
    (size actual : Z) (data : bytes) :
  Str.size (m_outQueue p) <= INT_MAX ->
  Str.size (m_buffer w) = kIoSize ->
  (size = m_currentIoSize w -> OutputWorker_completeIo size w p = Ret p)
  /\ (size <> m_currentIoSize w -> OutputWorker_completeIo size w p = Fatal)
  /\ (reports_full_sizes w p script ->
      IoWorker_service OutputWorker w p script tr <> Fatal)
  /\ (m_pending w = true -> to_int actual <> m_currentIoSize w ->
      IoWorker_service OutputWorker w p (Done actual data :: script) tr = Fatal)
  /\ (m_pending w = false -> m_outQueue p <> [] ->
      to_int actual <> Z.min (Str.size (m_outQueue p)) kIoSize ->
      IoWorker_service OutputWorker w p (Done actual data :: script) tr = Fatal).
Proof.
  intros Hq Hb.
  split; [intros ->; rewrite OutputWorker_completeIo_eq, Z.eqb_refl; reflexivity | ].
  split.
  { intros Hne. rewrite OutputWorker_completeIo_eq.
    apply Z.eqb_neq in Hne. rewrite Hne. reflexivity. }
  split.
  { unfold reports_full_sizes, IoWorker_service. destruct (m_pending w).
    - destruct script as [ | [a d | | ] script]; try discriminate.
      intros [Hact Hfull]. simpl completeIo.
      unfold OutputWorker_completeIo. simpl m_currentIoSize.
      rewrite Hact, Z.eqb_refl. simpl.
      apply issueLoop_full_sizes; assumption.
    - apply issueLoop_full_sizes; assumption. }
  split.
  { intros Hp Hne. unfold IoWorker_service. rewrite Hp. simpl completeIo.
    unfold OutputWorker_completeIo. simpl m_currentIoSize.
    apply Z.eqb_neq in Hne. rewrite Hne. reflexivity. }
  intros Hp Hne Hmis. unfold IoWorker_service. rewrite Hp.
  rewrite issueLoop_eq. simpl shouldIssueIo.
  rewrite (OutputWorker_shouldIssueIo_eq w p Hq Hb).
  destruct (m_outQueue p) as [ | c q] eqn:Hqe; [congruence | ].
  simpl. unfold OutputWorker_completeIo. simpl m_currentIoSize.
  apply Z.eqb_neq in Hmis. rewrite Hmis. reflexivity.
Qed.

(** ** How a service call can end *)

Lemma loop_range_step (k : WorkerKind) (progress : Z) (w : IoWorker)
    (p : NamedPipe) size isRead buf1 ep1 actual data ep2 :
  loop_range k progress w p ->
  policy_shouldIssue k (m_buffer w) p = Some (size, isRead, buf1, ep1) ->
  0 <= actual <= kIoSize ->
  policy_onComplete k size actual (completed_buffer isRead data buf1) ep1 = Ret ep2 ->
  loop_range k (progress + actual)
    (set_currentIoSize (-1)
       (transfer isRead data (set_currentIoSize size (set_buffer buf1 w)))) ep2.
Proof.
  intros (Hidle & Hb & Hkind) Hpol Hr Hcomp.
  apply policy_shouldIssue_sound in Hpol
    as (HisRead & Hb1 & Hsize & Hframe & Hkind1); [ | exact Hb].
  apply policy_onComplete_sound in Hcomp as (Hframe2 & Hkind2);
    [ | rewrite completed_buffer_size, Hb1; exact Hr].
  unfold loop_range.
  split; [destruct isRead; simpl; exact Hidle | ].
  split; [destruct isRead; simpl; rewrite ?deposit_size; exact Hb1 | ].
  destruct k.
  - destruct Hkind1 as (-> & _ & _ & _ & Hlt).
    destruct Hkind2 as (_ & Hgrow).
    destruct Hframe2 as (_ & _ & _ & HL & _). rewrite HL, Hgrow. lia.
  - destruct Hkind1 as (Hn & _ & Hshrink).
    destruct Hkind2 as (-> & ->). lia.
Qed.

Lemma policy_onComplete_outcome (k : WorkerKind) issued actual buf ep :
  match policy_onComplete k issued actual buf ep with
  | Ret _ => True
  | Fatal => k = OutputWorker
  | Undefined | Starved => False
  end.
Proof. destruct k; simpl; [exact I | ]. destruct (actual =? issued); auto. Qed.

Lemma issueLoop_outcome (k : WorkerKind) (script : list Reply) :
  forall progress w p tr,
  Forall reply_ok script ->
  loop_range k progress w p ->
  match issueLoop k script progress w p tr with
  | Ret _ => True
  | Fatal => k = OutputWorker
  | Undefined => False
  | Starved => Forall is_Done script
  end.
Proof.
  pose proof kIoSize_int as Hk2.
  induction script as [ | r script IH]; intros progress w p tr Hok Hrange;
    rewrite issueLoop_eq, (shouldIssueIo_refines k progress w p Hrange);
    (destruct (policy_shouldIssue k (m_buffer w) p)
      as [[[[size isRead] buf1] ep1] | ] eqn:Hpol; simpl; [ | exact I]).
  - constructor.
  - inversion Hok as [ | r0 s0 Hr Hok']; subst r0 s0.
    destruct r as [actual data | | ]; try exact I. simpl in Hr.
    pose proof Hrange as (_ & Hb & Hkind).
    apply policy_shouldIssue_sound in Hpol as Hsound; [ | exact Hb].
    destruct Hsound as (_ & Hb1 & _).
    rewrite completeIo_refines
      by (try exact Hr; destruct isRead; simpl; rewrite ?deposit_size; exact Hb1).
    replace (m_currentIoSize (transfer isRead data (set_currentIoSize size (set_buffer buf1 w))))
      with size by (destruct isRead; reflexivity).
    replace (m_buffer (transfer isRead data (set_currentIoSize size (set_buffer buf1 w))))
      with (completed_buffer isRead data buf1) by (destruct isRead; reflexivity).
    pose proof (policy_onComplete_outcome k size actual
                  (completed_buffer isRead data buf1) ep1) as Hout.
    destruct (policy_onComplete k size actual (completed_buffer isRead data buf1) ep1)
      as [ep2 | | | ] eqn:Hcomp; simpl; try exact Hout; try contradiction.
    pose proof (loop_range_step _ _ _ _ _ _ _ _ _ data _ Hrange Hpol Hr Hcomp) as Hrange'.
    assert (Hsum : to_int (progress + actual) = progress + actual).
    { apply to_int_id. unfold in_int, INT_MIN.
      destruct Hrange' as (_ & _ & Hk'). destruct Hrange as (_ & _ & Hk0).
      destruct k; [ | pose proof (size_nonneg (m_outQueue ep2))]; lia. }
    rewrite Hsum.
    specialize (IH (progress + actual) _ ep2
                   (tr ++ [if isRead
                           then ReadFile (m_handle ep1) (m_event (set_currentIoSize size (set_buffer buf1 w))) size
                           else WriteFile (m_handle ep1) (m_event (set_currentIoSize size (set_buffer buf1 w)))
                                  (firstn (Z.to_nat size) (m_buffer (set_currentIoSize size (set_buffer buf1 w))));
                           ResetEvent (m_event (transfer isRead data (set_currentIoSize size (set_buffer buf1 w))))])
                   Hok' Hrange').
    destruct (issueLoop k script _ _ _ _); auto.
Qed.

Lemma IoWorker_service_outcome (k : WorkerKind) (w : IoWorker) (p : NamedPipe)
    (script : list Reply) (tr : list SysCall) :
  Forall reply_ok script ->
  in_range k w p ->
  match IoWorker_service k w p script tr with
  | Ret _ => True
  | Fatal => k = OutputWorker
  | Undefined => False
  | Starved => Forall is_Done script
  end.
Proof.
  pose proof kIoSize_pos as Hk1. pose proof kIoSize_int as Hk2.
  intros Hok (Hb & Hkind). unfold IoWorker_service.
  destruct (m_pending w) eqn:Hpend.
  - destruct script as [ | [actual data | | ] script]; try exact I; [constructor | ].
    inversion Hok as [ | r0 s0 Hr Hok']; subst r0 s0. simpl in Hr.
    rewrite completeIo_refines
      by (try exact Hr; destruct k; simpl; rewrite ?deposit_size; exact Hb).
    replace (m_currentIoSize (set_pending false (transfer (kind_isRead k) data w)))
      with (m_currentIoSize w) by (destruct k; reflexivity).
    replace (m_buffer (set_pending false (transfer (kind_isRead k) data w)))
      with (completed_buffer (kind_isRead k) data (m_buffer w))
      by (destruct k; reflexivity).
    pose proof (policy_onComplete_outcome k (m_currentIoSize w) actual
                  (completed_buffer (kind_isRead k) data (m_buffer w)) p) as Hout.
    destruct (policy_onComplete k _ _ _ p) as [ep1 | | | ] eqn:Hcomp;
      simpl; try exact Hout; try contradiction.
    apply policy_onComplete_sound in Hcomp as Hsound;
      [ | rewrite completed_buffer_size, Hb; exact Hr].
    destruct Hsound as (Hframe & Hkind2).
    rewrite to_int_id by (unfold in_int, INT_MIN; lia).
    assert (Hrange' : loop_range k actual
              (set_currentIoSize (-1)
                 (set_pending false (transfer (kind_isRead k) data w))) ep1).
    { unfold loop_range.
      split; [reflexivity | ].
      split; [destruct k; simpl; rewrite ?deposit_size; exact Hb | ].
      destruct k.
      - destruct Hkind as (HL & Hq & Hroom). destruct Hkind2 as (_ & Hgrow).
        destruct Hframe as (_ & _ & _ & HL' & _).
        pose proof (size_nonneg (m_inQueue p)).
        rewrite HL', Hgrow. specialize (Hroom eq_refl). lia.
      - destruct Hkind2 as (-> & _). lia. }
    match goal with
    | |- match issueLoop k script ?a ?w1 ?p1 ?t1 with _ => _ end =>
      pose proof (issueLoop_outcome k script a w1 p1 t1 Hok' Hrange') as Hloop
    end.
    destruct (issueLoop k script _ _ _ _); auto.
  - apply issueLoop_outcome; [exact Hok | ].
    unfold loop_range.
    split; [exact Hpend | split; [exact Hb | ]].
    destruct k.
    + pose proof (size_nonneg (m_inQueue p)). lia.
    + pose proof (size_nonneg (m_outQueue p)). lia.
Qed.

(** C4.  [IoWorker::service()] is the [advance] step of the design's
    state machine.  Whatever it returns is a step of the machine: from
    [Pending] it polls, and stays pending with 0, fails with -1, or
    completes and goes on idle with the completed size as progress;
    while idle it asks the policy and issues what is granted, going
    round again after each operation that completes at once, and stops
    with the progress so far when the policy grants nothing or an
    operation goes pending, or with -1 when issuing fails.  When it
    returns progress with the worker idle, the policy has nothing more
    to grant.  Conversely every step of the machine is what the code
    returns.  The call always returns, except that the Writer's
    assertion can abort it and that a script of nothing but immediate
    completions can run out. *)
Theorem IoWorker_service_follows_design (k : WorkerKind) (w : IoWorker)
    (p : NamedPipe) (script : list Reply) (tr : list SysCall) :
  Forall reply_ok script ->
  in_range k w p ->
  (forall n w' p' script' tr',
     IoWorker_service k w p script tr = Ret (n, w', p', script', tr') ->
     Advance k (machine_of w p) script n (machine_after n w' p') script'
     /\ (n = -1 \/ 0 <= n)
     /\ (n <> -1 -> m_pending w' = false ->
         policy_shouldIssue k (m_buffer w') p' = None))
  /\ (forall n m script',
        Advance k (machine_of w p) script n m script' ->
        exists w' tr',
          IoWorker_service k w p script tr = Ret (n, w', endpoint m, script', tr')
          /\ machine_after n w' (endpoint m) = m)
  /\ match IoWorker_service k w p script tr with
     | Ret _ => True
     | Fatal => k = OutputWorker
     | Undefined => False
     | Starved => Forall is_Done script
     end.
Proof.
  intros Hok Hrange.
  split; [ | split].
  - intros n w' p' script' tr' H.
    pose proof (IoWorker_service_refines _ _ _ _ _ _ _ _ _ _ Hok Hrange H) as Hadv.
    split; [exact Hadv | ].
    pose proof (Advance_common _ _ _ _ _ _ Hadv Hok) as Hc.
    rewrite buffer_machine_of in Hc.
    destruct Hrange as (Hb & _).
    destruct (Hc Hb) as (_ & _ & _ & _ & Hn & _ & _ & Hidle).
    split; [destruct (Z.eq_dec n (-1)); auto | ].
    intros Hne Hp.
    rewrite machine_after_progress in Hidle by exact Hne.
    rewrite phase_machine_of, buffer_machine_of, endpoint_machine_of, Hp in Hidle.
    apply Hidle. reflexivity.
  - intros n m script' Hadv.
    apply IoWorker_service_complete; assumption.
  - apply IoWorker_service_outcome; assumption.
Qed.

(** ** Configured endpoints are ready for a tick *)

Lemma Configured_tick_ready (p : NamedPipe) :
  Configured p -> readBufferSize p + kIoSize - 1 <= INT_MAX -> tick_ready p.
Proof.
  unfold readBufferSize. intros Hcfg HL.
  pose proof (Configured_reader_inv p Hcfg) as Hr.
  apply Configured_unused in Hcfg as (_ & Hout & Hw).
  pose proof kIoSize_int as Hk.
  split; [exact Hr | split; [exact HL | ]].
  split; [rewrite Hout; unfold Str.size; simpl; lia | ].
  intros w Ho. destruct (Hw OutputWorker w Ho) as [[_ Hb] Hidle].
  split; [exact Hb | rewrite Hidle; discriminate].
Qed.

(** ** The Writer's outstanding size, whatever the queue lengths *)

Lemma OutputWorker_shouldIssueIo_size (w w1 : IoWorker) (p p1 : NamedPipe)
    (size : Z) (isRead : bool) :
  OutputWorker_shouldIssueIo w p = Ret (Some (size, isRead), w1, p1) ->
  Str.size (m_buffer w) = kIoSize ->
  0 <= size <= kIoSize.
Proof.
  pose proof kIoSize_pos as Hk1. pose proof kIoSize_int as Hk2.
  pose proof size_t_covers_int as Hc.
  unfold OutputWorker_shouldIssueIo. intros H Hb.
  destruct (negb (Str.empty (m_outQueue p))); [ | discriminate].
  destruct (memcpy _ _ _) as [b | | | ] eqn:Hm; simpl in H; try discriminate.
  injection H as <- _ _ _.
  apply memcpy_ret in Hm as (Hlo & Hhi & _).
  rewrite (to_int_id kIoSize) in * by (unfold in_int, INT_MIN; lia).
  set (ws := Z.min (to_int (Str.size (m_outQueue p))) kIoSize) in *.
  assert (Hint : INT_MIN <= to_int (Str.size (m_outQueue p))).
  { unfold to_int, INT_MIN.
    pose proof (Z.mod_pos_bound (Str.size (m_outQueue p) + 2147483648) 4294967296).
    lia. }
  destruct (Z.lt_ge_cases ws 0) as [Hneg | Hpos]; [ | lia].
  exfalso. rewrite to_size_t_negative in Hhi by (unfold ws in *; lia).
  unfold INT_MIN, INT_MAX in *. lia.
Qed.

Lemma issueLoop_Writer_size (script : list Reply) :
  forall progress w p tr n w' p' script' tr',
  issueLoop OutputWorker script progress w p tr = Ret (n, w', p', script', tr') ->
  Str.size (m_buffer w) = kIoSize -> m_pending w = false ->
  m_pending w' = true -> 0 <= m_currentIoSize w' <= kIoSize.
Proof.
  induction script as [ | r script IH]; intros progress w p tr n w' p' script' tr';
    rewrite issueLoop_eq;
    destruct (shouldIssueIo OutputWorker w p) as [[[next w1] p1] | | | ] eqn:Hs;
    simpl; try discriminate;
    pose proof (shouldIssueIo_frame _ _ _ _ _ _ Hs) as (_ & (_ & Hb1) & Hp1 & _);
    (destruct next as [[nextSize isRead] | ];
     [ | intros H Hb Hidle Hp; injection H as _ <- _ _ _; congruence]).
  - discriminate.
  - destruct r as [actual data | | ].
    + match goal with
      | |- context [bind ?m _] => destruct m as [p2 | | | ] eqn:Hc
      end; simpl; try discriminate.
      intros H Hb Hidle. eapply IH; [exact H | | ].
      * destruct (transfer_frame isRead data (set_currentIoSize nextSize w1))
          as ((_ & Hbt) & _ & _).
        simpl. simpl in Hbt. congruence.
      * destruct (transfer_frame isRead data (set_currentIoSize nextSize w1))
          as (_ & Hpt & _).
        simpl. simpl in Hpt. congruence.
    + intros H Hb Hidle _. injection H as _ <- _ _ _. simpl.
      eapply OutputWorker_shouldIssueIo_size; eassumption.
    + intros H Hb Hidle Hp. injection H as _ <- _ _ _. simpl in Hp. congruence.
Qed.

Lemma IoWorker_service_Writer_size (w : IoWorker) (p : NamedPipe)
    (script : list Reply) (tr : list SysCall) n w' p' script' tr' :
  IoWorker_service OutputWorker w p script tr = Ret (n, w', p', script', tr') ->
  Str.size (m_buffer w) = kIoSize ->
  (m_pending w = true -> 0 <= m_currentIoSize w <= kIoSize) ->
  m_pending w' = true -> 0 <= m_currentIoSize w' <= kIoSize.
Proof.
  unfold IoWorker_service. destruct (m_pending w) eqn:Hpend.
  - destruct script as [ | [actual data | | ] script]; try discriminate.
    + match goal with
      | |- context [bind ?m _] => destruct m as [p2 | | | ] eqn:Hc
      end; simpl; try discriminate.
      intros H Hb _. eapply issueLoop_Writer_size; [exact H | exact Hb | reflexivity].
    + intros H Hb Hcur _. injection H as _ <- _ _ _. auto.
    + intros H Hb Hcur _. injection H as _ <- _ _ _. auto.
  - intros H Hb _. eapply issueLoop_Writer_size; [exact H | exact Hb | exact Hpend].
Qed.

Lemma writer_inv_same (p p' : NamedPipe) :
  m_outputWorker p' = m_outputWorker p -> writer_inv p -> writer_inv p'.
Proof. unfold writer_inv. intros ->. auto. Qed.

Lemma serviceIo_writer_inv (waitHandles : list HANDLE) (p : NamedPipe)
    (script : list Reply) (tr : list SysCall) b waitHandles' p' script' tr' :
  writer_inv p ->
  serviceIo waitHandles p script tr = Ret (b, waitHandles', p', script', tr') ->
  writer_inv p'.
Proof.
  intros Hinv H. destruct (isClosed p) eqn:Hc.
  - rewrite serviceIo_closed in H by exact Hc. injection H as _ _ <- _ _. exact Hinv.
  - apply serviceIo_open in H
      as (rb & rh & p1 & s1 & t1 & wb & wh & p2 & t2 & Hi & Ho & Hcase);
      [ | exact Hc].
    assert (Ho1 : m_outputWorker p1 = m_outputWorker p /\ m_handle p1 = m_handle p).
    { apply serviceWorker_ret in Hi
        as [(_ & _ & _ & -> & _) | (w & w' & p0 & _ & Hs & _ & ->)]; [auto | ].
      apply IoWorker_service_frame in Hs as [(Hh & _ & Ho' & _) _]. simpl. auto. }
    destruct Ho1 as [Ho1 Hh1].
    assert (Hinv2 : writer_inv p2 /\ m_handle p2 = m_handle p1).
    { apply serviceWorker_ret in Ho
        as [(_ & _ & _ & -> & _) | (w & w' & p0 & Hk & Hs & _ & ->)].
      - split; [apply (writer_inv_same p); assumption | reflexivity].
      - simpl in Hk. rewrite Ho1 in Hk. destruct (Hinv w Hk) as [Hb Hcur].
        pose proof (IoWorker_service_frame _ _ _ _ _ _ _ _ _ _ Hs)
          as [(Hh & _) (_ & Hb')].
        split; [ | simpl; exact Hh].
        intros w0 Hw0. simpl in Hw0. injection Hw0 as <-.
        split; [congruence | ].
        eapply IoWorker_service_Writer_size; eassumption. }
    destruct Hinv2 as [Hinv2 Hh2].
    destruct Hcase as [(_ & _ & _ & Hcl) | (_ & _ & _ & _ & -> & _)];
      [ | exact Hinv2].
    assert (Hopen : isClosed p2 = false) by (unfold isClosed in *; congruence).
    rewrite closePipe_open in Hcl by exact Hopen.
    injection Hcl as -> _. intros w0 Hw0. discriminate.
Qed.

Lemma perform_writer_inv (o : Op) (p p' : NamedPipe) :
  is_traffic o -> perform o p = Ret p' -> writer_inv p -> writer_inv p'.
Proof.
  intros Hallowed H Hinv.
  destruct o; simpl in Hallowed; try contradiction; simpl in H.
  - injection H as <-. exact Hinv.
  - destruct (peek data size p) as [[[r d] p0] | | | ] eqn:Hp; try discriminate.
    simpl in H. injection H as <-. unfold peek in Hp.
    destruct (memcpy _ _ _); simpl in Hp; try discriminate.
    injection Hp as _ _ <-. exact Hinv.
  - injection H as <-. exact Hinv.
  - injection H as <-. unfold readAsVector. destruct (0 <? _); exact Hinv.
  - injection H as <-. exact Hinv.
  - destruct (serviceIo waitHandles p script tr)
      as [[[[[b whs] p0] s0] t0] | | | ] eqn:Hs; try discriminate.
    simpl in H. injection H as <-.
    eapply serviceIo_writer_inv; eassumption.
Qed.

(** Every endpoint reached by traffic from a configured one is ready for
    a tick, as long as its output queue leaves room for a transfer. *)
Lemma Run_tick_ready (p0 p : NamedPipe) :
  Configured p0 ->
  readBufferSize p0 + kIoSize - 1 <= INT_MAX ->
  Run is_traffic p0 p ->
  Str.size (m_outQueue p) + kIoSize <= INT_MAX ->
  tick_ready p.
Proof.
  intros Hcfg HL Hrun Hout.
  pose proof (Configured_tick_ready p0 Hcfg HL) as (Hr0 & _ & _ & Hw0).
  pose proof (Run_reader_inv _ _ _ HL Hrun Hr0) as Hr.
  assert (Hw : writer_inv p).
  { clear Hout Hr. induction Hrun as [ | o p' p'' Hrun IH Hallowed Hperf];
      [exact Hw0 | ].
    eapply perform_writer_inv; eassumption. }
  unfold readBufferSize in *.
  pose proof Hr as (HLp & _).
  split; [rewrite HLp; exact Hr | ].
  split; [rewrite HLp; exact HL | ].
  split; [exact Hout | exact Hw].
Qed.

End Properties.

(** * Further properties *)

Section Further.

Context {pf : Platform} {ok : PlatformOk pf}.

(** ** Reading *)

Lemma firstn_plus (A : Type) (a b : nat) (l : list A) :
  firstn (a + b) l = firstn a l ++ firstn b (skipn a l).
Proof.
  revert l. induction a as [ | a IH]; intros l; [reflexivity | ].
  destruct l as [ | x l]; simpl; [rewrite firstn_nil; reflexivity | ].
  rewrite IH. reflexivity.
Qed.

(** X1.  [readAll()] is [read(n)] for every [n] that covers the queue,
    and for every negative [n]; it returns the whole input queue and
    leaves [bytesAvailable()] at 0. *)
Theorem readAll_is_read_of_everything (n : Z) (p : NamedPipe) :
  in_int n -> Str.size (m_inQueue p) <= INT_MAX ->
  n < 0 \/ bytesAvailable p <= n ->
  read n p = readAll p
  /\ fst (readAll p) = m_inQueue p
  /\ bytesAvailable (snd (readAll p)) = 0.
Proof.
  intros Hn Hq Hcover. pose proof (size_nonneg (m_inQueue p)) as H0.
  assert (Hav : bytesAvailable p = Str.size (m_inQueue p))
    by (apply to_int_id; unfold in_int, INT_MIN; lia).
  split; [ | split; reflexivity].
  unfold readAll. destruct (Z.lt_ge_cases n 0) as [Hneg | Hpos].
  - apply read_negative; [unfold in_int in Hn; lia | exact Hq].
  - rewrite read_nonnegative by (unfold in_int in Hn; lia).
    rewrite Z.min_r by lia. rewrite firstn_size, skipn_size. reflexivity.
Qed.

(** X2.  Reading in two steps is reading once: [read(a)] followed by
    [read(b)] returns, end to end, the bytes of [read(a + b)] and leaves
    the same pipe. *)
Theorem read_in_two_steps (a b : Z) (p : NamedPipe) :
  0 <= a -> 0 <= b -> a + b <= INT_MAX ->
  Str.size (m_inQueue p) <= INT_MAX ->
  read (a + b) p =
  (fst (read a p) ++ fst (read b (snd (read a p))),
   snd (read b (snd (read a p)))).
Proof.
  intros Ha Hb Hab Hq. pose proof (size_nonneg (m_inQueue p)) as H0.
  rewrite (read_nonnegative a p), (read_nonnegative (a + b) p) by lia.
  cbn [fst snd].
  set (q := m_inQueue p) in *.
  set (ka := Z.min a (Str.size q)).
  assert (Hka : 0 <= ka <= Str.size q) by (unfold ka; lia).
  assert (Hrest : Str.size (skipn (Z.to_nat ka) q) = Str.size q - ka)
    by (apply size_skipn; exact Hka).
  rewrite read_nonnegative by (simpl m_inQueue; lia).
  simpl m_inQueue. rewrite Hrest. cbn [fst snd].
  set (kb := Z.min b (Str.size q - ka)).
  assert (Hsum : Z.to_nat (Z.min (a + b) (Str.size q)) = (Z.to_nat ka + Z.to_nat kb)%nat)
    by (unfold ka, kb; lia).
  rewrite Hsum, firstn_plus, skipn_skipn, (Nat.add_comm (Z.to_nat kb)).
  reflexivity.
Qed.

(** ** Writing *)

Lemma total_size_nonneg (datas : list bytes) : 0 <= total_size datas.
Proof. rewrite <- size_concat. apply size_nonneg. Qed.

(** X3.  Whatever the endpoint is doing, writes raise [bytesToSend()]
    by exactly the bytes written (as long as the total fits its [int]),
    and touch neither the input queue nor the operation in flight. *)
Theorem bytesToSend_after_writes (datas : list bytes) (p : NamedPipe) :
  0 <= in_flight p ->
  Str.size (m_outQueue p) + total_size datas + in_flight p <= INT_MAX ->
  bytesToSend (writes datas p) = bytesToSend p + total_size datas
  /\ in_flight (writes datas p) = in_flight p
  /\ m_inQueue (writes datas p) = m_inQueue p.
Proof.
  intros Hfl Hsum.
  pose proof (total_size_nonneg datas) as Ht.
  pose proof (size_nonneg (m_outQueue p)) as H0.
  destruct (writes_outQueue datas p) as [Hq Hw].
  assert (Hin : m_inQueue (writes datas p) = m_inQueue p).
  { unfold writes. clear. revert p.
    induction datas as [ | d ds IH]; intros p; simpl; [reflexivity | ].
    rewrite IH. reflexivity. }
  unfold in_flight in *. unfold bytesToSend. rewrite Hq, Hw, size_app, size_concat.
  rewrite !(to_int_id (Str.size _ + _)), (to_int_id (Str.size _))
    by (unfold in_int, INT_MIN; lia).
  split; [ | split; [reflexivity | exact Hin]].
  destruct (m_outputWorker p) as [w | ]; [ | reflexivity].
  rewrite !to_int_id by (unfold in_int, INT_MIN; lia). lia.
Qed.

Lemma strlen_spec (text : bytes) (n : Z) :
  strlen text = Some n ->
  0 <= n < Str.size text
  /\ ~ In x00 (firstn (Z.to_nat n) text)
  /\ exists rest, text = firstn (Z.to_nat n) text ++ x00 :: rest.
Proof.
  revert n. induction text as [ | c text IH]; intros n; simpl; [discriminate | ].
  destruct (Byte.eqb c x00) eqn:Hc.
  - intros H. injection H as <-. apply byte_dec_bl in Hc. subst c.
    unfold Str.size; simpl length.
    split; [lia | split; [simpl; tauto | exists text; reflexivity]].
  - destruct (strlen text) as [m | ]; [ | discriminate].
    intros H. injection H as <-.
    destruct (IH m eq_refl) as (Hm & Hno & rest & Hrest).
    apply eqb_false in Hc.
    replace (Z.to_nat (m + 1)) with (S (Z.to_nat m)) by lia.
    unfold Str.size in *; simpl length. simpl firstn.
    split; [lia | ].
    split; [intros [H | H]; [congruence | exact (Hno H)] | ].
    exists rest. simpl. rewrite <- Hrest. reflexivity.
Qed.

(** X4.  [write(text)] queues the characters of [text] before its first
    NUL byte, and so never a NUL: it is [write] of that prefix.  Without
    a NUL in the array the call has no defined result. *)
Theorem write_text_queues_up_to_NUL (text : bytes) (p : NamedPipe) (n : Z) :
  strlen text = Some n -> n <= INT_MAX ->
  write_text text p = Ret (write (firstn (Z.to_nat n) text) p)
  /\ ~ In x00 (firstn (Z.to_nat n) text)
  /\ (exists rest, text = firstn (Z.to_nat n) text ++ x00 :: rest)
  /\ Str.size (m_outQueue (write (firstn (Z.to_nat n) text) p))
     = Str.size (m_outQueue p) + n.
Proof.
  intros Hlen Hn. unfold write_text. rewrite Hlen.
  destruct (strlen_spec text n Hlen) as (Hrange & Hno & Hrest).
  rewrite (to_size_t_id n) by lia.
  rewrite to_int_id by (unfold in_int, INT_MIN; lia).
  rewrite to_size_t_id by lia.
  unfold Str.append.
  replace ((0 <=? n) && (n <=? Str.size text)) with true
    by (symmetry; rewrite andb_true_iff; lia).
  split; [reflexivity | ].
  split; [exact Hno | split; [exact Hrest | ]].
  simpl. rewrite size_app, size_firstn by lia. reflexivity.
Qed.

(** ** Order on the send path *)

Lemma handed_app (a b : list SysCall) : handed (a ++ b) = handed a ++ handed b.
Proof. unfold handed. apply flat_map_app. Qed.

Lemma firstn_app_exact (n : Z) (a b : bytes) :
  Str.size a = n -> firstn (Z.to_nat n) (a ++ b) = a.
Proof.
  unfold Str.size. intros <-. rewrite Nat2Z.id, firstn_app, firstn_all.
  rewrite Nat.sub_diag. simpl. apply app_nil_r.
Qed.

Lemma issueLoop_Writer_handed (script : list Reply) :
  forall progress w p tr n w' p' script' tr',
  Str.size (m_outQueue p) <= INT_MAX -> Str.size (m_buffer w) = kIoSize ->
  issueLoop OutputWorker script progress w p tr = Ret (n, w', p', script', tr') ->
  exists chunk,
    handed tr' = handed tr ++ chunk /\ m_outQueue p = chunk ++ m_outQueue p'.
Proof.
  pose proof kIoSize_pos as Hk1.
  induction script as [ | r script IH];
    intros progress w p tr n w' p' script' tr' Hq Hb;
    rewrite issueLoop_eq; simpl shouldIssueIo;
    rewrite (OutputWorker_shouldIssueIo_eq w p Hq Hb);
    (destruct (m_outQueue p) as [ | c q] eqn:Hqe; simpl;
     [intros H; injection H as _ _ <- _ <-; exists [];
      rewrite app_nil_r, Hqe; auto | ]);
    rewrite <- Hqe in *.
  - discriminate.
  - pose proof (size_nonneg (m_outQueue p)) as H0.
    set (k := Z.min (Str.size (m_outQueue p)) kIoSize) in *.
    assert (Hk : 0 <= k <= Str.size (m_outQueue p) /\ k <= kIoSize) by (unfold k; lia).
    assert (Hchunk : firstn (Z.to_nat k)
                       (firstn (Z.to_nat k) (m_outQueue p)
                          ++ skipn (Z.to_nat k) (m_buffer w))
                     = firstn (Z.to_nat k) (m_outQueue p))
      by (apply firstn_app_exact, size_firstn; lia).
    assert (Hsplit : m_outQueue p
                     = firstn (Z.to_nat k) (m_outQueue p)
                         ++ skipn (Z.to_nat k) (m_outQueue p))
      by (symmetry; apply firstn_skipn).
    destruct r as [actual data | | ].
    + match goal with
      | |- context [bind ?m _] => destruct m as [p2 | | | ] eqn:Hc
      end; simpl; try discriminate.
      unfold OutputWorker_completeIo in Hc. apply ASSERT_ret in Hc as [_ Hc].
      injection Hc as <-. intros H.
      apply IH in H; simpl.
      * destruct H as (chunk & Hh & Hrest). simpl in Hh, Hrest.
        exists (firstn (Z.to_nat k) (m_outQueue p) ++ chunk).
        rewrite Hh, handed_app. simpl. rewrite Hchunk, app_nil_r, <- !app_assoc.
        split; [reflexivity | ]. rewrite <- Hrest. exact Hsplit.
      * rewrite size_skipn by lia. lia.
      * rewrite size_app, size_firstn, size_skipn by lia. lia.
    + intros H. injection H as _ _ <- _ <-. simpl.
      exists (firstn (Z.to_nat k) (m_outQueue p)).
      rewrite handed_app. simpl. rewrite Hchunk, app_nil_r. auto.
    + intros H. injection H as _ _ <- _ <-. simpl.
      exists (firstn (Z.to_nat k) (m_outQueue p)).
      rewrite handed_app. simpl. rewrite Hchunk, app_nil_r. auto.
Qed.

Lemma issueLoop_Reader_handed (script : list Reply) :
  forall progress w p tr n w' p' script' tr',
  issueLoop InputWorker script progress w p tr = Ret (n, w', p', script', tr') ->
  handed tr' = handed tr.
Proof.
  induction script as [ | r script IH];
    intros progress w p tr n w' p' script' tr';
    rewrite issueLoop_eq; simpl shouldIssueIo;
    rewrite InputWorker_shouldIssueIo_eq;
    (destruct (negb (isClosed p) && _); simpl;
     [ | intros H; injection H as _ _ _ _ <-; reflexivity]).
  - discriminate.
  - destruct r as [actual data | | ].
    + match goal with
      | |- context [bind ?m _] => destruct m as [p2 | | | ] eqn:Hc
      end; simpl; try discriminate.
      intros H. apply IH in H. rewrite H, handed_app. simpl. apply app_nil_r.
    + intros H. injection H as _ _ _ _ <-. rewrite handed_app. simpl. apply app_nil_r.
    + intros H. injection H as _ _ _ _ <-. rewrite handed_app. simpl. apply app_nil_r.
Qed.

Lemma IoWorker_service_handed (k : WorkerKind) (w : IoWorker) (p : NamedPipe)
    (script : list Reply) (tr : list SysCall) n w' p' script' tr' :
  Str.size (m_outQueue p) <= INT_MAX ->
  (k = OutputWorker -> Str.size (m_buffer w) = kIoSize) ->
  IoWorker_service k w p script tr = Ret (n, w', p', script', tr') ->
  exists chunk,
    handed tr' = handed tr ++ chunk /\ m_outQueue p = chunk ++ m_outQueue p'.
Proof.
  intros Hq Hb H.
  assert (Hloop : forall script0 progress w0 p0 tr0,
            m_outQueue p0 = m_outQueue p ->
            Str.size (m_buffer w0) = Str.size (m_buffer w) ->
            issueLoop k script0 progress w0 p0 tr0 = Ret (n, w', p', script', tr') ->
            exists chunk,
              handed tr' = handed tr0 ++ chunk /\ m_outQueue p = chunk ++ m_outQueue p').
  { intros script0 progress w0 p0 tr0 Hq0 Hb0 H0. destruct k.
    - pose proof (issueLoop_Reader_handed _ _ _ _ _ _ _ _ _ _ H0) as Hh.
      apply issueLoop_frame in H0 as [(_ & _ & _ & _ & Hout) _].
      exists []. rewrite app_nil_r, Hh. simpl. split; congruence.
    - rewrite <- Hq0. eapply issueLoop_Writer_handed; [ | | exact H0].
      + rewrite Hq0. exact Hq.
      + rewrite Hb0. apply Hb. reflexivity. }
  unfold IoWorker_service in H. destruct (m_pending w).
  - destruct script as [ | [actual data | | ] script]; try discriminate.
    + match type of H with
      | context [bind ?m _] => destruct m as [p2 | | | ] eqn:Hc
      end; simpl in H; try discriminate.
      assert (Hq2 : m_outQueue p2 = m_outQueue p).
      { destruct k; simpl in Hc.
        - apply (completeIo_frame InputWorker) in Hc as (_ & _ & _ & _ & Ho). exact Ho.
        - unfold OutputWorker_completeIo in Hc. apply ASSERT_ret in Hc as [_ Hc].
          injection Hc as <-. reflexivity. }
      apply Hloop in H; [ | exact Hq2 | ].
      * destruct H as (chunk & Hh & Hrest). exists chunk.
        rewrite Hh, handed_app. simpl. rewrite app_nil_r. auto.
      * destruct (transfer_frame (kind_isRead k) data w) as ((_ & Hbt) & _).
        simpl. exact Hbt.
    + injection H as _ _ <- _ <-. exists [].
      rewrite handed_app. simpl. rewrite !app_nil_r. auto.
    + injection H as _ _ <- _ <-. exists [].
      rewrite handed_app. simpl. rewrite !app_nil_r. auto.
  - apply Hloop in H; auto.
Qed.

Lemma closePipe_handed (p : NamedPipe) (tr : list SysCall) :
  handed (snd (closePipe p tr)) = handed tr
  /\ m_outQueue (fst (closePipe p tr)) = m_outQueue p
  /\ m_inQueue (fst (closePipe p tr)) = m_inQueue p.
Proof.
  destruct (isClosed p) eqn:Hc.
  - rewrite closePipe_closed by exact Hc. auto.
  - rewrite closePipe_open by exact Hc. simpl.
    split; [ | auto].
    rewrite !handed_app.
    destruct (m_inputWorker p) as [wi | ], (m_outputWorker p) as [wo | ]; simpl;
      try destruct (m_pending wi); try destruct (m_pending wo); simpl;
      rewrite ?app_nil_r; reflexivity.
Qed.

(** X5.  The send path keeps the order of the bytes and loses none:
    what a tick hands to [WriteFile], call after call, is a prefix of
    the output queue, and the queue keeps exactly the rest; this holds
    for every tick, those that end in a teardown included. *)
Theorem serviceIo_hands_queue_prefix (waitHandles : list HANDLE)
    (p : NamedPipe) (script : list Reply) (tr : list SysCall)
    b waitHandles' p' script' tr' :
  Str.size (m_outQueue p) <= INT_MAX ->
  (forall w, m_outputWorker p = Some w -> Str.size (m_buffer w) = kIoSize) ->
  serviceIo waitHandles p script tr = Ret (b, waitHandles', p', script', tr') ->
  exists chunk,
    handed tr' = handed tr ++ chunk
    /\ m_outQueue p = chunk ++ m_outQueue p'.
Proof.
  intros Hq Hb H. destruct (isClosed p) eqn:Hc.
  - rewrite serviceIo_closed in H by exact Hc. injection H as _ _ <- _ <-.
    exists []. rewrite app_nil_r. auto.
  - apply serviceIo_open in H
      as (rb & rh & p1 & s1 & t1 & wb & wh & p2 & t2 & Hi & Ho & Hcase);
      [ | exact Hc].
    assert (H1 : handed t1 = handed tr /\ m_outQueue p1 = m_outQueue p
                 /\ m_outputWorker p1 = m_outputWorker p).
    { apply serviceWorker_ret in Hi
        as [(_ & _ & _ & -> & _ & ->) | (w & w' & p0 & _ & Hs & _ & ->)]; [auto | ].
      pose proof (IoWorker_service_frame _ _ _ _ _ _ _ _ _ _ Hs)
        as [(_ & _ & Ho' & _ & Hout) _].
      apply IoWorker_service_handed in Hs as (chunk & Hh & Hrest);
        [ | exact Hq | discriminate].
      simpl in Hout. simpl. split; [ | auto].
      rewrite Hout in Hrest.
      assert (chunk = []) as ->
        by (apply (f_equal (@length byte)) in Hrest;
            rewrite length_app in Hrest; destruct chunk; [reflexivity | simpl in Hrest; lia]).
      rewrite Hh. apply app_nil_r. }
    destruct H1 as (Hh1 & Hq1 & Hw1).
    assert (H2 : exists chunk, handed t2 = handed tr ++ chunk
                               /\ m_outQueue p = chunk ++ m_outQueue p2).
    { rewrite <- Hh1, <- Hq1.
      apply serviceWorker_ret in Ho
        as [(_ & _ & _ & -> & _ & ->) | (w & w' & p0 & Hk & Hs & _ & ->)].
      - exists []. rewrite app_nil_r. auto.
      - simpl in Hk. rewrite Hw1 in Hk.
        apply IoWorker_service_handed in Hs; [exact Hs | congruence | auto]. }
    destruct H2 as (chunk & Hh2 & Hrest). exists chunk.
    destruct Hcase as [(_ & _ & _ & Hcl) | (_ & _ & _ & _ & -> & ->)]; [ | auto].
    destruct (closePipe_handed p2 t2) as (Hh3 & Hq3 & _).
    rewrite <- Hcl in Hh3, Hq3. simpl in Hh3, Hq3.
    rewrite Hh3, Hq3. auto.
Qed.

(** ** Order on the receive path *)

Lemma delivered_app (a b : list Reply) :
  delivered (a ++ b) = delivered a ++ delivered b.
Proof. unfold delivered. apply flat_map_app. Qed.








(** ** A transport that keeps up *)

Lemma issueLoop_Writer_drains (rest : list Reply) (fuel : nat) :
  forall progress w p tr,
  (length (m_outQueue p) <= fuel)%nat ->
  m_pending w = false -> Str.size (m_buffer w) = kIoSize ->
  0 <= progress -> progress + Str.size (m_outQueue p) <= INT_MAX ->
  exists w' p' tr',
    issueLoop OutputWorker
      (full_completions fuel (Str.size (m_outQueue p)) ++ rest) progress w p tr
    = Ret (progress + Str.size (m_outQueue p), w', p', rest, tr')
    /\ m_outQueue p' = [] /\ m_pending w' = false.
Proof.
  pose proof kIoSize_pos as Hk1. pose proof kIoSize_int as Hk2.
  assert (Hempty : forall s progress w p tr,
             m_outQueue p = [] -> m_pending w = false ->
             Str.size (m_buffer w) = kIoSize ->
             exists w' p' tr',
               issueLoop OutputWorker s progress w p tr
               = Ret (progress + Str.size (m_outQueue p), w', p', s, tr')
               /\ m_outQueue p' = [] /\ m_pending w' = false).
  { intros s progress w p tr Hq Hp Hb. exists w, p, tr.
    rewrite issueLoop_eq. simpl shouldIssueIo.
    assert (Hs0 : Str.size (m_outQueue p) = 0) by (rewrite Hq; reflexivity).
    rewrite OutputWorker_shouldIssueIo_eq by (auto; unfold INT_MAX; lia).
    rewrite Hs0, Hq. simpl. rewrite Z.add_0_r. auto. }
  induction fuel as [ | fuel IH]; intros progress w p tr Hlen Hp Hb Hpr Hsum.
  - apply Hempty; auto. destruct (m_outQueue p); [reflexivity | simpl in Hlen; lia].
  - pose proof (size_nonneg (m_outQueue p)) as H0. simpl full_completions.
    destruct (Z.leb_spec (Str.size (m_outQueue p)) 0) as [Hz | Hnz].
    + apply Hempty; auto. apply size_zero_nil. exact Hz.
    + set (k := Z.min (Str.size (m_outQueue p)) kIoSize) in *.
      assert (Hk : 1 <= k <= Str.size (m_outQueue p) /\ k <= kIoSize)
        by (unfold k; lia).
      rewrite <- (size_skipn k (m_outQueue p)) by lia.
      rewrite <- app_comm_cons, issueLoop_eq. simpl shouldIssueIo.
      rewrite OutputWorker_shouldIssueIo_eq by (auto; lia).
      fold k.
      assert (He : Str.empty (m_outQueue p) = false)
        by (destruct (m_outQueue p);
            [unfold Str.size in Hnz; simpl in Hnz; lia | reflexivity]).
      rewrite He. cbn [bind transfer completeIo].
      rewrite OutputWorker_completeIo_eq.
      cbn [m_currentIoSize set_currentIoSize set_buffer].
      rewrite !to_int_id by (unfold in_int, INT_MIN, INT_MAX in *; lia).
      rewrite Z.eqb_refl. cbn [bind].
      match goal with
      | |- context [issueLoop OutputWorker _ ?pr ?w1 ?p1 ?t1] =>
        destruct (IH pr w1 p1 t1) as (w' & p' & tr' & Hrun & Hq' & Hp')
      end.
      * simpl. rewrite length_skipn. unfold Str.size in Hk. lia.
      * simpl. exact Hp.
      * simpl. rewrite size_app, size_firstn, size_skipn by lia. lia.
      * lia.
      * simpl m_outQueue. rewrite size_skipn by lia. lia.
      * exists w', p', tr'. simpl m_outQueue in Hrun.
        rewrite Hrun. rewrite size_skipn by lia.
        split; [ | auto]. do 2 f_equal. f_equal. f_equal. f_equal. lia.
Qed.

(** X7.  A transport that keeps up empties the output queue in one
    call: when every send completes at once and in full, an idle Writer
    hands the whole queue to [WriteFile], chunk after chunk and in order,
    reports its length as progress, takes one reply per chunk, and is
    idle again over an empty queue. *)
Theorem Writer_drains_queue_in_one_service (w : IoWorker) (p : NamedPipe)
    (rest : list Reply) (tr : list SysCall) :
  m_pending w = false -> Str.size (m_buffer w) = kIoSize ->
  Str.size (m_outQueue p) <= INT_MAX ->
  exists w' p' tr',
    IoWorker_service OutputWorker w p
      (full_completions (length (m_outQueue p)) (Str.size (m_outQueue p)) ++ rest)
      tr
    = Ret (Str.size (m_outQueue p), w', p', rest, tr')
    /\ m_outQueue p' = [] /\ m_pending w' = false
    /\ handed tr' = handed tr ++ m_outQueue p.
Proof.
  intros Hp Hb Hq.
  destruct (issueLoop_Writer_drains rest (length (m_outQueue p)) 0 w p tr)
    as (w' & p' & tr' & Hrun & Hq' & Hp'); auto; try lia.
  exists w', p', tr'.
  assert (Hs : IoWorker_service OutputWorker w p
                 (full_completions (length (m_outQueue p))
                    (Str.size (m_outQueue p)) ++ rest) tr
               = Ret (Str.size (m_outQueue p), w', p', rest, tr'))
    by (unfold IoWorker_service; rewrite Hp; exact Hrun).
  split; [exact Hs | ]. split; [exact Hq' | ]. split; [exact Hp' | ].
  apply IoWorker_service_handed in Hs as (chunk & Hh & Hrest); auto.
  rewrite Hq', app_nil_r in Hrest. congruence.
Qed.

(** ** A tick with nothing to do *)

Lemma set_worker_same (k : WorkerKind) (w : IoWorker) (p : NamedPipe) :
  worker_of k p = Some w -> set_worker k (Some w) p = p.
Proof. destruct p, k; simpl; intros ->; reflexivity. Qed.

Lemma serviceWorker_idle (k : WorkerKind) (p : NamedPipe) (script : list Reply)
    (tr : list SysCall) :
  (forall w, worker_of k p = Some w ->
     m_pending w = false /\ shouldIssueIo k w p = Ret (None, w, p)) ->
  serviceWorker k p script tr = Ret (0, NULL, p, script, tr).
Proof.
  intros H. unfold serviceWorker. destruct (worker_of k p) as [w | ] eqn:Hk;
    [ | reflexivity].
  destruct (H w eq_refl) as [Hp Hs].
  unfold IoWorker_service. rewrite Hp, issueLoop_eq, Hs. simpl.
  unfold getWaitEvent. rewrite Hp, set_worker_same by exact Hk. reflexivity.
Qed.

(** X8.  A tick with nothing to do does nothing.  When no operation is
    outstanding, the input queue has reached the read limit and the
    output queue is empty, [serviceIo] makes no system call, takes no
    reply, adds no wait handle, leaves the endpoint as it is and returns
    false: a Reader under backpressure issues no read. *)
Theorem serviceIo_idle_tick (waitHandles : list HANDLE) (p : NamedPipe)
    (script : list Reply) (tr : list SysCall) :
  (forall w, m_inputWorker p = Some w ->
     m_pending w = false /\ readBufferSize p <= bytesAvailable p) ->
  (forall w, m_outputWorker p = Some w ->
     m_pending w = false /\ m_outQueue p = []) ->
  serviceIo waitHandles p script tr = Ret (false, waitHandles, p, script, tr).
Proof.
  intros Hin Hout. unfold serviceIo.
  destruct (m_handle p =? NULL) eqn:Hc; [reflexivity | ].
  rewrite (serviceWorker_idle InputWorker).
  - simpl. rewrite (serviceWorker_idle OutputWorker); [reflexivity | ].
    intros w Hw. destruct (Hout w Hw) as [Hp Hq]. split; [exact Hp | ].
    simpl. unfold OutputWorker_shouldIssueIo. rewrite Hq. reflexivity.
  - intros w Hw. destruct (Hin w Hw) as [Hp Hfull]. split; [exact Hp | ].
    simpl. rewrite InputWorker_shouldIssueIo_eq.
    apply Z.ltb_ge in Hfull. rewrite Hfull, andb_false_r. reflexivity.
Qed.

(** ** The life cycle of an endpoint *)

Lemma serviceWorker_presence (k : WorkerKind) (p : NamedPipe)
    (script : list Reply) (tr : list SysCall) n h p' script' tr' :
  serviceWorker k p script tr = Ret (n, h, p', script', tr') ->
  m_handle p' = m_handle p
  /\ (m_inputWorker p' = None <-> m_inputWorker p = None)
  /\ (m_outputWorker p' = None <-> m_outputWorker p = None).
Proof.
  intros H. apply serviceWorker_ret in H
    as [(_ & _ & _ & -> & _) | (w & w' & p1 & Hk & Hs & _ & ->)];
    [split; [reflexivity | split; reflexivity] | ].
  apply IoWorker_service_frame in Hs as [(Hh & Hi & Ho & _) _].
  destruct k; simpl in *; rewrite ?Hi, ?Ho, ?Hk;
    (split; [exact Hh | split; split; congruence]).
Qed.

Lemma closePipe_no_workers (p : NamedPipe) (tr : list SysCall) :
  (isClosed p = true -> m_inputWorker p = None /\ m_outputWorker p = None) ->
  isClosed (fst (closePipe p tr)) = true
  /\ m_inputWorker (fst (closePipe p tr)) = None
  /\ m_outputWorker (fst (closePipe p tr)) = None.
Proof.
  intros H. destruct (isClosed p) eqn:Hc.
  - rewrite closePipe_closed by exact Hc. simpl. destruct (H eq_refl). auto.
  - rewrite closePipe_open by exact Hc. simpl. auto.
Qed.

Lemma perform_lifecycle (o : Op) (p p' : NamedPipe) :
  valid_op o -> perform o p = Ret p' ->
  (isClosed p = true <-> m_inputWorker p = None /\ m_outputWorker p = None) ->
  (isClosed p' = true <-> m_inputWorker p' = None /\ m_outputWorker p' = None).
Proof.
  assert (Hsame : forall q q',
            m_handle q' = m_handle q -> m_inputWorker q' = m_inputWorker q ->
            m_outputWorker q' = m_outputWorker q ->
            (isClosed q = true <-> m_inputWorker q = None /\ m_outputWorker q = None) ->
            (isClosed q' = true <-> m_inputWorker q' = None /\ m_outputWorker q' = None))
    by (unfold isClosed; intros q q' -> -> ->; auto).
  assert (Hopen : forall q,
            m_handle q <> NULL ->
            m_inputWorker q <> None \/ m_outputWorker q <> None ->
            (isClosed q = true <-> m_inputWorker q = None /\ m_outputWorker q = None)).
  { unfold isClosed. intros q Hh Hw. split.
    - intros Hc. apply Z.eqb_eq in Hc. contradiction.
    - intros [Hi Ho]. destruct Hw; contradiction. }
  destruct o; simpl; intros Hv H Hinv.
  - injection H as <-. apply (Hsame p); auto.
  - destruct (connectToServer handle evIn evOut p) as [[b q] | | | ] eqn:Hcn;
      simpl in H; try discriminate.
    injection H as <-. unfold connectToServer in Hcn.
    apply ASSERT_ret in Hcn as [Hc H].
    destruct (handle =? INVALID_HANDLE_VALUE).
    + injection H as _ <-. exact Hinv.
    + destruct (IoWorker_new evIn) as [wi | | | ]; simpl in H; try discriminate.
      destruct (IoWorker_new evOut) as [wo | | | ]; simpl in H; try discriminate.
      injection H as _ <-. apply Hopen; simpl; [exact Hv | left; discriminate].
  - unfold adoptHandle in H. apply ASSERT_ret in H as [Hc H].
    match type of H with
    | context [if ?b then _ else _] => destruct b
    end;
      (destruct (IoWorker_new ev) as [w | | | ]; simpl in H; try discriminate;
       injection H as <-; apply Hopen; simpl; [exact Hv | ]).
    + right; discriminate.
    + left; discriminate.
  - injection H as <-. apply (Hsame p); auto.
  - destruct (peek data size p) as [[[n d] q] | | | ] eqn:Hp; simpl in H;
      try discriminate.
    injection H as <-. unfold peek in Hp.
    destruct (memcpy _ _ _); simpl in Hp; try discriminate.
    injection Hp as _ _ <-. exact Hinv.
  - injection H as <-. apply (Hsame p); auto.
  - injection H as <-.
    apply (Hsame p); try exact Hinv; unfold readAsVector;
      destruct (0 <? _); reflexivity.
  - injection H as <-. apply (Hsame p); auto.
  - destruct (serviceIo waitHandles p script tr)
      as [[[[[b whs] q] s] t] | | | ] eqn:Hs; simpl in H; try discriminate.
    injection H as <-. destruct (isClosed p) eqn:Hc.
    + rewrite serviceIo_closed in Hs by exact Hc. injection Hs as _ _ <- _ _.
      rewrite Hc. exact Hinv.
    + apply serviceIo_open in Hs
        as (rb & rh & p1 & s1 & t1 & wb & wh & p2 & t2 & Hi & Ho & Hcase);
        [ | exact Hc].
      apply serviceWorker_presence in Hi as (Hh1 & Hi1 & Ho1).
      apply serviceWorker_presence in Ho as (Hh2 & Hi2 & Ho2).
      assert (Hinv2 : isClosed p2 = true
                      <-> m_inputWorker p2 = None /\ m_outputWorker p2 = None).
      { unfold isClosed in *. rewrite Hh2, Hh1, Hi2, Hi1, Ho2, Ho1, Hc. exact Hinv. }
      destruct Hcase as [(_ & _ & _ & Hcl) | (_ & _ & _ & _ & -> & _)];
        [ | exact Hinv2].
      destruct (closePipe_no_workers p2 t2) as (Hc3 & Hi3 & Ho3);
        [apply Hinv2 | ].
      rewrite <- Hcl in Hc3, Hi3, Ho3. simpl in Hc3, Hi3, Ho3.
      rewrite Hc3, Hi3, Ho3. tauto.
  - injection H as <-.
    match goal with
    | |- context [closePipe p ?t] =>
      destruct (closePipe_no_workers p t) as (Hc3 & Hi3 & Ho3); [apply Hinv | ]
    end.
    rewrite Hc3, Hi3, Ho3. tauto.
Qed.

(** X9.  An endpoint is closed exactly when it has no worker.  This
    holds in every state reached from the constructor by calls that
    return, whatever their order and outcome, as long as the handles
    connected or adopted are not [NULL]; so the [ASSERT(isClosed())] of
    [connectToServer] and [adoptHandle] also guards the worker pointers
    they overwrite. *)
Theorem closed_iff_no_workers (p : NamedPipe) :
  Run valid_op NamedPipe_new p ->
  (isClosed p = true <-> m_inputWorker p = None /\ m_outputWorker p = None).
Proof.
  induction 1 as [ | o p' p'' Hrun IH Hallowed Hperf].
  - simpl. split; auto.
  - eapply perform_lifecycle; eauto.
Qed.



(** ** What a worker asks of the operating system *)

Lemma issueLoop_Reader_calls (script : list Reply) :
  forall progress w p tr n w' p' script' tr',
  issueLoop InputWorker script progress w p tr = Ret (n, w', p', script', tr') ->
  exists calls,
    tr' = tr ++ calls
    /\ Forall (call_ok InputWorker (m_handle p) (m_event w)) calls.
Proof.
  induction script as [ | r script IH];
    intros progress w p tr n w' p' script' tr';
    rewrite issueLoop_eq; simpl shouldIssueIo;
    rewrite InputWorker_shouldIssueIo_eq;
    (destruct (negb (isClosed p) && _); simpl;
     [ | intros H; injection H as _ _ _ _ <-; exists [];
         rewrite app_nil_r; auto]).
  - discriminate.
  - assert (Hcall : call_ok InputWorker (m_handle p) (m_event w)
                      (ReadFile (m_handle p) (m_event w) kIoSize))
      by (simpl; auto).
    destruct r as [actual data | | ].
    + match goal with
      | |- context [bind ?m _] => destruct m as [p2 | | | ] eqn:Hc
      end; simpl; try discriminate.
      apply (completeIo_frame InputWorker) in Hc as (Hh & _).
      intros H. apply IH in H as (calls & -> & Hcalls).
      simpl in Hcalls. rewrite Hh in Hcalls.
      exists ([ReadFile (m_handle p) (m_event w) kIoSize; ResetEvent (m_event w)]
              ++ calls).
      split; [rewrite <- app_assoc; reflexivity | ].
      repeat constructor; simpl; auto.
    + intros H. injection H as _ _ _ _ <-.
      exists [ReadFile (m_handle p) (m_event w) kIoSize]. auto.
    + intros H. injection H as _ _ _ _ <-.
      exists [ReadFile (m_handle p) (m_event w) kIoSize]. auto.
Qed.

Lemma issueLoop_Writer_calls (script : list Reply) :
  forall progress w p tr n w' p' script' tr',
  Str.size (m_outQueue p) <= INT_MAX -> Str.size (m_buffer w) = kIoSize ->
  issueLoop OutputWorker script progress w p tr = Ret (n, w', p', script', tr') ->
  exists calls,
    tr' = tr ++ calls
    /\ Forall (call_ok OutputWorker (m_handle p) (m_event w)) calls.
Proof.
  pose proof kIoSize_pos as Hk1.
  induction script as [ | r script IH];
    intros progress w p tr n w' p' script' tr' Hq Hb;
    rewrite issueLoop_eq; simpl shouldIssueIo;
    rewrite (OutputWorker_shouldIssueIo_eq w p Hq Hb);
    (destruct (m_outQueue p) as [ | c q] eqn:Hqe; simpl;
     [intros H; injection H as _ _ _ _ <-; exists [];
      rewrite app_nil_r; auto | ]);
    rewrite <- Hqe in *.
  - discriminate.
  - pose proof (size_nonneg (m_outQueue p)) as H0.
    assert (Hne : 1 <= Str.size (m_outQueue p))
      by (rewrite Hqe; unfold Str.size; simpl length; lia).
    set (k := Z.min (Str.size (m_outQueue p)) kIoSize) in *.
    assert (Hk : 1 <= k <= Str.size (m_outQueue p) /\ k <= kIoSize)
      by (unfold k; lia).
    assert (Hchunk : firstn (Z.to_nat k)
                       (firstn (Z.to_nat k) (m_outQueue p)
                          ++ skipn (Z.to_nat k) (m_buffer w))
                     = firstn (Z.to_nat k) (m_outQueue p))
      by (apply firstn_app_exact, size_firstn; lia).
    assert (Hcall : call_ok OutputWorker (m_handle p) (m_event w)
                      (WriteFile (m_handle p) (m_event w)
                         (firstn (Z.to_nat k) (m_outQueue p)))).
    { simpl. rewrite size_firstn by lia. repeat split; lia. }
    destruct r as [actual data | | ].
    + match goal with
      | |- context [bind ?m _] => destruct m as [p2 | | | ] eqn:Hc
      end; simpl; try discriminate.
      unfold OutputWorker_completeIo in Hc. apply ASSERT_ret in Hc as [_ Hc].
      injection Hc as <-. intros H.
      apply IH in H; simpl.
      * destruct H as (calls & -> & Hcalls). simpl in Hcalls.
        rewrite Hchunk.
        exists ([WriteFile (m_handle p) (m_event w)
                   (firstn (Z.to_nat k) (m_outQueue p));
                 ResetEvent (m_event w)] ++ calls).
        split; [rewrite <- app_assoc; reflexivity | ].
        apply Forall_cons; [exact Hcall | ].
        apply Forall_cons; [reflexivity | exact Hcalls].
      * rewrite size_skipn by lia. lia.
      * rewrite size_app, size_firstn, size_skipn by lia. lia.
    + intros H. injection H as _ _ _ _ <-. simpl. rewrite Hchunk.
      eexists. split; [reflexivity | ].
      apply Forall_cons; [exact Hcall | apply Forall_nil].
    + intros H. injection H as _ _ _ _ <-. simpl. rewrite Hchunk.
      eexists. split; [reflexivity | ].
      apply Forall_cons; [exact Hcall | apply Forall_nil].
Qed.

(** X14.  What a worker asks of the operating system in one
    [service()] call: a Reader only receives, always [kIoSize] bytes; a
    Writer only sends, never an empty chunk and never more than
    [kIoSize] bytes; polls do not block; every call is on the pipe's own
    handle and the worker's own event, and nothing is canceled or
    closed.  The trace only grows. *)
Theorem IoWorker_service_calls (k : WorkerKind) (w : IoWorker) (p : NamedPipe)
    (script : list Reply) (tr : list SysCall) n w' p' script' tr' :
  Str.size (m_outQueue p) <= INT_MAX -> Str.size (m_buffer w) = kIoSize ->
  IoWorker_service k w p script tr = Ret (n, w', p', script', tr') ->
  exists calls,
    tr' = tr ++ calls
    /\ Forall (call_ok k (m_handle p) (m_event w)) calls.
Proof.
  intros Hq Hb H.
  assert (Hloop : forall script0 progress w0 p0 tr0,
            m_outQueue p0 = m_outQueue p ->
            Str.size (m_buffer w0) = kIoSize ->
            m_handle p0 = m_handle p -> m_event w0 = m_event w ->
            issueLoop k script0 progress w0 p0 tr0 = Ret (n, w', p', script', tr') ->
            exists calls,
              tr' = tr0 ++ calls
              /\ Forall (call_ok k (m_handle p) (m_event w)) calls).
  { intros script0 progress w0 p0 tr0 Hq0 Hb0 Hh0 He0 H0.
    rewrite <- Hh0, <- He0. destruct k.
    - eapply issueLoop_Reader_calls; exact H0.
    - eapply issueLoop_Writer_calls; [ | | exact H0]; congruence. }
  unfold IoWorker_service in H. destruct (m_pending w).
  - assert (Hpoll : call_ok k (m_handle p) (m_event w)
                      (GetOverlappedResult (m_handle p) (m_event w) false))
      by (simpl; auto).
    destruct script as [ | [actual data | | ] script]; try discriminate.
    + match type of H with
      | context [bind ?m _] => destruct m as [p2 | | | ] eqn:Hc
      end; simpl in H; try discriminate.
      assert (Hp2 : m_outQueue p2 = m_outQueue p /\ m_handle p2 = m_handle p).
      { destruct k; simpl in Hc.
        - apply (completeIo_frame InputWorker) in Hc as (Hh & _ & _ & _ & Ho). auto.
        - unfold OutputWorker_completeIo in Hc. apply ASSERT_ret in Hc as [_ Hc].
          injection Hc as <-. auto. }
      destruct Hp2 as [Hq2 Hh2].
      destruct (transfer_frame (kind_isRead k) data w) as ((Het & Hbt) & _).
      apply Hloop in H; simpl; try congruence.
      destruct H as (calls & -> & Hcalls). simpl in Hcalls.
      eexists. split; [rewrite <- app_assoc; reflexivity | ].
      simpl. repeat constructor; auto.
    + injection H as _ _ _ _ <-. eexists. split; [reflexivity | auto].
    + injection H as _ _ _ _ <-. eexists. split; [reflexivity | auto].
  - apply Hloop in H; auto.
Qed.

(** ** The blocking paths *)

Lemma to_DWORD_int (n : Z) : 0 <= n <= INT_MAX -> to_DWORD (to_int n) = n.
Proof.
  intros H. rewrite to_int_id by (unfold in_int, INT_MIN, INT_MAX in *; lia).
  unfold to_DWORD. apply Z.mod_small. unfold INT_MAX in H. lia.
Qed.

(** X12.  [writeImmediately] returns only when all of [data] has been
    written.  It returns exactly when the endpoint has an idle Writer,
    the event could be created, and the transport reports the size of
    [data] as written, either at once or, after [ERROR_IO_PENDING] and
    the wait, by the overlapped result; it then leaves the endpoint and
    its output queue as they were, and closes the event.  A short write,
    another error or a wait that ends with the write outstanding ends the
    process. *)
Theorem writeImmediately_returns_iff_written (data : bytes) (ev : HANDLE)
    (p : NamedPipe) (answers : list Answer) (tr : list BlockingCall) :
  Str.size data <= INT_MAX ->
  (forall p' answers' tr',
     writeImmediately data ev p answers tr = Ret (p', answers', tr') <->
     p' = p
     /\ (exists w, m_outputWorker p = Some w /\ m_pending w = false)
     /\ ev <> NULL
     /\ ((answers = Succeeded (Str.size data) :: answers'
          /\ tr' = tr ++ [CreateEventW ev;
                          Overlapped (WriteFile (m_handle p) ev data);
                          Overlapped (CloseHandle ev)])
         \/ (answers = FailedWith ERROR_IO_PENDING
                         :: Succeeded (Str.size data) :: answers'
             /\ tr' = tr ++ [CreateEventW ev;
                             Overlapped (WriteFile (m_handle p) ev data);
                             WaitForSingleObject ev 30000;
                             Overlapped (GetOverlappedResult (m_handle p) ev false);
                             Overlapped (CloseHandle ev)])))
  /\ ((2 <= length answers)%nat ->
      (forall r, writeImmediately data ev p answers tr <> Ret r) ->
      writeImmediately data ev p answers tr = Fatal).
Proof.
  intros Hsize. pose proof (size_nonneg data) as H0.
  pose proof (to_DWORD_int (Str.size data) (conj H0 Hsize)) as Hdw.
  split.
  - intros p' answers' tr'. unfold writeImmediately, ioPending. rewrite Hdw.
    split.
    + destruct (m_outputWorker p) as [w | ]; simpl; [ | discriminate].
      destruct (m_pending w) eqn:Hp; simpl; [discriminate | ].
      destruct (ev =? NULL) eqn:Hev; simpl; [discriminate | ].
      apply Z.eqb_neq in Hev.
      destruct answers as [ | [n | e] answers]; simpl; [discriminate | | ].
      * destruct (n =? Str.size data) eqn:Hn; simpl; [ | discriminate].
        apply Z.eqb_eq in Hn. intros H. injection H as <- <- <-.
        split; [reflexivity | ]. split; [exists w; split; [reflexivity | exact Hp] | ].
        split; [exact Hev | left]. rewrite Hn, <- !app_assoc. auto.
      * destruct (e =? ERROR_IO_PENDING) eqn:He; simpl; [ | discriminate].
        apply Z.eqb_eq in He.
        destruct answers as [ | [n | e2] answers]; simpl; try discriminate.
        destruct (n =? Str.size data) eqn:Hn; simpl; [ | discriminate].
        apply Z.eqb_eq in Hn. intros H. injection H as <- <- <-.
        split; [reflexivity | ]. split; [exists w; split; [reflexivity | exact Hp] | ].
        split; [exact Hev | right]. rewrite He, Hn, <- !app_assoc. auto.
    + intros (-> & (w & -> & Hp) & Hev & [[-> ->] | [-> ->]]);
        apply Z.eqb_neq in Hev; simpl; rewrite Hp, Hev; simpl;
        rewrite Z.eqb_refl; simpl; rewrite <- !app_assoc; reflexivity.
  - intros Hlen Hnot. unfold writeImmediately, ioPending in *.
    destruct (m_outputWorker p) as [w | ]; simpl in *; [ | reflexivity].
    destruct (m_pending w); simpl in *; [reflexivity | ].
    destruct (ev =? NULL); simpl in *; [reflexivity | ].
    destruct answers as [ | [n | e] [ | [n2 | e2] answers]];
      simpl in *; try lia.
    + destruct (n =? _); simpl in *; [ | reflexivity].
      exfalso. eapply Hnot. reflexivity.
    + destruct (n =? _); simpl in *; [ | reflexivity].
      exfalso. eapply Hnot. reflexivity.
    + destruct (e =? ERROR_IO_PENDING); simpl in *; [ | reflexivity].
      destruct (n2 =? _); simpl in *; [ | reflexivity].
      exfalso. eapply Hnot. reflexivity.
    + destruct (e =? ERROR_IO_PENDING); reflexivity.
Qed.

(** X13.  [connectToClient] returns only when a client is connected.
    It returns exactly when the endpoint is open, the event could be
    created, and [ConnectNamedPipe] succeeded or found the client
    already there ([ERROR_PIPE_CONNECTED]), at once or, after
    [ERROR_IO_PENDING] and the wait, by the overlapped result; it then
    leaves the endpoint as it was and closes the event.  Called on a
    closed endpoint, or when the wait ends with no client, it ends the
    process. *)
Theorem connectToClient_returns_iff_connected (ev : HANDLE) (p : NamedPipe)
    (answers : list Answer) (tr : list BlockingCall) :
  (forall p' answers' tr',
     connectToClient ev p answers tr = Ret (p', answers', tr') <->
     p' = p /\ isClosed p = false /\ ev <> NULL
     /\ ((exists a,
            answers = a :: answers'
            /\ (succeeded a = true \/ a = FailedWith ERROR_PIPE_CONNECTED)
            /\ tr' = tr ++ [CreateEventW ev;
                            ConnectNamedPipe (m_handle p) ev;
                            Overlapped (CloseHandle ev)])
         \/ (exists b,
               answers = FailedWith ERROR_IO_PENDING :: b :: answers'
               /\ (succeeded b = true \/ b = FailedWith ERROR_PIPE_CONNECTED)
               /\ tr' = tr ++ [CreateEventW ev;
                               ConnectNamedPipe (m_handle p) ev;
                               WaitForSingleObject ev 30000;
                               Overlapped (GetOverlappedResult (m_handle p) ev false);
                               Overlapped (CloseHandle ev)])))
  /\ (isClosed p = true -> connectToClient ev p answers tr = Fatal)
  /\ ((2 <= length answers)%nat ->
      (forall r, connectToClient ev p answers tr <> Ret r) ->
      connectToClient ev p answers tr = Fatal).
Proof.
  assert (Hpc : forall a,
            (if negb (succeeded a) && (last_error a =? ERROR_PIPE_CONNECTED)
             then true else succeeded a) = true
            <-> succeeded a = true \/ a = FailedWith ERROR_PIPE_CONNECTED).
  { intros [n | e]; simpl.
    - split; auto.
    - destruct (e =? ERROR_PIPE_CONNECTED) eqn:He.
      + apply Z.eqb_eq in He. subst. split; auto.
      + apply Z.eqb_neq in He. split; [discriminate | ].
        intros [H | H]; [discriminate | injection H as H; contradiction]. }
  assert (Hpend : forall a,
            negb (succeeded a) && (last_error a =? ERROR_IO_PENDING) = true
            <-> a = FailedWith ERROR_IO_PENDING).
  { intros [n | e]; simpl.
    - split; discriminate.
    - rewrite Z.eqb_eq. split; [intros -> | intros H; injection H]; auto. }
  split; [ | split].
  - intros p' answers' tr'. unfold connectToClient. split.
    + destruct (isClosed p); simpl; [discriminate | ].
      destruct (ev =? NULL) eqn:Hev; simpl; [discriminate | ].
      apply Z.eqb_neq in Hev.
      destruct answers as [ | a answers]; simpl; [discriminate | ].
      destruct (negb (succeeded a) && (last_error a =? ERROR_IO_PENDING)) eqn:Ha.
      * apply Hpend in Ha. subst a.
        destruct answers as [ | b answers]; simpl; [discriminate | ].
        match goal with
        | |- context [ASSERT ?c] => destruct c eqn:Hb
        end; simpl; [ | discriminate].
        apply Hpc in Hb. intros H. injection H as <- <- <-.
        split; [reflexivity | ]. split; [reflexivity | ].
        split; [exact Hev | right]. exists b. rewrite <- !app_assoc. auto.
      * simpl.
        match goal with
        | |- context [ASSERT ?c] => destruct c eqn:Hb
        end; simpl; [ | discriminate].
        apply Hpc in Hb. intros H. injection H as <- <- <-.
        split; [reflexivity | ]. split; [reflexivity | ].
        split; [exact Hev | left]. exists a. rewrite <- !app_assoc. auto.
    + intros (-> & Hc & Hev & [(a & -> & Ha & ->) | (b & -> & Hb & ->)]);
        apply Z.eqb_neq in Hev; rewrite Hc; simpl; rewrite Hev; simpl.
      * assert (Hnp : negb (succeeded a) && (last_error a =? ERROR_IO_PENDING)
                      = false).
        { destruct Ha as [Ha | ->]; [rewrite Ha; reflexivity | reflexivity]. }
        rewrite Hnp. simpl. apply Hpc in Ha. rewrite Ha. simpl.
        rewrite <- !app_assoc. reflexivity.
      * apply Hpc in Hb. rewrite Hb. simpl. rewrite <- !app_assoc. reflexivity.
  - intros Hc. unfold connectToClient. rewrite Hc. reflexivity.
  - intros Hlen Hnot. unfold connectToClient in *.
    destruct (isClosed p); simpl in *; [reflexivity | ].
    destruct (ev =? NULL); simpl in *; [reflexivity | ].
    destruct answers as [ | a [ | b answers]]; simpl in *; try lia.
    destruct (negb (succeeded a) && (last_error a =? ERROR_IO_PENDING));
      simpl in *;
      match goal with
      | |- context [ASSERT ?c] => destruct c eqn:Hb
      end; simpl in *; try reflexivity;
      exfalso; eapply Hnot; reflexivity.
Qed.

End Further.

(** * The properties on the sample endpoints *)

Module Examples.

Import Sample.

#[local] Instance win64_ok : PlatformOk win64.
Proof. split; unfold INT_MAX; simpl; lia. Qed.

Lemma returns_result (A : Type) (default : A) (m : Outcome A) :
  returns m = true -> m = Ret (result default m).
Proof. destruct m; simpl; intros H; [reflexivity | discriminate ..]. Qed.

Lemma worker_of_worker (k : WorkerKind) (p : NamedPipe) :
  match worker_of k p with Some _ => true | None => false end = true ->
  worker_of k p = Some (worker k p).
Proof. unfold worker. destruct (worker_of k p); [reflexivity | discriminate]. Qed.

Lemma Tick_eta (t : Tick) :
  t = (tick_flag t, tick_handles t, tick_pipe t, tick_script t, tick_trace t).
Proof. destruct t as [[[[b h] p] s] t]. reflexivity. Qed.

Lemma Serviced_eta (s : Serviced) :
  s = (serviced_value s, serviced_worker s, serviced_pipe s,
       serviced_script s, serviced_trace s).
Proof. destruct s as [[[[n w] p] s] t]. reflexivity. Qed.

Lemma connected_limit : readBufferSize connected + kIoSize - 1 <= INT_MAX.
Proof. vm_compute. discriminate. Qed.

Lemma two_bytes_ok : Forall reply_ok two_bytes.
Proof. repeat constructor; vm_compute; discriminate. Qed.

Lemma connected_Configured : Configured connected.
Proof.
  apply (Run_step _ _ connect NamedPipe_new connected).
  - apply Run_refl.
  - simpl. unfold NULL. lia.
  - apply returns_result. vm_compute. reflexivity.
Qed.

Lemma flooded_reached : Run is_traffic connected flooded.
Proof.
  apply (Run_step _ _ flooding connected flooded).
  - apply Run_refl.
  - simpl. repeat constructor; simpl; lia.
  - apply returns_result. vm_compute. reflexivity.
Qed.

(** C2 as stated fails: with the default limit of 65536 bytes, a tick in
    which a receive of 65535 bytes and then one of 65536 bytes complete
    at once leaves 131071 bytes in the input queue. *)
Lemma input_queue_exceeds_limit :
  Configured connected
  /\ Run is_traffic connected flooded
  /\ readBufferSize flooded = 65536
  /\ bytesAvailable flooded = 131071
  /\ ~ bytesAvailable flooded <= readBufferSize flooded.
Proof.
  split; [exact connected_Configured | ].
  split; [exact flooded_reached | ].
  split; [vm_compute; reflexivity | ].
  split; [vm_compute; reflexivity | ].
  vm_compute. intros H. apply H. reflexivity.
Qed.

(** C7 as stated fails for a negative size: [read(-1)] returns and
    removes the whole queue, not its first [min(-1, 3)] bytes. *)
Lemma read_negative_size_takes_all :
  fst (read (-1) leftover) = [x61; x62; x63]
  /\ bytesAvailable leftover = 3
  /\ bytesAvailable (snd (read (-1) leftover)) = 0
  /\ fst (read (-1) leftover)
     <> firstn (Z.to_nat (Z.min (-1) (bytesAvailable leftover))) (m_inQueue leftover)
  /\ bytesAvailable (snd (read (-1) leftover))
     <> bytesAvailable leftover - Z.min (-1) (bytesAvailable leftover).
Proof.
  vm_compute. repeat split; try reflexivity; discriminate.
Qed.

(** ** The theorems at work *)

Lemma bytesToSend_queue_plus_pending_witness :
  bytesToSend sending = 1 + 3
  /\ bytesToSend (writes [[x61; x62]; [x63]] connected) = 3.
Proof.
  assert (H1 : in_int (Str.size (m_outQueue sending)))
    by (vm_compute; split; discriminate).
  assert (H2 : in_int (Str.size (m_outQueue sending) +
                       match m_outputWorker sending with
                       | Some w => if m_pending w then m_currentIoSize w else 0
                       | None => 0
                       end))
    by (vm_compute; split; discriminate).
  assert (H3 : total_size [[x61; x62]; [x63]] <= INT_MAX)
    by (vm_compute; discriminate).
  destruct (bytesToSend_queue_plus_pending
              sending connected [[x61; x62]; [x63]] H1 H2 connected_Configured H3)
    as [Ha Hb].
  split; [rewrite Ha; vm_compute; reflexivity | exact Hb].
Defined.

Lemma input_queue_within_one_transfer_of_limit_witness :
  bytesAvailable flooded <= Z.max 0 (readBufferSize connected - 1 + kIoSize)
  /\ Z.max 0 (readBufferSize connected - 1 + kIoSize) = 131071.
Proof.
  assert (Ha : 0 <= 2 <= kIoSize) by (vm_compute; split; discriminate).
  assert (Hb : Str.size (m_buffer (worker InputWorker connected)) = kIoSize)
    by (vm_compute; reflexivity).
  destruct (input_queue_within_one_transfer_of_limit
              connected flooded (worker InputWorker connected) 2
              connected_Configured connected_limit flooded_reached Ha Hb)
    as (_ & Hbound & _).
  split; [exact Hbound | vm_compute; reflexivity].
Defined.

Lemma busy_ok : Forall reply_ok busy.
Proof. repeat constructor; vm_compute; discriminate. Qed.

Lemma sending_reached : Run is_traffic connected sending.
Proof.
  apply (Run_step _ _ (op_write [x64]) pending_both sending).
  - apply (Run_step _ _ both_pending written pending_both).
    + apply (Run_step _ _ (op_write [x61; x62; x63]) connected written).
      * apply Run_refl.
      * exact I.
      * reflexivity.
    + repeat constructor.
    + apply returns_result. vm_compute. reflexivity.
  - exact I.
  - reflexivity.
Qed.

Lemma sending_ready : tick_ready sending.
Proof.
  apply (Run_tick_ready connected sending connected_Configured connected_limit
                        sending_reached).
  vm_compute. discriminate.
Qed.

Lemma serviceIo_reports_activity_witness :
  tick_flag ticked = true
  /\ bytesToSend sending = 4
  /\ bytesToSend (tick_pipe ticked) = 0
  /\ tick_handles ticked = [] ++ wait_handles (tick_pipe ticked)
  /\ wait_handles (tick_pipe ticked) = [11].
Proof.
  assert (Hrun : serviceIo [] sending busy []
                 = Ret (tick_flag ticked, tick_handles ticked, tick_pipe ticked,
                        tick_script ticked, tick_trace ticked)).
  { rewrite <- Tick_eta. apply returns_result. vm_compute. reflexivity. }
  destruct (serviceIo_reports_activity
              [] sending busy [] _ _ _ _ _ sending_ready busy_ok Hrun)
    as (_ & _ & Hiff & _ & Hhandles).
  split.
  - apply Hiff. split; [vm_compute; reflexivity | ].
    right; right. vm_compute. reflexivity.
  - split; [vm_compute; reflexivity | ].
    split; [vm_compute; reflexivity | ].
    split; [apply Hhandles; vm_compute; reflexivity | vm_compute; reflexivity].
Defined.

Lemma IoWorker_service_follows_design_witness :
  Advance InputWorker (machine_of (worker InputWorker connected) connected)
          two_bytes (serviced_value serviced)
          (machine_after (serviced_value serviced) (serviced_worker serviced)
                         (serviced_pipe serviced))
          (serviced_script serviced)
  /\ serviced_value serviced = 2
  /\ m_pending (serviced_worker serviced) = true.
Proof.
  assert (Hrange : in_range InputWorker (worker InputWorker connected) connected).
  { split; [vm_compute; reflexivity | ].
    split; [exact connected_limit | ].
    split; [vm_compute; discriminate | intros _; vm_compute; discriminate]. }
  assert (Hrun : IoWorker_service InputWorker (worker InputWorker connected)
                                  connected two_bytes []
                 = Ret (serviced_value serviced, serviced_worker serviced,
                        serviced_pipe serviced, serviced_script serviced,
                        serviced_trace serviced)).
  { rewrite <- Serviced_eta. apply returns_result. vm_compute. reflexivity. }
  destruct (IoWorker_service_follows_design
              InputWorker (worker InputWorker connected) connected two_bytes []
              two_bytes_ok Hrange)
    as (Hsteps & _ & _).
  destruct (Hsteps _ _ _ _ _ Hrun) as (Hadv & _ & _).
  split; [exact Hadv | split; vm_compute; reflexivity].
Defined.

Lemma OutputWorker_issues_front_chunk_witness :
  Str.size (firstn (Z.to_nat (Z.min (Str.size (m_outQueue written)) kIoSize))
                   (m_outQueue written))
  = Z.min (Str.size (m_outQueue written)) kIoSize
  /\ Z.min (Str.size (m_outQueue written)) kIoSize = 3.
Proof.
  assert (Hq : Str.size (m_outQueue written) <= INT_MAX)
    by (vm_compute; discriminate).
  assert (Hb : Str.size (m_buffer (worker OutputWorker connected)) = kIoSize)
    by (vm_compute; reflexivity).
  destruct (OutputWorker_issues_front_chunk
              (worker OutputWorker connected) written [] 0 [] Hq Hb)
    as (_ & _ & Hchunk & _).
  split; [exact Hchunk | vm_compute; reflexivity].
Defined.

Lemma read_peek_prefix_witness :
  let k := Z.min 2 (bytesAvailable leftover) in
  let '(ret, p') := read 2 leftover in
  ret = firstn (Z.to_nat k) (m_inQueue leftover)
  /\ Str.size ret = k
  /\ m_inQueue leftover = ret ++ m_inQueue p'
  /\ bytesAvailable p' = bytesAvailable leftover - k
  /\ peek [x00; x00] 2 leftover = Ret (k, ret ++ skipn (Z.to_nat k) [x00; x00], leftover).
Proof.
  apply (read_peek_prefix 2 leftover [x00; x00]).
  - vm_compute. split; discriminate.
  - vm_compute. discriminate.
  - vm_compute. discriminate.
Defined.

Lemma OutputWorker_completion_size_asserted_witness :
  IoWorker_service OutputWorker (worker OutputWorker connected) written
                   [Done 3 []; NotYet] [] <> Fatal
  /\ IoWorker_service OutputWorker (worker OutputWorker connected) written
                      (Done 2 [] :: [Done 3 []; NotYet]) [] = Fatal.
Proof.
  assert (Hq : Str.size (m_outQueue written) <= INT_MAX)
    by (vm_compute; discriminate).
  assert (Hb : Str.size (m_buffer (worker OutputWorker connected)) = kIoSize)
    by (vm_compute; reflexivity).
  destruct (OutputWorker_completion_size_asserted
              (worker OutputWorker connected) written [Done 3 []; NotYet] []
              3 2 [] Hq Hb)
    as (_ & _ & Hfull & _ & Hshort).
  split.
  - apply Hfull. vm_compute. right. split; [reflexivity | exact I].
  - apply Hshort; vm_compute; [reflexivity | discriminate | discriminate].
Defined.

Lemma getWaitEvent_iff_pending_witness :
  getWaitEvent (worker InputWorker receiving) = 11
  /\ m_pending (worker InputWorker receiving) = true.
Proof.
  assert (Hrun : Run any_op NamedPipe_new receiving).
  { apply (Run_step _ _ receive_pending connected receiving).
    - apply (Run_step _ _ connect NamedPipe_new connected).
      + apply Run_refl.
      + exact I.
      + apply returns_result. vm_compute. reflexivity.
    - exact I.
    - apply returns_result. vm_compute. reflexivity. }
  assert (Hw : worker_of InputWorker receiving = Some (worker InputWorker receiving))
    by (apply worker_of_worker; vm_compute; reflexivity).
  destruct (getWaitEvent_iff_pending
              receiving InputWorker (worker InputWorker receiving) Hrun Hw)
    as [Hiff _].
  split; [vm_compute; reflexivity | ].
  apply Hiff. vm_compute. discriminate.
Defined.

Lemma readAsVector_eq_read_witness :
  readAsVector (-1) leftover = read (-1) leftover.
Proof.
  apply (readAsVector_eq_read (-1) leftover).
  - vm_compute. split; discriminate.
  - vm_compute. discriminate.
Defined.

End Examples.

(** * The further properties on the sample endpoints *)

Module FurtherExamples.

Import Sample Scenes.

#[local] Existing Instance Examples.win64_ok.


Lemma input_worker (p : NamedPipe) :
  match m_inputWorker p with Some _ => true | None => false end = true ->
  m_inputWorker p = Some (worker InputWorker p).
Proof.
  unfold worker, worker_of. destruct (m_inputWorker p);
    [reflexivity | discriminate].
Qed.

Lemma output_worker (p : NamedPipe) :
  match m_outputWorker p with Some _ => true | None => false end = true ->
  m_outputWorker p = Some (worker OutputWorker p).
Proof.
  unfold worker, worker_of. destruct (m_outputWorker p);
    [reflexivity | discriminate].
Qed.

Lemma the_input_worker (p : NamedPipe) (P : IoWorker -> Prop) :
  match m_inputWorker p with Some _ => true | None => false end = true ->
  P (worker InputWorker p) -> forall w, m_inputWorker p = Some w -> P w.
Proof.
  intros H HP w Hw. rewrite (input_worker p H) in Hw.
  injection Hw as <-. exact HP.
Qed.

Lemma the_output_worker (p : NamedPipe) (P : IoWorker -> Prop) :
  match m_outputWorker p with Some _ => true | None => false end = true ->
  P (worker OutputWorker p) -> forall w, m_outputWorker p = Some w -> P w.
Proof.
  intros H HP w Hw. rewrite (output_worker p H) in Hw.
  injection Hw as <-. exact HP.
Qed.

Lemma sending_ticked :
  serviceIo [] sending busy []
  = Ret (tick_flag ticked, tick_handles ticked, tick_pipe ticked,
         tick_script ticked, tick_trace ticked).
Proof.
  rewrite <- Examples.Tick_eta. apply Examples.returns_result.
  vm_compute. reflexivity.
Qed.



Lemma connected_reached : Run valid_op NamedPipe_new connected.
Proof.
  apply (Run_step _ _ connect NamedPipe_new connected).
  - apply Run_refl.
  - simpl. unfold NULL. lia.
  - apply Examples.returns_result. vm_compute. reflexivity.
Qed.

Lemma readAll_is_read_of_everything_witness :
  read (-1) leftover = readAll leftover
  /\ fst (readAll leftover) = m_inQueue leftover
  /\ bytesAvailable (snd (readAll leftover)) = 0.
Proof.
  apply (readAll_is_read_of_everything (-1) leftover).
  - vm_compute. split; discriminate.
  - vm_compute. discriminate.
  - left. vm_compute. reflexivity.
Defined.

Lemma read_in_two_steps_witness :
  read (1 + 2) leftover =
  (fst (read 1 leftover) ++ fst (read 2 (snd (read 1 leftover))),
   snd (read 2 (snd (read 1 leftover)))).
Proof.
  apply (read_in_two_steps 1 2 leftover).
  - vm_compute. discriminate.
  - vm_compute. discriminate.
  - vm_compute. discriminate.
  - vm_compute. discriminate.
Defined.

Lemma bytesToSend_after_writes_witness :
  bytesToSend (writes [[x61; x62]; [x63]] sending)
  = bytesToSend sending + total_size [[x61; x62]; [x63]]
  /\ in_flight (writes [[x61; x62]; [x63]] sending) = in_flight sending
  /\ m_inQueue (writes [[x61; x62]; [x63]] sending) = m_inQueue sending.
Proof.
  apply (bytesToSend_after_writes [[x61; x62]; [x63]] sending).
  - vm_compute. discriminate.
  - vm_compute. discriminate.
Defined.

Lemma write_text_queues_up_to_NUL_witness :
  write_text greeting NamedPipe_new
  = Ret (write (firstn (Z.to_nat 2) greeting) NamedPipe_new)
  /\ ~ In x00 (firstn (Z.to_nat 2) greeting)
  /\ (exists rest, greeting = firstn (Z.to_nat 2) greeting ++ x00 :: rest)
  /\ Str.size (m_outQueue (write (firstn (Z.to_nat 2) greeting) NamedPipe_new))
     = Str.size (m_outQueue NamedPipe_new) + 2.
Proof.
  apply (write_text_queues_up_to_NUL greeting NamedPipe_new 2).
  - vm_compute. reflexivity.
  - vm_compute. discriminate.
Defined.

Lemma serviceIo_hands_queue_prefix_witness :
  exists chunk,
    handed (tick_trace ticked) = handed [] ++ chunk
    /\ m_outQueue sending = chunk ++ m_outQueue (tick_pipe ticked).
Proof.
  assert (Hq : Str.size (m_outQueue sending) <= INT_MAX)
    by (vm_compute; discriminate).
  assert (Hb : forall w, m_outputWorker sending = Some w ->
                         Str.size (m_buffer w) = kIoSize).
  { apply (the_output_worker sending
             (fun w => Str.size (m_buffer w) = kIoSize));
      vm_compute; reflexivity. }
  exact (serviceIo_hands_queue_prefix [] sending busy [] _ _ _ _ _
           Hq Hb sending_ticked).
Defined.


Lemma Writer_drains_queue_in_one_service_witness :
  exists w' p' tr',
    IoWorker_service OutputWorker (worker OutputWorker connected) written
      (full_completions (length (m_outQueue written))
         (Str.size (m_outQueue written)) ++ [NotYet])
      []
    = Ret (Str.size (m_outQueue written), w', p', [NotYet], tr')
    /\ m_outQueue p' = [] /\ m_pending w' = false
    /\ handed tr' = handed [] ++ m_outQueue written.
Proof.
  apply (Writer_drains_queue_in_one_service
           (worker OutputWorker connected) written [NotYet] []).
  - vm_compute. reflexivity.
  - vm_compute. reflexivity.
  - vm_compute. discriminate.
Defined.

Lemma serviceIo_idle_tick_witness :
  serviceIo [7] throttled [NotYet] [] = Ret (false, [7], throttled, [NotYet], []).
Proof.
  apply (serviceIo_idle_tick [7] throttled [NotYet] []).
  - apply (the_input_worker throttled
             (fun w => m_pending w = false
                       /\ readBufferSize throttled <= bytesAvailable throttled)).
    + vm_compute. reflexivity.
    + split; [vm_compute; reflexivity | vm_compute; discriminate].
  - apply (the_output_worker throttled
             (fun w => m_pending w = false /\ m_outQueue throttled = [])).
    + vm_compute. reflexivity.
    + split; vm_compute; reflexivity.
Defined.

Lemma closed_iff_no_workers_witness :
  isClosed connected = true
  <-> m_inputWorker connected = None /\ m_outputWorker connected = None.
Proof. exact (closed_iff_no_workers connected connected_reached). Defined.



Lemma writeImmediately_returns_iff_written_witness :
  writeImmediately [x61] 13 connected
                   [FailedWith ERROR_IO_PENDING; Succeeded 1] []
  = Ret (connected, [], [] ++ waited_write)
  /\ writeImmediately [x61] 13 connected
                      [FailedWith ERROR_IO_PENDING;
                       FailedWith ERROR_IO_INCOMPLETE] []
     = Fatal.
Proof.
  assert (Hsize : Str.size [x61] <= INT_MAX) by (vm_compute; discriminate).
  split.
  - apply (writeImmediately_returns_iff_written [x61] 13 connected _ [] Hsize).
    split; [reflexivity | ].
    split.
    + exists (worker OutputWorker connected).
      split; [ | vm_compute; reflexivity].
      apply (output_worker connected). vm_compute. reflexivity.
    + split; [unfold NULL; lia | ].
      right. split; reflexivity.
  - apply (writeImmediately_returns_iff_written [x61] 13 connected _ [] Hsize).
    + simpl. lia.
    + intros [[p' answers'] tr'] H.
      apply (writeImmediately_returns_iff_written [x61] 13 connected _ [] Hsize)
        in H as (_ & _ & _ & [[H _] | [H _]]); discriminate.
Defined.

Lemma IoWorker_service_calls_witness :
  exists calls,
    serviced_trace serviced = [] ++ calls
    /\ Forall (call_ok InputWorker (m_handle connected)
                       (m_event (worker InputWorker connected))) calls.
Proof.
  assert (Hq : Str.size (m_outQueue connected) <= INT_MAX)
    by (vm_compute; discriminate).
  assert (Hb : Str.size (m_buffer (worker InputWorker connected)) = kIoSize)
    by (vm_compute; reflexivity).
  assert (Hrun : IoWorker_service InputWorker (worker InputWorker connected)
                                  connected two_bytes []
                 = Ret (serviced_value serviced, serviced_worker serviced,
                        serviced_pipe serviced, serviced_script serviced,
                        serviced_trace serviced)).
  { rewrite <- Examples.Serviced_eta. apply Examples.returns_result.
    vm_compute. reflexivity. }
  exact (IoWorker_service_calls InputWorker (worker InputWorker connected)
           connected two_bytes [] _ _ _ _ _ Hq Hb Hrun).
Defined.

End FurtherExamples.
